(** * An expandable, page-directory backed bitset

    Shallow embedding of [src/abitset_expandable.c].  The C code works on a
    heap object through a pointer; here every entry point is a computation
    in a small state-and-failure monad over the struct, where failure stands
    for undefined behaviour (an access outside an allocated block) or for a
    loop that never ends.  Unsigned 32- and 64-bit arithmetic is written out
    with explicit reduction modulo [2^32] and [2^64]. *)

From Stdlib Require Import ZArith Lia List Bool.
From stdpp Require Import base option list.

Open Scope Z_scope.

(** ** Machine integers *)

Definition u32 (x : Z) : Z := x mod 2 ^ 32.
Definition u64 (x : Z) : Z := x mod 2 ^ 64.

(** ** Constants of the source *)

Definition PAGE_SIZE : Z := Z.shiftl 1 12.
Definition PAGE_ENTRIES : Z := Z.shiftr PAGE_SIZE 3.
Definition INITIAL_PAGES : Z := Z.shiftl 1 11.

(** ** The data model

    A page is a block of [PAGE_ENTRIES] 64-bit words; the directory is an
    array of nullable page pointers ([None] is the null pointer). *)

Abbreviation page := (list Z).

Record abitset_expandable_s : Type := Handle {
  pages : list (option page);
  page_count : Z;
  size : Z;
  max_bit : Z
}.

Definition with_pages (ps : list (option page)) (h : abitset_expandable_s) :=
  {| pages := ps; page_count := page_count h; size := size h; max_bit := max_bit h |}.
Definition with_page_count (n : Z) (h : abitset_expandable_s) :=
  {| pages := pages h; page_count := n; size := size h; max_bit := max_bit h |}.
Definition with_size (n : Z) (h : abitset_expandable_s) :=
  {| pages := pages h; page_count := page_count h; size := n; max_bit := max_bit h |}.
Definition with_max_bit (n : Z) (h : abitset_expandable_s) :=
  {| pages := pages h; page_count := page_count h; size := size h; max_bit := n |}.

(** ** The monad of handle operations *)

Definition M (A : Type) : Type :=
  abitset_expandable_s -> option (A * abitset_expandable_s).

Definition ret {A} (a : A) : M A := fun h => Some (a, h).
Definition bind {A B} (m : M A) (k : A -> M B) : M B :=
  fun h => match m h with
           | Some (a, h') => k a h'
           | None => None
           end.
Definition get : M abitset_expandable_s := fun h => Some (h, h).
Definition put (h : abitset_expandable_s) : M unit := fun _ => Some (tt, h).
Definition lift {A} (o : option A) : M A :=
  fun h => match o with Some a => Some (a, h) | None => None end.

Notation "x <~ m ;; k" := (bind m (fun x => k))
  (at level 100, m at next level, right associativity).
Notation "m ;;; k" := (bind m (fun _ => k))
  (at level 100, right associativity).

Definition exec {A} (m : M A) (h : abitset_expandable_s) : option abitset_expandable_s :=
  match m h with Some (_, h') => Some h' | None => None end.
Definition eval {A} (m : M A) (h : abitset_expandable_s) : option A :=
  match m h with Some (a, _) => Some a | None => None end.

(** [for (uint32_t i = start; i < start + n; i++) acc = body(i, acc)] *)
Fixpoint for_loop {A} (n : nat) (i : Z) (body : Z -> A -> M A) (acc : A) : M A :=
  match n with
  | O => ret acc
  | S n' => acc' <~ body i acc ;; for_loop n' (i + 1) body acc'
  end.

(** ** Memory primitives *)

(** [aml_zalloc(PAGE_SIZE)]: a zero-filled page. *)
Definition zalloc_page : page := replicate (Z.to_nat (Z.shiftr PAGE_SIZE 3)) 0.

(** [memcpy(&dst[pos], src, n)] counted in array elements; it is undefined
    when either range leaves its block. *)
Definition memcpy {A} (dst : list A) (pos : nat) (src : list A) (n : nat)
  : option (list A) :=
  if ((pos + n <=? length dst) && (n <=? length src))%nat
  then Some (take pos dst ++ take n src ++ drop (pos + n) dst)
  else None.

(** [h->pages[i]] as an rvalue. *)
Definition read_page_ptr (i : Z) : M (option page) :=
  h <~ get ;; lift (pages h !! Z.to_nat i).

(** [h->pages[i] = p]. *)
Definition write_page_ptr (i : Z) (p : page) : M unit :=
  h <~ get ;;
  if (Z.to_nat i <? length (pages h))%nat
  then put (with_pages (<[Z.to_nat i := Some p]> (pages h)) h)
  else lift None.

(** [h->pages[i][j]] as an rvalue; dereferencing a null page is undefined. *)
Definition read_word (i j : Z) : M Z :=
  p <~ read_page_ptr i ;;
  match p with
  | Some pg => lift (pg !! Z.to_nat j)
  | None => lift None
  end.

(** [h->pages[i][j] = w]. *)
Definition write_word (i j w : Z) : M unit :=
  p <~ read_page_ptr i ;;
  match p with
  | Some pg =>
      if (Z.to_nat j <? length pg)%nat
      then write_page_ptr i (<[Z.to_nat j := w]> pg)
      else lift None
  | None => lift None
  end.

(** ** Operations of the source *)

Definition abitset_expandable_init : abitset_expandable_s :=
  {| pages := replicate (Z.to_nat INITIAL_PAGES) None;
     page_count := INITIAL_PAGES;
     size := 0;
     max_bit := 0 |}.

(** [while (required_page >= new_page_count) new_page_count <<= 1;]
    A 32-bit value shifted left 32 times is 0 and stays 0, so a loop that
    has not stopped within 33 rounds never stops: running out of fuel is
    exactly non-termination. *)
Fixpoint grow_page_count (fuel : nat) (required_page new_page_count : Z) : option Z :=
  match fuel with
  | O => None
  | S fuel' =>
      if required_page >=? new_page_count
      then grow_page_count fuel' required_page (u32 (Z.shiftl new_page_count 1))
      else Some new_page_count
  end.

(** The block of [expand] that enlarges the directory: a fresh zero-filled
    array of [new_page_count] pointers receives the old [page_count] ones. *)
Definition grow_directory (required_page : Z) : M unit :=
  h <~ get ;;
  if required_page >=? page_count h then
    new_page_count <~ lift (grow_page_count 33 required_page (page_count h)) ;;
    new_pages <~ lift (memcpy (replicate (Z.to_nat new_page_count) None) 0
                              (pages h) (Z.to_nat (page_count h))) ;;
    put (with_page_count new_page_count (with_pages new_pages h))
  else ret tt.

(** [if (!h->pages[page]) h->pages[page] = aml_zalloc(PAGE_SIZE);], the
    block shared by [expand] and [load]. *)
Definition alloc_page_if_null (page : Z) : M unit :=
  p <~ read_page_ptr page ;;
  match p with
  | None => write_page_ptr page zalloc_page
  | Some _ => ret tt
  end.

Definition abitset_expandable_expand (id : Z) : M unit :=
  let required_page := Z.shiftr id 18 in
  h <~ get ;;
  (if id >? max_bit h then put (with_max_bit id h) else ret tt) ;;;
  grow_directory required_page ;;;
  alloc_page_if_null required_page ;;;
  let new_size := u32 (Z.shiftl (required_page + 1) 18) in
  h <~ get ;;
  if new_size >? size h then put (with_size new_size h) else ret tt.

Definition abitset_expandable_set (id : Z) : M unit :=
  abitset_expandable_expand id ;;;
  let page := Z.shiftr id 18 in
  let offset := Z.land (Z.shiftr id 6) (PAGE_ENTRIES - 1) in
  let bit := Z.land id 63 in
  w <~ read_word page offset ;;
  write_word page offset (Z.lor w (Z.shiftl 1 bit)).

Definition abitset_expandable_unset (id : Z) : M unit :=
  abitset_expandable_expand id ;;;
  let page := Z.shiftr id 18 in
  let offset := Z.land (Z.shiftr id 6) (PAGE_ENTRIES - 1) in
  let bit := Z.land id 63 in
  w <~ read_word page offset ;;
  write_word page offset (Z.land w (u64 (Z.lnot (Z.shiftl 1 bit)))).

Definition abitset_expandable_enabled (id : Z) : M bool :=
  h <~ get ;;
  if id >=? max_bit h then ret false else
  let page := Z.shiftr id 18 in
  if page >=? page_count h then ret false else
  p <~ read_page_ptr page ;;
  match p with
  | None => ret false
  | Some _ =>
      let offset := Z.land (Z.shiftr id 6) (PAGE_ENTRIES - 1) in
      let bit := Z.land id 63 in
      w <~ read_word page offset ;;
      ret (negb (Z.land w (Z.shiftl 1 bit) =? 0))
  end.

(** [while (val) { val &= (val - 1); count++; }]  Every round clears the
    lowest set bit of a 64-bit value, so 64 rounds always suffice. *)
Fixpoint clear_lowest_bits (fuel : nat) (val count : Z) : Z :=
  match fuel with
  | O => count
  | S fuel' =>
      if val =? 0 then count
      else clear_lowest_bits fuel' (Z.land val (val - 1)) (u32 (count + 1))
  end.

Definition abitset_expandable_count : M Z :=
  h <~ get ;;
  for_loop (Z.to_nat (page_count h)) 0 (fun i count =>
    p <~ read_page_ptr i ;;
    match p with
    | None => ret count
    | Some _ =>
        for_loop (Z.to_nat PAGE_ENTRIES) 0 (fun j count =>
          val <~ read_word i j ;;
          ret (clear_lowest_bits 64 val count)) count
    end) 0.

Definition abitset_expandable_size : M Z :=
  h <~ get ;; ret (u32 (max_bit h + 1)).

(** One round of the page loop of [repr]: copy page [i], if allocated, to
    word [i << 9] of the output.  The copy length of the source is a byte
    count that is always a multiple of 8; the model copies the
    corresponding number of words. *)
Definition repr_copy_page (size i : Z) (repr : list Z) : M (list Z) :=
  p <~ read_page_ptr i ;;
  match p with
  | None => ret repr
  | Some pg =>
      let start_idx := u32 (Z.shiftl i 9) in
      let bits_remaining := u32 (size - u32 (Z.shiftl start_idx 6)) in
      let bytes_to_copy :=
        if bits_remaining >=? Z.shiftl PAGE_ENTRIES 6
        then PAGE_SIZE
        else u32 (Z.shiftl (Z.shiftr (u32 (bits_remaining + 63)) 6) 3) in
      lift (memcpy repr (Z.to_nat start_idx) pg (Z.to_nat (Z.shiftr bytes_to_copy 3)))
  end.

Definition abitset_expandable_repr : M (list Z) :=
  h <~ get ;;
  let size := u32 (max_bit h + 1) in
  let num_entries := Z.shiftr (u32 (size + 63)) 6 in
  for_loop (Z.to_nat (page_count h)) 0 (repr_copy_page size)
           (replicate (Z.to_nat num_entries) 0).

(** One round of the word loop of [load]: store input word [i], unless it
    is zero, into its page, allocating the page first if needed. *)
Definition load_entry (repr : list Z) (i : Z) : M unit :=
  value <~ lift (repr !! Z.to_nat i) ;;
  if value =? 0 then ret tt
  else
    let page := Z.shiftr i 9 in
    let offset := Z.land i (PAGE_ENTRIES - 1) in
    alloc_page_if_null page ;;;
    write_word page offset value.

Definition abitset_expandable_load (repr : list Z) (size : Z)
  : option abitset_expandable_s :=
  let num_entries := Z.shiftr (u32 (size + 63)) 6 in
  exec (abitset_expandable_expand (u32 (size - 1)) ;;;
        for_loop (Z.to_nat num_entries) 0 (fun i _ => load_entry repr i) tt ;;;
        h <~ get ;;
        put (with_max_bit (u32 (size - 1)) h))
       abitset_expandable_init.

(** ** Running sequences of mutations *)

Inductive op : Type :=
| OpSet (id : Z)
| OpUnset (id : Z).

Definition op_id (o : op) : Z :=
  match o with OpSet id | OpUnset id => id end.

Definition run_op (o : op) : M unit :=
  match o with
  | OpSet id => abitset_expandable_set id
  | OpUnset id => abitset_expandable_unset id
  end.

Fixpoint run_ops (os : list op) : M unit :=
  match os with
  | [] => ret tt
  | o :: os' => run_op o ;;; run_ops os'
  end.

(** ** Well-formed handles

    What every handle obtained from [init] by the operations satisfies: the
    fields are 32-bit values, the directory block has [page_count] entries
    and every allocated page has [PAGE_ENTRIES] words. *)

Definition is_u32 (x : Z) : Prop := 0 <= x < 2 ^ 32.

Definition page_ok (p : option page) : bool :=
  match p with
  | Some pg => (length pg =? Z.to_nat PAGE_ENTRIES)%nat
  | None => true
  end.

Definition wf (h : abitset_expandable_s) : Prop :=
  0 < page_count h < 2 ^ 32 /\
  Z.of_nat (length (pages h)) = page_count h /\
  is_u32 (size h) /\
  is_u32 (max_bit h) /\
  forallb page_ok (pages h) = true.

(** The page found at index [i] once [i] has been made addressable: the
    page already there, or a fresh zero page. *)
Definition page_after (h : abitset_expandable_s) (i : Z) : page :=
  match pages h !! Z.to_nat i with
  | Some (Some pg) => pg
  | _ => zalloc_page
  end.

(** The number of ids below [n] that [abitset_expandable_enabled] reports
    as set. *)
Definition enabled_below (n : Z) : M Z :=
  for_loop (Z.to_nat n) 0 (fun id k =>
    b <~ abitset_expandable_enabled id ;;
    ret (if b then k + 1 else k)) 0.

(** ** Auxiliary definitions of the proofs *)

(** The shape shared by [set] and [unset]: expand, then rewrite one word
    of the target page with [f]. *)
Definition update_word (f : Z -> Z) (id : Z) : M unit :=
  abitset_expandable_expand id ;;;
  (w <~ read_word (Z.shiftr id 18) (Z.land (Z.shiftr id 6) (PAGE_ENTRIES - 1)) ;;
   write_word (Z.shiftr id 18) (Z.land (Z.shiftr id 6) (PAGE_ENTRIES - 1)) (f w)).

(** The word a handle holds at [offset] of page [page]; 0 when the page is
    not allocated or the directory does not reach it. *)
Definition stored_word (h : abitset_expandable_s) (page offset : Z) : Z :=
  match pages h !! Z.to_nat page with
  | Some (Some pg) => default 0 (pg !! Z.to_nat offset)
  | _ => 0
  end.

(** Besides being well formed, a handle built by [set] and [unset] has a
    directory that reaches the page of [max_bit], and no page allocated
    beyond that one. *)
Definition reach_inv (h : abitset_expandable_s) : Prop :=
  wf h /\
  Z.shiftr (max_bit h) 18 < page_count h /\
  (forall k pg, pages h !! k = Some (Some pg) ->
                Z.of_nat k <= Z.shiftr (max_bit h) 18).

(** A handle reached from [init] by a few calls, used to instantiate the
    theorems below. *)
Definition sample_handle : abitset_expandable_s :=
  match exec (abitset_expandable_set 70 ;;;
              abitset_expandable_set 300000 ;;;
              abitset_expandable_unset 9) abitset_expandable_init with
  | Some h => h
  | None => abitset_expandable_init
  end.

(** The handle built by [set(h, 5)] and [set(h, 2^32 - 1)] on a fresh
    handle, written out. *)
Definition top_handle : abitset_expandable_s :=
  {| pages := Some (<[0%nat := 32]> zalloc_page)
                :: replicate (Z.to_nat 16382) None
                ++ [Some (<[511%nat := 2 ^ 63]> zalloc_page)];
     page_count := 16384;
     size := 262144;
     max_bit := 4294967295 |}.

(** ** Definitions used to state further properties *)

(** Whether ids [a] and [b] address the same stored bit: the page index,
    word offset and bit number computed by [set], [unset] and [enabled]
    all agree. *)
Definition same_bit (a b : Z) : bool :=
  (Z.shiftr a 18 =? Z.shiftr b 18) &&
  (Z.land (Z.shiftr a 6) (PAGE_ENTRIES - 1) =? Z.land (Z.shiftr b 6) (PAGE_ENTRIES - 1)) &&
  (Z.land a 63 =? Z.land b 63).

(** The number of 1 bits among the lowest [n] bits of [w]. *)
Fixpoint bits_set (n : nat) (w : Z) : Z :=
  match n with
  | O => 0
  | S n' => Z.b2z (Z.odd w) + bits_set n' (Z.div2 w)
  end.

Definition sumZ {A} (f : A -> Z) (l : list A) : Z :=
  foldr (fun x s => f x + s) 0 l.

(** The number of 1 bits stored in a page, and in all allocated pages. *)
Definition page_bits (p : option page) : Z :=
  match p with
  | Some pg => sumZ (bits_set 64) pg
  | None => 0
  end.

Definition total_bits (h : abitset_expandable_s) : Z := sumZ page_bits (pages h).

(** Every stored word is a 64-bit value. *)
Definition words_in_range (h : abitset_expandable_s) : Prop :=
  forall k pg j w, pages h !! k = Some (Some pg) -> pg !! j = Some w ->
                   0 <= w < 2 ^ 64.

(** Directory entry [k] holds a page. *)
Definition page_allocated (h : abitset_expandable_s) (k : nat) : Prop :=
  exists pg, pages h !! k = Some (Some pg).

(** The capacity invariant of handles built from a fresh one. *)
Definition capacity_inv (h : abitset_expandable_s) : Prop :=
  (exists e, 0 <= e <= 3 /\ page_count h = 2048 * 2 ^ e) /\
  (page_count h = 2048 \/ page_count h <= 2 * Z.shiftr (max_bit h) 18).

(** The stored bit an id addresses, and what one mutation makes of it. *)
Definition stored_bit (h : abitset_expandable_s) (c : Z) : bool :=
  Z.testbit (stored_word h (Z.shiftr c 18) (Z.land (Z.shiftr c 6) (PAGE_ENTRIES - 1)))
            (Z.land c 63).

Definition op_sets (o : op) : bool :=
  match o with OpSet _ => true | OpUnset _ => false end.

Definition op_bit (o : op) (c : Z) (x : bool) : bool :=
  if same_bit c (op_id o) then op_sets o else x.

(** * Proofs *)

(** Case analysis on every integer comparison [a <? b] of the goal. *)
Ltac split_ltb :=
  repeat match goal with
         | |- context [?a <? ?b] => destruct (Z.ltb_spec a b)
         end;
  try reflexivity; try lia.

(** Well-formedness of a concrete handle, by evaluation. *)
Ltac wf_by_evaluation :=
  unfold wf, is_u32; repeat split; vm_compute; congruence.

(** ** Arithmetic of the addressing *)

Lemma shiftr18_bound id : is_u32 id -> 0 <= Z.shiftr id 18 < 2 ^ 14.
Proof.
  intros [H0 H1]. rewrite Z.shiftr_div_pow2 by lia. split.
  - apply Z.div_pos; lia.
  - apply Z.div_lt_upper_bound; lia.
Qed.

Lemma shiftr18_mono a b : a <= b -> Z.shiftr a 18 <= Z.shiftr b 18.
Proof.
  intros H. rewrite !Z.shiftr_div_pow2 by lia. apply Z.div_le_mono; lia.
Qed.

Lemma offset_bound x : 0 <= Z.land x (PAGE_ENTRIES - 1) < 512.
Proof.
  change (PAGE_ENTRIES - 1) with (Z.ones 9). rewrite Z.land_ones by lia.
  apply Z.mod_pos_bound. lia.
Qed.

Lemma bit_bound x : 0 <= Z.land x 63 < 64.
Proof.
  change 63 with (Z.ones 6). rewrite Z.land_ones by lia.
  apply Z.mod_pos_bound. lia.
Qed.

Lemma u32_range x : is_u32 (u32 x).
Proof. unfold is_u32, u32. apply Z.mod_pos_bound. lia. Qed.

Lemma land_bit_testbit w b :
  0 <= b -> negb (Z.land w (Z.shiftl 1 b) =? 0) = Z.testbit w b.
Proof.
  intros Hb. rewrite Z.shiftl_1_l.
  destruct (Z.testbit w b) eqn:E.
  - apply negb_true_iff, Z.eqb_neq. intros H0.
    assert (Z.testbit (Z.land w (2 ^ b)) b = false) by (rewrite H0; apply Z.bits_0).
    rewrite Z.land_spec, E, Z.pow2_bits_true in H by lia. discriminate.
  - apply negb_false_iff, Z.eqb_eq. apply Z.bits_inj'. intros n Hn.
    rewrite Z.land_spec, Z.bits_0.
    destruct (Z.eq_dec n b) as [->|Hne].
    + rewrite E. reflexivity.
    + rewrite Z.pow2_bits_false by lia. apply andb_false_r.
Qed.

Lemma lor_bit_testbit w b : 0 <= b -> Z.testbit (Z.lor w (Z.shiftl 1 b)) b = true.
Proof.
  intros Hb. rewrite Z.lor_spec, Z.shiftl_1_l, Z.pow2_bits_true by assumption.
  apply orb_true_r.
Qed.

Lemma land_not_bit_testbit w b :
  0 <= b < 64 -> Z.testbit (Z.land w (u64 (Z.lnot (Z.shiftl 1 b)))) b = false.
Proof.
  intros Hb. rewrite Z.land_spec. unfold u64.
  rewrite Z.mod_pow2_bits_low by lia.
  rewrite Z.lnot_spec, Z.shiftl_1_l, Z.pow2_bits_true by lia.
  apply andb_false_r.
Qed.

(** ** Loops *)

Lemma for_loop_invariant {A} (P : Z -> A -> abitset_expandable_s -> Prop)
      (body : Z -> A -> M A) n i0 acc h :
  P i0 acc h ->
  (forall i a s, i0 <= i < i0 + Z.of_nat n -> P i a s ->
     exists a' s', body i a s = Some (a', s') /\ P (i + 1) a' s') ->
  exists a' s', for_loop n i0 body acc h = Some (a', s') /\ P (i0 + Z.of_nat n) a' s'.
Proof.
  revert i0 acc h. induction n as [|n IH]; intros i0 acc h H0 Hstep.
  - exists acc, h. rewrite Z.add_0_r. split; [reflexivity | exact H0].
  - destruct (Hstep i0 acc h ltac:(lia) H0) as (a1 & s1 & E1 & H1).
    destruct (IH (i0 + 1) a1 s1 H1) as (a' & s' & E' & H').
    { intros i a s Hi. apply Hstep. lia. }
    exists a', s'. cbn [for_loop]. unfold bind. rewrite E1. split; [exact E'|].
    replace (i0 + Z.of_nat (S n)) with (i0 + 1 + Z.of_nat n) by lia. exact H'.
Qed.

Lemma for_loop_app {A} (body : Z -> A -> M A) n1 n2 i acc h :
  for_loop (n1 + n2) i body acc h =
  match for_loop n1 i body acc h with
  | Some (acc', h') => for_loop n2 (i + Z.of_nat n1) body acc' h'
  | None => None
  end.
Proof.
  revert i acc h. induction n1 as [|n1 IH]; intros i acc h.
  - cbn [for_loop Nat.add]. unfold ret. rewrite Z.add_0_r. reflexivity.
  - cbn [for_loop Nat.add]. unfold bind.
    destruct (body i acc h) as [[a1 h1]|]; [|reflexivity].
    rewrite IH. replace (i + 1 + Z.of_nat n1) with (i + Z.of_nat (S n1)) by lia.
    reflexivity.
Qed.

(** ** Fuel *)

Lemma grow_page_count_zero fuel rp : 0 <= rp -> grow_page_count fuel rp 0 = None.
Proof.
  intros Hrp. induction fuel as [|fuel IH]; cbn [grow_page_count]; [reflexivity|].
  destruct (Z.geb_spec rp 0); [exact IH | lia].
Qed.

Lemma grow_page_count_split a b rp n :
  grow_page_count (a + b) rp n =
  match grow_page_count a rp n with
  | Some r => Some r
  | None => grow_page_count b rp (if Nat.eqb a 0 then n else u32 (n * 2 ^ Z.of_nat a))
  end.
Proof.
  revert n. induction a as [|a IH]; intros n; [reflexivity|].
  cbn [grow_page_count Nat.add Nat.eqb].
  destruct (rp >=? n); [|reflexivity].
  rewrite IH. destruct (grow_page_count a rp _); [reflexivity|].
  f_equal. destruct a as [|a]; cbn [Nat.eqb].
  - rewrite Z.shiftl_mul_pow2 by lia. reflexivity.
  - unfold u32. rewrite Z.shiftl_mul_pow2 by lia.
    rewrite Z.mul_mod_idemp_l by lia.
    rewrite (Nat2Z.inj_succ (S a)), Z.pow_succ_r by lia. f_equal. lia.
Qed.

(** More than 33 rounds of fuel never change the outcome of the doubling
    loop. *)
Lemma grow_page_count_fuel k rp n :
  0 <= rp ->
  grow_page_count (33 + k) rp n = grow_page_count 33 rp n.
Proof.
  intros Hrp. rewrite grow_page_count_split.
  destruct (grow_page_count 33 rp n); [reflexivity|].
  cbn [Nat.eqb]. replace (u32 (n * 2 ^ Z.of_nat 33)) with 0.
  - apply grow_page_count_zero. assumption.
  - unfold u32. change (2 ^ Z.of_nat 33) with (2 * 2 ^ 32).
    rewrite Z.mul_assoc, Z.mod_mul by lia. reflexivity.
Qed.

Lemma clear_step_bounds val :
  0 < val < 2 ^ 64 -> 0 <= Z.land val (val - 1) < 2 ^ 64.
Proof.
  intros Hv. assert (H0 : 0 <= Z.land val (val - 1)) by (apply Z.land_nonneg; lia).
  split; [assumption|].
  destruct (Z.eq_dec (Z.land val (val - 1)) 0) as [->|Hne]; [lia|].
  apply Z.log2_lt_pow2; [lia|].
  pose proof (Z.log2_land val (val - 1) ltac:(lia) ltac:(lia)).
  assert (Z.log2 val < 64) by (apply Z.log2_lt_pow2; lia). lia.
Qed.

Lemma clear_step_low_bits j val :
  0 <= j -> 0 < val -> val mod 2 ^ j = 0 ->
  Z.land val (val - 1) mod 2 ^ (j + 1) = 0.
Proof.
  intros Hj Hv Hm. rewrite <- Z.land_ones by lia.
  apply Z.bits_inj'. intros n Hn. rewrite !Z.land_spec, Z.bits_0.
  destruct (Z.lt_ge_cases n (j + 1)) as [Hlt|Hge].
  - rewrite Z.ones_spec_low by lia. rewrite andb_true_r.
    destruct (Z.eq_dec n j) as [->|Hne].
    + assert (Hp : 0 < 2 ^ j) by (apply Z.pow_pos_nonneg; lia).
      destruct (Z.testbit val j) eqn:E1; [|reflexivity]. cbn [andb].
      apply Z.testbit_true in E1; [|lia]. apply Z.testbit_false; [lia|].
      assert (Hd : (val - 1) / 2 ^ j = val / 2 ^ j - 1).
      { symmetry. apply (Z.div_unique _ _ _ (2 ^ j - 1)); [lia|].
        Z.div_mod_to_equations. lia. }
      rewrite Hd. Z.div_mod_to_equations. lia.
    + assert (Hb : Z.testbit val n = false).
      { rewrite <- (Z.mod_pow2_bits_low val j n) by lia. rewrite Hm. apply Z.bits_0. }
      rewrite Hb. reflexivity.
  - rewrite Z.ones_spec_high by lia. apply andb_false_r.
Qed.

Lemma clear_lowest_bits_zero fuel c : clear_lowest_bits fuel 0 c = c.
Proof. destruct fuel; reflexivity. Qed.

Lemma clear_lowest_bits_extra fuel extra j val c :
  0 <= j -> 0 <= val < 2 ^ 64 -> val mod 2 ^ j = 0 -> 64 <= j + Z.of_nat fuel ->
  clear_lowest_bits (fuel + extra) val c = clear_lowest_bits fuel val c.
Proof.
  revert j val c. induction fuel as [|fuel IH]; intros j val c Hj Hv Hm Hf.
  - assert (val = 0) as ->.
    { assert (H64 : val mod 2 ^ 64 = 0).
      { replace j with (64 + (j - 64)) in Hm by lia.
        rewrite Z.pow_add_r in Hm by lia.
        assert (0 < 2 ^ (j - 64)) by (apply Z.pow_pos_nonneg; lia).
        rewrite Z.rem_mul_r in Hm by lia.
        pose proof (Z.mod_pos_bound val (2 ^ 64) ltac:(lia)).
        pose proof (Z.mod_pos_bound (val / 2 ^ 64) (2 ^ (j - 64)) ltac:(lia)).
        nia. }
      rewrite Z.mod_small in H64 by lia. exact H64. }
    cbn [Nat.add clear_lowest_bits]. apply clear_lowest_bits_zero.
  - cbn [Nat.add clear_lowest_bits]. destruct (Z.eqb_spec val 0); [reflexivity|].
    apply (IH (j + 1)); try lia.
    + apply clear_step_bounds. lia.
    + apply clear_step_low_bits; lia.
Qed.

(** More than 64 rounds of fuel never change the bit count of a 64-bit
    word. *)
Lemma clear_lowest_bits_fuel k val c :
  0 <= val < 2 ^ 64 ->
  clear_lowest_bits (64 + k) val c = clear_lowest_bits 64 val c.
Proof.
  intros Hv. apply (clear_lowest_bits_extra 64 k 0); try lia.
  apply Z.mod_1_r.
Qed.

(** ** The directory *)

Lemma grow_page_count_ok fuel rp n :
  0 < n -> 0 <= rp < 2 ^ 14 -> rp < n * 2 ^ Z.of_nat fuel ->
  exists n', grow_page_count (S fuel) rp n = Some n' /\
             n <= n' /\ rp < n' /\ (n' <= n \/ n' <= 2 * rp).
Proof.
  revert n. induction fuel as [|fuel IH]; intros n Hn Hrp Hlt;
    cbn [grow_page_count].
  - change (2 ^ Z.of_nat 0) with 1 in Hlt. destruct (Z.geb_spec rp n); [lia|].
    exists n. split; [reflexivity | lia].
  - destruct (Z.geb_spec rp n) as [Hge|Hlt'].
    + assert (Hu : u32 (Z.shiftl n 1) = 2 * n).
      { unfold u32. rewrite Z.shiftl_mul_pow2 by lia. rewrite Z.mod_small; lia. }
      rewrite Hu. destruct (IH (2 * n)) as (n' & He & H1 & H2 & H3); try lia.
      { rewrite Nat2Z.inj_succ, Z.pow_succ_r in Hlt by lia. lia. }
      exists n'. cbn [grow_page_count] in He. rewrite He. repeat split; lia.
    + exists n. split; [reflexivity | lia].
Qed.

Lemma memcpy_grow {A} (l : list A) (x : A) (n : nat) :
  (length l <= n)%nat ->
  memcpy (replicate n x) 0 l (length l) = Some (l ++ replicate (n - length l) x).
Proof.
  intros Hn. unfold memcpy. rewrite length_replicate.
  rewrite (proj2 (Nat.leb_le _ _)) by lia. rewrite Nat.leb_refl. cbn [andb].
  rewrite take_0, firstn_all, drop_replicate. reflexivity.
Qed.

Lemma memcpy_lookup {A} (dst src : list A) pos n :
  (pos + n <= length dst)%nat -> (n <= length src)%nat ->
  exists r, memcpy dst pos src n = Some r /\
            length r = length dst /\
            forall j, r !! j =
                      if (j <? pos)%nat then dst !! j
                      else if (j <? pos + n)%nat then src !! (j - pos)%nat
                           else dst !! j.
Proof.
  intros Hd Hs. unfold memcpy.
  rewrite (proj2 (Nat.leb_le _ _) Hd), (proj2 (Nat.leb_le _ _) Hs). cbn [andb].
  eexists. split; [reflexivity|]. split.
  - rewrite !length_app, !length_take, length_drop. lia.
  - intros j. destruct (Nat.ltb_spec j pos) as [H1|H1].
    + rewrite lookup_app_l by (rewrite length_take; lia).
      apply lookup_take_lt. assumption.
    + rewrite lookup_app_r by (rewrite length_take; lia).
      rewrite length_take_le by lia.
      destruct (Nat.ltb_spec j (pos + n)) as [H2|H2].
      * rewrite lookup_app_l by (rewrite length_take; lia).
        apply lookup_take_lt. lia.
      * rewrite lookup_app_r by (rewrite length_take; lia).
        rewrite length_take_le by lia. rewrite lookup_drop. f_equal. lia.
Qed.

Lemma handle_eta h :
  {| pages := pages h; page_count := page_count h;
     size := size h; max_bit := max_bit h |} = h.
Proof. destruct h; reflexivity. Qed.

Lemma grow_directory_spec h rp :
  0 < page_count h < 2 ^ 32 ->
  Z.of_nat (length (pages h)) = page_count h ->
  0 <= rp < 2 ^ 14 ->
  exists n',
    grow_directory rp h =
      Some (tt, with_page_count n'
                  (with_pages (pages h ++ replicate (Z.to_nat (n' - page_count h)) None) h)) /\
    page_count h <= n' < 2 ^ 32 /\ rp < n' /\
    (rp < page_count h -> n' = page_count h).
Proof.
  intros Hpc Hlen Hrp. unfold grow_directory, bind, get.
  destruct (Z.geb_spec rp (page_count h)) as [Hge|Hlt].
  - destruct (grow_page_count_ok 32 rp (page_count h)) as (n' & He & H1 & H2 & H3);
      try lia.
    exists n'. rewrite He. cbn [lift].
    replace (Z.to_nat (page_count h)) with (length (pages h)) by lia.
    rewrite memcpy_grow by lia. unfold put.
    replace (Z.to_nat n' - length (pages h))%nat with (Z.to_nat (n' - page_count h)) by lia.
    split; [reflexivity | lia].
  - exists (page_count h). rewrite Z.sub_diag. cbn [Z.to_nat replicate].
    rewrite app_nil_r. unfold ret, with_page_count, with_pages. cbn.
    rewrite handle_eta. split; [reflexivity | lia].
Qed.

Lemma alloc_page_if_null_spec h i :
  0 <= i < Z.of_nat (length (pages h)) ->
  alloc_page_if_null i h =
    Some (tt, with_pages (<[Z.to_nat i := Some (page_after h i)]> (pages h)) h).
Proof.
  intros Hi. unfold alloc_page_if_null, read_page_ptr, page_after, bind, get.
  destruct (lookup_lt_is_Some_2 (pages h) (Z.to_nat i)) as [p Hp]; [lia|].
  rewrite Hp. cbn [lift]. destruct p as [pg|].
  - rewrite list_insert_id by assumption. unfold ret, with_pages.
    rewrite handle_eta. reflexivity.
  - unfold write_page_ptr, bind, get.
    rewrite (proj2 (Nat.ltb_lt _ _)) by lia. reflexivity.
Qed.

Lemma pages_ok_lookup (l : list (option page)) :
  forallb page_ok l = true <->
  (forall i p, l !! i = Some p -> page_ok p = true).
Proof.
  rewrite forallb_forall. split.
  - intros H i p Hi. apply H. apply list_elem_of_In.
    apply list_elem_of_lookup. eauto.
  - intros H p Hp. apply list_elem_of_In, list_elem_of_lookup in Hp.
    destruct Hp as [i Hi]. eauto.
Qed.

Lemma page_after_ok h i :
  forallb page_ok (pages h) = true -> page_ok (Some (page_after h i)) = true.
Proof.
  intros H. unfold page_after.
  destruct (pages h !! Z.to_nat i) as [[pg|]|] eqn:E; try reflexivity.
  apply (proj1 (pages_ok_lookup _) H _ _ E).
Qed.

Lemma pages_ok_grow l n :
  forallb page_ok l = true -> forallb page_ok (l ++ replicate n None) = true.
Proof.
  intros H. rewrite forallb_app, H. cbn [andb].
  induction n; [reflexivity | assumption].
Qed.

Lemma pages_ok_insert l i p :
  forallb page_ok l = true -> page_ok p = true ->
  forallb page_ok (<[i := p]> l) = true.
Proof.
  intros Hl Hp. apply pages_ok_lookup. intros j q Hj.
  destruct (decide (i = j)) as [->|Hne].
  - destruct (decide (j < length l)%nat).
    + rewrite list_lookup_insert_eq in Hj by assumption. congruence.
    + rewrite list_insert_ge in Hj by lia.
      apply (proj1 (pages_ok_lookup _) Hl _ _ Hj).
  - rewrite list_lookup_insert_ne in Hj by assumption.
    apply (proj1 (pages_ok_lookup _) Hl _ _ Hj).
Qed.

(** ** [expand] *)

Lemma expand_spec h id :
  wf h -> is_u32 id ->
  exists h', abitset_expandable_expand id h = Some (tt, h') /\
    wf h' /\
    max_bit h' = Z.max (max_bit h) id /\
    page_count h <= page_count h' /\
    Z.shiftr id 18 < page_count h' /\
    (Z.shiftr id 18 < page_count h -> page_count h' = page_count h) /\
    pages h' = <[Z.to_nat (Z.shiftr id 18) := Some (page_after h (Z.shiftr id 18))]>
                 (pages h ++ replicate (Z.to_nat (page_count h' - page_count h)) None) /\
    size h' = Z.max (size h) (u32 (Z.shiftl (Z.shiftr id 18 + 1) 18)).
Proof.
  intros (Hpc & Hlen & Hsz & Hmb & Hpg) Hid.
  pose proof (shiftr18_bound id Hid) as Hrp.
  unfold abitset_expandable_expand.
  set (rp := Z.shiftr id 18) in *.
  set (ns := u32 (Z.shiftl (rp + 1) 18)).
  pose proof (u32_range (Z.shiftl (rp + 1) 18)) as Hns. fold ns in Hns.
  set (h1 := with_max_bit (Z.max (max_bit h) id) h).
  assert (E1 : (if id >? max_bit h then put (with_max_bit id h) else ret tt) h
               = Some (tt, h1)).
  { subst h1. destruct (Z.gtb_spec id (max_bit h)).
    - rewrite Z.max_r by lia. reflexivity.
    - rewrite Z.max_l by lia. unfold ret, with_max_bit. rewrite handle_eta.
      reflexivity. }
  destruct (grow_directory_spec h1 rp) as (n' & E2 & Hn' & Hrpn & Hsame);
    try assumption.
  change (page_count h1) with (page_count h) in *.
  change (pages h1) with (pages h) in *.
  set (h2 := with_page_count n'
               (with_pages (pages h ++ replicate (Z.to_nat (n' - page_count h)) None) h1))
    in *.
  assert (Hlen2 : Z.of_nat (length (pages h2)) = n').
  { subst h2. cbn. rewrite length_app, length_replicate. lia. }
  pose proof (alloc_page_if_null_spec h2 rp ltac:(lia)) as E3.
  set (h3 := with_pages (<[Z.to_nat rp := Some (page_after h2 rp)]> (pages h2)) h2) in *.
  assert (Hpa : page_after h2 rp = page_after h rp).
  { unfold page_after. subst h2 h1. cbn.
    destruct (decide (Z.to_nat rp < length (pages h))%nat).
    - rewrite lookup_app_l by assumption. reflexivity.
    - rewrite lookup_app_r by lia. rewrite (lookup_ge_None_2 (pages h)) by lia.
      destruct (replicate _ _ !! _) as [o|] eqn:E; [|reflexivity].
      apply lookup_replicate in E. destruct E as [-> _]. reflexivity. }
  exists (with_size (Z.max (size h) ns) h3).
  split.
  { unfold bind at 1. unfold get at 1. unfold bind at 1. rewrite E1.
    unfold bind at 1. rewrite E2. unfold bind at 1. rewrite E3.
    unfold bind, get.
    change (size h3) with (size h).
    destruct (Z.gtb_spec ns (size h)).
    - rewrite Z.max_r by lia. reflexivity.
    - rewrite Z.max_l by lia. unfold ret, with_size.
      change (size h) with (size h3). rewrite handle_eta. reflexivity. }
  split.
  { unfold wf, is_u32 in *. cbn [pages page_count size max_bit with_size h3 h2 h1
                                    with_pages with_page_count with_max_bit].
    rewrite length_insert, length_app, length_replicate.
    split; [lia|]. split; [lia|]. split; [lia|]. split; [lia|].
    apply pages_ok_insert.
    - apply pages_ok_grow. assumption.
    - rewrite Hpa. apply page_after_ok. assumption. }
  cbn. rewrite Hpa. repeat split; lia.
Qed.

(** ** Word access *)

Lemma read_word_spec h i j pg w :
  pages h !! Z.to_nat i = Some (Some pg) -> pg !! Z.to_nat j = Some w ->
  read_word i j h = Some (w, h).
Proof.
  intros Hi Hj. unfold read_word, read_page_ptr, bind, get.
  rewrite Hi. cbn [lift]. rewrite Hj. reflexivity.
Qed.

Lemma write_word_spec h i j pg w :
  pages h !! Z.to_nat i = Some (Some pg) -> (Z.to_nat j < length pg)%nat ->
  write_word i j w h =
    Some (tt, with_pages (<[Z.to_nat i := Some (<[Z.to_nat j := w]> pg)]> (pages h)) h).
Proof.
  intros Hi Hj. unfold write_word, read_page_ptr, bind, get.
  rewrite Hi. cbn [lift]. rewrite (proj2 (Nat.ltb_lt _ _)) by assumption.
  unfold write_page_ptr, bind, get.
  apply lookup_lt_Some in Hi. rewrite (proj2 (Nat.ltb_lt _ _)) by assumption.
  reflexivity.
Qed.

Lemma zalloc_page_length : length zalloc_page = 512%nat.
Proof. reflexivity. Qed.

Lemma zalloc_page_lookup o : default 0 (zalloc_page !! o) = 0.
Proof.
  destruct (zalloc_page !! o) as [w|] eqn:E; [|reflexivity].
  apply lookup_replicate in E. destruct E as [-> _]. reflexivity.
Qed.

Lemma zero_page_clear_bit j m : <[j := Z.land 0 m]> zalloc_page = zalloc_page.
Proof.
  rewrite Z.land_0_l. destruct (decide (j < length zalloc_page)%nat).
  - apply list_insert_id. apply lookup_replicate_2.
    rewrite zalloc_page_length in *. assumption.
  - apply list_insert_ge. lia.
Qed.

Lemma page_after_length h i :
  forallb page_ok (pages h) = true -> length (page_after h i) = 512%nat.
Proof.
  intros H. pose proof (page_after_ok h i H) as Hok. cbn [page_ok] in Hok.
  apply Nat.eqb_eq in Hok. exact Hok.
Qed.

(** ** [set] and [unset] as one word update *)

Lemma set_is_update id :
  abitset_expandable_set id =
  update_word (fun w => Z.lor w (Z.shiftl 1 (Z.land id 63))) id.
Proof. reflexivity. Qed.

Lemma unset_is_update id :
  abitset_expandable_unset id =
  update_word (fun w => Z.land w (u64 (Z.lnot (Z.shiftl 1 (Z.land id 63))))) id.
Proof. reflexivity. Qed.

Lemma update_word_spec f h id :
  wf h -> is_u32 id ->
  exists h1 w,
    abitset_expandable_expand id h = Some (tt, h1) /\
    page_after h (Z.shiftr id 18)
      !! Z.to_nat (Z.land (Z.shiftr id 6) (PAGE_ENTRIES - 1)) = Some w /\
    update_word f id h =
      Some (tt, with_pages
                  (<[Z.to_nat (Z.shiftr id 18) :=
                       Some (<[Z.to_nat (Z.land (Z.shiftr id 6) (PAGE_ENTRIES - 1)) := f w]>
                               (page_after h (Z.shiftr id 18)))]> (pages h1)) h1).
Proof.
  intros Hwf Hid. pose proof Hwf as (_ & _ & _ & _ & Hpg).
  destruct (expand_spec h id Hwf Hid)
    as (h1 & E & Hwf1 & Hmb & Hpc & Hrp & Hsame & Hpages & Hsize).
  pose proof (shiftr18_bound id Hid) as Hrpb.
  pose proof (offset_bound (Z.shiftr id 6)) as Hoff.
  set (rp := Z.shiftr id 18) in *.
  set (off := Z.land (Z.shiftr id 6) (PAGE_ENTRIES - 1)) in *.
  pose proof (page_after_length h rp Hpg) as Hlen.
  destruct (lookup_lt_is_Some_2 (page_after h rp) (Z.to_nat off)) as [w Hw]; [lia|].
  assert (Hl1 : pages h1 !! Z.to_nat rp = Some (Some (page_after h rp))).
  { rewrite Hpages. apply list_lookup_insert_eq.
    rewrite length_app, length_replicate.
    destruct Hwf as (? & Hl & _). lia. }
  exists h1, w. split; [exact E|]. split; [exact Hw|].
  unfold update_word. fold rp off. unfold bind at 1. rewrite E.
  unfold bind at 1. rewrite (read_word_spec h1 rp off _ w Hl1 Hw).
  apply write_word_spec; [exact Hl1 | lia].
Qed.

Lemma update_word_wf f h id h' :
  wf h -> is_u32 id -> update_word f id h = Some (tt, h') -> wf h'.
Proof.
  intros Hwf Hid E. pose proof Hwf as (_ & _ & _ & _ & Hpg).
  destruct (update_word_spec f h id Hwf Hid) as (h1 & w & E1 & Hw & E2).
  destruct (expand_spec h id Hwf Hid) as (h1' & E1' & Hwf1 & _).
  assert (h1' = h1) as -> by congruence.
  rewrite E2 in E. apply Some_inj, pair_equal_spec in E. destruct E as [_ <-].
  destruct Hwf1 as (H1 & H2 & H3 & H4 & H5).
  unfold wf. cbn [pages page_count size max_bit with_pages].
  rewrite length_insert. repeat (split; [assumption|]).
  apply pages_ok_insert; [assumption|].
  cbn [page_ok]. rewrite length_insert, (page_after_length h _ Hpg). reflexivity.
Qed.

(** ** Mutations keep handles well formed and raise [max_bit] *)

Lemma wf_init : wf abitset_expandable_init.
Proof. wf_by_evaluation. Qed.

Lemma update_word_effect f h id :
  wf h -> is_u32 id ->
  exists he h' w,
    abitset_expandable_expand id h = Some (tt, he) /\
    update_word f id h = Some (tt, h') /\
    wf he /\ wf h' /\
    page_after h (Z.shiftr id 18)
      !! Z.to_nat (Z.land (Z.shiftr id 6) (PAGE_ENTRIES - 1)) = Some w /\
    h' = with_pages
           (<[Z.to_nat (Z.shiftr id 18) :=
                Some (<[Z.to_nat (Z.land (Z.shiftr id 6) (PAGE_ENTRIES - 1)) := f w]>
                        (page_after h (Z.shiftr id 18)))]> (pages he)) he /\
    max_bit he = Z.max (max_bit h) id /\
    page_count h <= page_count he /\
    Z.shiftr id 18 < page_count he /\
    (Z.shiftr id 18 < page_count h -> page_count he = page_count h) /\
    pages he !! Z.to_nat (Z.shiftr id 18) = Some (Some (page_after h (Z.shiftr id 18))).
Proof.
  intros Hwf Hid.
  destruct (update_word_spec f h id Hwf Hid) as (he & w & E1 & Hw & E2).
  destruct (expand_spec h id Hwf Hid)
    as (he' & E1' & Hwfe & Hmb & Hpc & Hrp & Hsame & Hpages & _).
  assert (he' = he) as -> by congruence.
  pose proof (update_word_wf f h id _ Hwf Hid E2) as Hwf'.
  eexists he, _, w. repeat (split; [eassumption || reflexivity|]).
  rewrite Hpages. apply list_lookup_insert_eq.
  rewrite length_app, length_replicate.
  pose proof (shiftr18_bound id Hid). destruct Hwf as (? & ? & _). lia.
Qed.

Lemma run_op_effect h o :
  wf h -> is_u32 (op_id o) ->
  exists h', run_op o h = Some (tt, h') /\ wf h' /\
             max_bit h' = Z.max (max_bit h) (op_id o).
Proof.
  intros Hwf Hid. destruct o as [id|id]; cbn [run_op op_id] in *.
  - rewrite set_is_update.
    destruct (update_word_effect (fun w => Z.lor w (Z.shiftl 1 (Z.land id 63))) h id Hwf Hid)
      as (he & h' & w & _ & E & _ & Hwf' & _ & -> & Hmb & _).
    eexists. split; [exact E|]. split; [exact Hwf'|exact Hmb].
  - rewrite unset_is_update.
    destruct (update_word_effect
                (fun w => Z.land w (u64 (Z.lnot (Z.shiftl 1 (Z.land id 63))))) h id Hwf Hid)
      as (he & h' & w & _ & E & _ & Hwf' & _ & -> & Hmb & _).
    eexists. split; [exact E|]. split; [exact Hwf'|exact Hmb].
Qed.

Lemma run_ops_app os1 os2 h :
  run_ops (os1 ++ os2) h =
  match run_ops os1 h with
  | Some (_, h1) => run_ops os2 h1
  | None => None
  end.
Proof.
  revert h. induction os1 as [|o os1 IH]; intros h; cbn [run_ops app].
  - reflexivity.
  - unfold bind. destruct (run_op o h) as [[[] h1]|]; [apply IH | reflexivity].
Qed.

Lemma run_ops_effect os h :
  wf h -> Forall (fun o => is_u32 (op_id o)) os ->
  exists h', run_ops os h = Some (tt, h') /\ wf h' /\ max_bit h <= max_bit h'.
Proof.
  intros Hwf Hos. revert h Hwf.
  induction Hos as [|o os Ho Hos IH]; intros h Hwf; cbn [run_ops].
  - exists h. split; [reflexivity|]. split; [assumption | lia].
  - destruct (run_op_effect h o Hwf Ho) as (h1 & E1 & Hwf1 & Hmb).
    destruct (IH h1 Hwf1) as (h' & E' & Hwf' & Hle).
    exists h'. unfold bind. rewrite E1. split; [exact E'|]. split; [assumption | lia].
Qed.

(** ** Stored words *)

Lemma enabled_total h id :
  wf h -> is_u32 id ->
  abitset_expandable_enabled id h =
    Some (if id >=? max_bit h then false
          else if Z.shiftr id 18 >=? page_count h then false
          else match pages h !! Z.to_nat (Z.shiftr id 18) with
               | Some (Some pg) =>
                   match pg !! Z.to_nat (Z.land (Z.shiftr id 6) (PAGE_ENTRIES - 1)) with
                   | Some w => Z.testbit w (Z.land id 63)
                   | None => false
                   end
               | _ => false
               end, h).
Proof.
  intros (Hpc & Hlen & _ & Hmb & Hpg) Hid.
  unfold abitset_expandable_enabled, bind at 1, get at 1.
  destruct (Z.geb_spec id (max_bit h)) as [Hge|Hlt]; [reflexivity|].
  destruct (Z.geb_spec (Z.shiftr id 18) (page_count h)) as [Hge'|Hlt']; [reflexivity|].
  assert (Hrp : 0 <= Z.shiftr id 18).
  { apply Z.shiftr_nonneg. unfold is_u32 in Hid. lia. }
  destruct (lookup_lt_is_Some_2 (pages h) (Z.to_nat (Z.shiftr id 18))) as [p Hp]; [lia|].
  unfold bind at 1, read_page_ptr at 1, bind at 1, get at 1. rewrite Hp. cbn [lift].
  destruct p as [pg|]; [|reflexivity].
  pose proof (proj1 (pages_ok_lookup _) Hpg _ _ Hp) as Hok. cbn [page_ok] in Hok.
  apply Nat.eqb_eq in Hok.
  pose proof (offset_bound (Z.shiftr id 6)) as Hoff.
  destruct (lookup_lt_is_Some_2 pg (Z.to_nat (Z.land (Z.shiftr id 6) (PAGE_ENTRIES - 1))))
    as [w Hw].
  { rewrite Hok. change (Z.to_nat PAGE_ENTRIES) with (Z.to_nat 512). lia. }
  unfold bind. rewrite (read_word_spec h _ _ pg w Hp Hw), Hw.
  unfold ret. rewrite land_bit_testbit by apply bit_bound. reflexivity.
Qed.

Lemma enabled_stored_word h id :
  wf h -> is_u32 id ->
  abitset_expandable_enabled id h =
    Some (if id >=? max_bit h then false
          else if Z.shiftr id 18 >=? page_count h then false
          else Z.testbit (stored_word h (Z.shiftr id 18)
                                        (Z.land (Z.shiftr id 6) (PAGE_ENTRIES - 1)))
                         (Z.land id 63), h).
Proof.
  intros Hwf Hid. rewrite enabled_total by assumption. unfold stored_word.
  destruct (id >=? max_bit h); [reflexivity|].
  destruct (Z.shiftr id 18 >=? page_count h); [reflexivity|].
  destruct (pages h !! Z.to_nat (Z.shiftr id 18)) as [[pg|]|];
    try (rewrite Z.bits_0; reflexivity).
  destruct (pg !! _); cbn [default]; [reflexivity|].
  rewrite Z.bits_0. reflexivity.
Qed.

Lemma stored_word_null h i o :
  pages h !! Z.to_nat i = Some None \/ pages h !! Z.to_nat i = None ->
  stored_word h i o = 0.
Proof. intros [H|H]; unfold stored_word; rewrite H; reflexivity. Qed.

Lemma stored_word_page_after s p o :
  default 0 (page_after s p !! Z.to_nat o) = stored_word s p o.
Proof.
  unfold page_after, stored_word.
  destruct (pages s !! Z.to_nat p) as [[pg|]|]; try reflexivity;
    apply zalloc_page_lookup.
Qed.

(** ** What a query sees right after a mutation of the same id *)

Lemma enabled_after_update f h id :
  wf h -> is_u32 id ->
  exists h' w,
    update_word f id h = Some (tt, h') /\
    page_after h (Z.shiftr id 18)
      !! Z.to_nat (Z.land (Z.shiftr id 6) (PAGE_ENTRIES - 1)) = Some w /\
    abitset_expandable_enabled id h' =
      Some (if id >=? Z.max (max_bit h) id then false
            else Z.testbit (f w) (Z.land id 63), h').
Proof.
  intros Hwf Hid.
  destruct (update_word_effect f h id Hwf Hid)
    as (he & h' & w & _ & E & Hwfe & Hwf' & Hw & Hh' & Hmb & _ & Hrp & _ & Hl).
  exists h', w. split; [exact E|]. split; [exact Hw|].
  rewrite enabled_stored_word by assumption.
  assert (Hmb' : max_bit h' = Z.max (max_bit h) id) by (rewrite Hh'; exact Hmb).
  assert (Hpc' : page_count h' = page_count he) by (rewrite Hh'; reflexivity).
  rewrite Hmb', Hpc'.
  destruct (id >=? Z.max (max_bit h) id); [reflexivity|].
  destruct (Z.geb_spec (Z.shiftr id 18) (page_count he)); [lia|].
  unfold stored_word. rewrite Hh' at 1. cbn [pages with_pages].
  apply lookup_lt_Some in Hl. rewrite list_lookup_insert_eq by assumption.
  apply lookup_lt_Some in Hw. rewrite list_lookup_insert_eq by assumption.
  reflexivity.
Qed.

(** X2.  On a well-formed handle, a query for [a] right after
    [set(h, a)] answers true exactly when [a] is below the [max_bit] the
    handle had before the call: the bit is stored, but an id that is the
    new [max_bit] is rejected by the query's [id >= max_bit] test. *)
Lemma enabled_after_set h a :
  wf h -> is_u32 a ->
  eval (abitset_expandable_set a ;;; abitset_expandable_enabled a) h =
    Some (a <? max_bit h).
Proof.
  intros Hwf Ha. rewrite set_is_update.
  destruct (enabled_after_update (fun w => Z.lor w (Z.shiftl 1 (Z.land a 63))) h a Hwf Ha)
    as (h' & w & E & _ & Een).
  unfold eval, bind. rewrite E, Een.
  rewrite lor_bit_testbit by apply bit_bound.
  destruct (Z.geb_spec a (Z.max (max_bit h) a)); destruct (Z.ltb_spec a (max_bit h));
    try reflexivity; lia.
Qed.

(** X3.  On a well-formed handle, a query for [a] right after
    [unset(h, a)] answers false, whatever the handle held before. *)
Lemma enabled_after_unset h a :
  wf h -> is_u32 a ->
  eval (abitset_expandable_unset a ;;; abitset_expandable_enabled a) h = Some false.
Proof.
  intros Hwf Ha. rewrite unset_is_update.
  destruct (enabled_after_update
              (fun w => Z.land w (u64 (Z.lnot (Z.shiftl 1 (Z.land a 63))))) h a Hwf Ha)
    as (h' & w & E & _ & Een).
  unfold eval, bind. rewrite E, Een.
  rewrite land_not_bit_testbit by apply bit_bound.
  destruct (a >=? Z.max (max_bit h) a); reflexivity.
Qed.

(** ** Handles reachable from [init] *)

Lemma reach_inv_init : reach_inv abitset_expandable_init.
Proof.
  split; [exact wf_init|]. split; [vm_compute; reflexivity|].
  intros k pg Hk. exfalso. unfold abitset_expandable_init in Hk. cbn [pages] in Hk.
  apply lookup_replicate in Hk. destruct Hk as [Hk _]. discriminate.
Qed.

Lemma reach_inv_run_op h o h' :
  reach_inv h -> is_u32 (op_id o) -> run_op o h = Some (tt, h') -> reach_inv h'.
Proof.
  intros (Hwf & Hdir & Halloc) Hid E.
  assert (exists f, run_op o = update_word f (op_id o)) as [f Ef].
  { destruct o; eexists; cbn [run_op op_id];
      [apply set_is_update | apply unset_is_update]. }
  rewrite Ef in E.
  destruct (update_word_effect f h (op_id o) Hwf Hid)
    as (he & h2 & w & Ee & E2 & Hwfe & Hwf2 & Hw & Hh2 & Hmb & Hpc & Hrp & _ & Hl).
  rewrite E2 in E. apply Some_inj, pair_equal_spec in E. destruct E as [_ <-].
  destruct (expand_spec h (op_id o) Hwf Hid)
    as (he' & Ee' & _ & _ & _ & _ & _ & Hpages & _).
  assert (he' = he) as -> by congruence.
  set (id := op_id o) in *.
  assert (Hmb2 : max_bit h2 = Z.max (max_bit h) id) by (rewrite Hh2; exact Hmb).
  assert (Hpc2 : page_count h2 = page_count he) by (rewrite Hh2; reflexivity).
  split; [exact Hwf2|]. split.
  - rewrite Hmb2, Hpc2. destruct (Z.max_spec (max_bit h) id) as [[_ ->]|[_ ->]]; lia.
  - intros k pg Hk. rewrite Hmb2.
    assert (Hm1 : Z.shiftr (max_bit h) 18 <= Z.shiftr (Z.max (max_bit h) id) 18)
      by (apply shiftr18_mono; lia).
    assert (Hm2 : Z.shiftr id 18 <= Z.shiftr (Z.max (max_bit h) id) 18)
      by (apply shiftr18_mono; lia).
    pose proof (shiftr18_bound id Hid) as Hb.
    rewrite Hh2 in Hk. cbn [pages with_pages] in Hk.
    destruct (decide (k = Z.to_nat (Z.shiftr id 18))) as [->|Hne]; [lia|].
    rewrite list_lookup_insert_ne in Hk by congruence.
    rewrite Hpages in Hk. rewrite list_lookup_insert_ne in Hk by congruence.
    destruct (decide (k < length (pages h))%nat).
    + rewrite lookup_app_l in Hk by assumption. apply Halloc in Hk. lia.
    + rewrite lookup_app_r in Hk by lia. apply lookup_replicate in Hk.
      destruct Hk as [Hk _]. discriminate.
Qed.

Lemma reach_inv_run_ops os h h' :
  reach_inv h -> Forall (fun o => is_u32 (op_id o)) os ->
  run_ops os h = Some (tt, h') -> reach_inv h'.
Proof.
  intros Hinv Hos. revert h Hinv.
  induction Hos as [|o os Ho Hos IH]; intros h Hinv E; cbn [run_ops] in E.
  - unfold ret in E. apply Some_inj, pair_equal_spec in E. destruct E as [_ <-].
    exact Hinv.
  - unfold bind in E. destruct (run_op o h) as [[[] h1]|] eqn:E1; [|discriminate].
    apply (IH h1); [|exact E]. apply (reach_inv_run_op h o); assumption.
Qed.

(** ** [repr] below the top of the id range *)

Lemma repr_copy_arith mb i :
  0 <= mb < 2 ^ 32 - 64 -> 0 <= i -> i * 2 ^ 18 <= mb ->
  u32 (mb + 1) = mb + 1 /\
  Z.shiftr (u32 (u32 (mb + 1) + 63)) 6 = (mb + 64) / 64 /\
  u32 (Z.shiftl i 9) = i * 512 /\
  Z.shiftr
    (if u32 (u32 (mb + 1) - u32 (Z.shiftl (u32 (Z.shiftl i 9)) 6))
        >=? Z.shiftl PAGE_ENTRIES 6
     then PAGE_SIZE
     else u32 (Z.shiftl
                 (Z.shiftr
                    (u32 (u32 (u32 (mb + 1) - u32 (Z.shiftl (u32 (Z.shiftl i 9)) 6)) + 63))
                    6) 3)) 3
  = Z.min 512 ((mb + 64) / 64 - i * 512) /\
  0 < (mb + 64) / 64 - i * 512.
Proof.
  intros Hmb Hi Him.
  change (Z.shiftl PAGE_ENTRIES 6) with 32768. change PAGE_SIZE with 4096.
  assert (E1 : u32 (mb + 1) = mb + 1) by (unfold u32; apply Z.mod_small; lia).
  assert (E2 : u32 (Z.shiftl i 9) = i * 512).
  { unfold u32. rewrite Z.shiftl_mul_pow2 by lia. apply Z.mod_small. lia. }
  assert (E3 : u32 (Z.shiftl (i * 512) 6) = i * 32768).
  { unfold u32. rewrite Z.shiftl_mul_pow2 by lia. rewrite Z.mod_small; lia. }
  assert (E4 : u32 (mb + 1 - i * 32768) = mb + 1 - i * 32768)
    by (unfold u32; apply Z.mod_small; lia).
  rewrite E1, E2, E3, E4.
  assert (E5 : u32 (mb + 1 + 63) = mb + 64) by (unfold u32; rewrite Z.mod_small; lia).
  rewrite E5. rewrite !Z.shiftr_div_pow2 by lia. change (2 ^ 6) with 64.
  split; [reflexivity|]. split; [reflexivity|]. split; [reflexivity|].
  destruct (Z.geb_spec (mb + 1 - i * 32768) 32768) as [Hge|Hlt].
  - change (4096 / 2 ^ 3) with 512. split; [|Z.div_mod_to_equations; lia].
    rewrite Z.min_l; [reflexivity|]. Z.div_mod_to_equations. lia.
  - assert (E6 : u32 (mb + 1 - i * 32768 + 63) = mb + 64 - i * 32768)
      by (unfold u32; rewrite Z.mod_small; lia).
    rewrite E6. rewrite Z.shiftl_mul_pow2 by lia.
    assert (E7 : (mb + 64 - i * 32768) / 64 = (mb + 64) / 64 - i * 512)
      by (Z.div_mod_to_equations; lia).
    rewrite E7. unfold u32. rewrite Z.mod_small by (Z.div_mod_to_equations; lia).
    rewrite Z.div_mul by lia.
    split; [|Z.div_mod_to_equations; lia].
    rewrite Z.min_r; [reflexivity|]. Z.div_mod_to_equations. lia.
Qed.

Lemma repr_copy_page_step h i r :
  reach_inv h -> max_bit h < 2 ^ 32 - 64 ->
  0 <= i < page_count h ->
  Z.of_nat (length r) = (max_bit h + 64) / 64 ->
  (forall j, 0 <= j < (max_bit h + 64) / 64 ->
     r !! Z.to_nat j =
       Some (if j / 512 <? i then stored_word h (j / 512) (j mod 512) else 0)) ->
  exists r',
    repr_copy_page (u32 (max_bit h + 1)) i r h = Some (r', h) /\
    Z.of_nat (length r') = (max_bit h + 64) / 64 /\
    (forall j, 0 <= j < (max_bit h + 64) / 64 ->
       r' !! Z.to_nat j =
         Some (if j / 512 <? i + 1 then stored_word h (j / 512) (j mod 512) else 0)).
Proof.
  intros (Hwf & Hdir & Halloc) Htop Hi Hlen Hr.
  destruct Hwf as (Hpc & Hl & _ & [Hmb0 _] & Hok).
  unfold repr_copy_page, read_page_ptr, bind, get.
  destruct (lookup_lt_is_Some_2 (pages h) (Z.to_nat i)) as [p Hp]; [lia|].
  rewrite Hp. cbn [lift]. destruct p as [pg|].
  - pose proof (Halloc _ _ Hp) as Hle. rewrite Z2Nat.id in Hle by lia.
    assert (Him : i * 2 ^ 18 <= max_bit h).
    { rewrite Z.shiftr_div_pow2 in Hle by lia. Z.div_mod_to_equations. lia. }
    destruct (repr_copy_arith (max_bit h) i ltac:(lia) ltac:(lia) Him)
      as (_ & _ & Es & Ec & Hpos).
    rewrite Ec, Es.
    pose proof (proj1 (pages_ok_lookup _) Hok _ _ Hp) as Hpl. cbn [page_ok] in Hpl.
    apply Nat.eqb_eq in Hpl. change (Z.to_nat PAGE_ENTRIES) with (Z.to_nat 512) in Hpl.
    set (N := (max_bit h + 64) / 64) in *.
    set (c := Z.min 512 (N - i * 512)) in *.
    destruct (memcpy_lookup r pg (Z.to_nat (i * 512)) (Z.to_nat c))
      as (r' & E & Hlen' & Hlook); [lia | lia |].
    rewrite E. exists r'. split; [reflexivity|]. split; [lia|].
    intros j Hj. rewrite Hlook.
    assert (Hdm : j = 512 * (j / 512) + j mod 512) by (apply Z.div_mod; lia).
    pose proof (Z.mod_pos_bound j 512 ltac:(lia)) as Hm.
    destruct (Nat.ltb_spec (Z.to_nat j) (Z.to_nat (i * 512))) as [H1|H1].
    + rewrite Hr by assumption.
      split_ltb.
    + destruct (Nat.ltb_spec (Z.to_nat j) (Z.to_nat (i * 512) + Z.to_nat c)) as [H2|H2].
      * assert (Hq : j / 512 = i) by lia.
        destruct (Z.ltb_spec (j / 512) (i + 1)); [|lia].
        rewrite Hq. unfold stored_word. rewrite Hp.
        replace (Z.to_nat j - Z.to_nat (i * 512))%nat with (Z.to_nat (j mod 512)) by lia.
        destruct (lookup_lt_is_Some_2 pg (Z.to_nat (j mod 512))) as [w Hw]; [lia|].
        rewrite Hw. reflexivity.
      * rewrite Hr by assumption.
        split_ltb.
  - exists r. split; [reflexivity|]. split; [assumption|].
    intros j Hj. rewrite Hr by assumption.
    destruct (Z.ltb_spec (j / 512) i); destruct (Z.ltb_spec (j / 512) (i + 1));
      try reflexivity; try lia.
    assert (j / 512 = i) as -> by lia.
    rewrite stored_word_null by (left; assumption). reflexivity.
Qed.

Lemma repr_spec h :
  reach_inv h -> max_bit h < 2 ^ 32 - 64 ->
  exists r,
    abitset_expandable_repr h = Some (r, h) /\
    Z.of_nat (length r) = (max_bit h + 64) / 64 /\
    (forall j, 0 <= j < (max_bit h + 64) / 64 ->
       r !! Z.to_nat j = Some (stored_word h (j / 512) (j mod 512))).
Proof.
  intros Hinv Htop. pose proof Hinv as (Hwf & Hdir & Halloc).
  pose proof Hwf as (Hpc & Hl & _ & [Hmb0 _] & Hok).
  unfold abitset_expandable_repr, bind, get.
  destruct (repr_copy_arith (max_bit h) 0 ltac:(lia) ltac:(lia) ltac:(lia))
    as (_ & EN & _).
  rewrite EN. set (N := (max_bit h + 64) / 64).
  assert (HN : 0 <= N) by (subst N; Z.div_mod_to_equations; lia).
  destruct (for_loop_invariant
              (fun i (r : list Z) s =>
                 s = h /\ Z.of_nat (length r) = N /\
                 forall j, 0 <= j < N ->
                   r !! Z.to_nat j =
                     Some (if j / 512 <? i
                           then stored_word h (j / 512) (j mod 512) else 0))
              (repr_copy_page (u32 (max_bit h + 1)))
              (Z.to_nat (page_count h)) 0 (replicate (Z.to_nat N) 0) h)
    as (r & s & E & -> & Hlen & Hr).
  - split; [reflexivity|]. split; [rewrite length_replicate; lia|].
    intros j Hj. rewrite lookup_replicate_2 by lia.
    destruct (Z.ltb_spec (j / 512) 0); [|reflexivity].
    Z.div_mod_to_equations. lia.
  - intros i a s Hi (-> & Hlen & Hr).
    destruct (repr_copy_page_step h i a Hinv Htop ltac:(lia) Hlen Hr)
      as (r' & E & Hlen' & Hr').
    exists r', h. split; [exact E|]. split; [reflexivity|]. split; assumption.
  - exists r. split; [exact E|]. split; [exact Hlen|].
    intros j Hj. rewrite Hr by assumption.
    destruct (Z.ltb_spec (j / 512) (0 + Z.of_nat (Z.to_nat (page_count h))));
      [reflexivity|].
    rewrite stored_word_null; [reflexivity|]. right.
    apply lookup_ge_None_2. assert (0 <= j / 512) by (Z.div_mod_to_equations; lia).
    lia.
Qed.

(** ** [load] *)

Lemma load_entry_zero r i s :
  r !! Z.to_nat i = Some 0 -> load_entry r i s = Some (tt, s).
Proof. intros H. unfold load_entry, bind. rewrite H. reflexivity. Qed.

Lemma load_entry_nonzero r i v s :
  wf s -> 0 <= i -> i / 512 < page_count s ->
  r !! Z.to_nat i = Some v -> v <> 0 ->
  exists s',
    load_entry r i s = Some (tt, s') /\
    wf s' /\ page_count s' = page_count s /\ max_bit s' = max_bit s /\
    forall p o, 0 <= p -> 0 <= o ->
      stored_word s' p o =
        if (p =? i / 512) && (o =? i mod 512) then v else stored_word s p o.
Proof.
  intros Hwf Hi Hpage Hv Hnz. pose proof Hwf as (Hpc & Hl & Hsz & Hmb & Hok).
  assert (Hq : 0 <= i / 512) by (Z.div_mod_to_equations; lia).
  pose proof (Z.mod_pos_bound i 512 ltac:(lia)) as Hm.
  unfold load_entry, bind at 1. rewrite Hv. cbn [lift].
  rewrite (proj2 (Z.eqb_neq v 0) Hnz).
  rewrite Z.shiftr_div_pow2 by lia. change (2 ^ 9) with 512.
  change (PAGE_ENTRIES - 1) with (Z.ones 9). rewrite Z.land_ones by lia.
  change (2 ^ 9) with 512.
  unfold bind. rewrite alloc_page_if_null_spec by lia.
  set (s1 := with_pages (<[Z.to_nat (i / 512) := Some (page_after s (i / 512))]> (pages s)) s).
  assert (Hl1 : pages s1 !! Z.to_nat (i / 512) = Some (Some (page_after s (i / 512)))).
  { subst s1. cbn [pages with_pages]. apply list_lookup_insert_eq. lia. }
  pose proof (page_after_length s (i / 512) Hok) as Hlen.
  rewrite (write_word_spec s1 _ _ _ v Hl1) by lia.
  eexists. split; [reflexivity|]. split; [|split; [reflexivity|split; [reflexivity|]]].
  - unfold wf. subst s1. cbn [pages page_count size max_bit with_pages].
    rewrite !length_insert. repeat (split; [assumption|]).
    apply pages_ok_insert; [apply pages_ok_insert; [assumption|]|].
    + apply page_after_ok. assumption.
    + cbn [page_ok]. rewrite length_insert, Hlen. reflexivity.
  - intros p o Hp Ho. unfold stored_word at 1. subst s1.
    cbn [pages with_pages].
    destruct (Z.eqb_spec p (i / 512)) as [->|Hne]; cbn [andb].
    + rewrite list_lookup_insert_eq by (rewrite length_insert; lia).
      destruct (Z.eqb_spec o (i mod 512)) as [->|Hne'].
      * rewrite list_lookup_insert_eq by lia. reflexivity.
      * rewrite list_lookup_insert_ne by lia. apply stored_word_page_after.
    + rewrite !list_lookup_insert_ne by lia. reflexivity.
Qed.

Lemma expand_init_stored_word id h0 :
  is_u32 id ->
  abitset_expandable_expand id abitset_expandable_init = Some (tt, h0) ->
  forall p o, stored_word h0 p o = 0.
Proof.
  intros Hid E p o.
  destruct (expand_spec _ id wf_init Hid) as (h0' & E' & _ & _ & _ & _ & _ & Hpages & _).
  assert (h0' = h0) as -> by congruence.
  assert (Hpa : page_after abitset_expandable_init (Z.shiftr id 18) = zalloc_page).
  { unfold page_after, abitset_expandable_init. cbn [pages].
    destruct (replicate _ _ !! _) as [q|] eqn:Eq; [|reflexivity].
    apply lookup_replicate in Eq. destruct Eq as [-> _]. reflexivity. }
  unfold stored_word. rewrite Hpages, Hpa.
  destruct (decide (Z.to_nat (Z.shiftr id 18) = Z.to_nat p)) as [Heq|Hne].
  - rewrite Heq.
    destruct (<[_ := _]> _ !! _) as [[pg|]|] eqn:El; try reflexivity.
    apply list_lookup_insert_Some in El.
    destruct El as [(_ & Hpg & _)|(Hc & _)]; [|congruence].
    injection Hpg as <-. apply zalloc_page_lookup.
  - rewrite list_lookup_insert_ne by assumption.
    unfold abitset_expandable_init. cbn [pages].
    destruct (_ !! Z.to_nat p) as [[pg|]|] eqn:El; try reflexivity.
    exfalso. apply lookup_app_Some in El.
    destruct El as [El|[_ El]]; apply lookup_replicate in El;
      destruct El as [El _]; discriminate.
Qed.

Lemma load_spec r mb :
  0 <= mb < 2 ^ 32 - 64 ->
  Z.of_nat (length r) = (mb + 64) / 64 ->
  (forall j v, 0 <= j -> r !! Z.to_nat j = Some v -> v <> 0 ->
               j / 512 <= Z.shiftr mb 18) ->
  exists h',
    abitset_expandable_load r (mb + 1) = Some h' /\
    wf h' /\ max_bit h' = mb /\ Z.shiftr mb 18 < page_count h' /\
    forall j, 0 <= j ->
      stored_word h' (j / 512) (j mod 512) = default 0 (r !! Z.to_nat j).
Proof.
  intros Hmb Hlen Hnz.
  assert (Hid : is_u32 mb) by (unfold is_u32; lia).
  destruct (repr_copy_arith mb 0 ltac:(lia) ltac:(lia) ltac:(lia)) as (E1 & EN & _).
  rewrite E1 in EN.
  unfold abitset_expandable_load. rewrite EN.
  replace (u32 (mb + 1 - 1)) with mb
    by (unfold u32; rewrite Z.mod_small; lia).
  set (N := (mb + 64) / 64) in *.
  destruct (expand_spec _ mb wf_init Hid)
    as (h0 & E0 & Hwf0 & _ & _ & Hrp & _ & _ & _).
  pose proof (expand_init_stored_word mb h0 Hid E0) as Hzero.
  destruct (for_loop_invariant
              (fun i (_ : unit) s =>
                 wf s /\ page_count s = page_count h0 /\
                 forall j, 0 <= j ->
                   stored_word s (j / 512) (j mod 512) =
                     if j <? i then default 0 (r !! Z.to_nat j) else 0)
              (fun i _ => load_entry r i) (Z.to_nat N) 0 tt h0)
    as ([] & s & E & Hwfs & Hpcs & Hs).
  - split; [assumption|]. split; [reflexivity|]. intros j Hj.
    rewrite Hzero. destruct (Z.ltb_spec j 0); [lia | reflexivity].
  - intros i [] s Hi (Hwfs & Hpcs & Hs).
    destruct (lookup_lt_is_Some_2 r (Z.to_nat i)) as [v Hv]; [lia|].
    destruct (Z.eq_dec v 0) as [->|Hv0].
    + exists tt, s. split; [apply load_entry_zero; assumption|].
      split; [assumption|]. split; [assumption|]. intros j Hj.
      rewrite Hs by assumption.
      destruct (Z.ltb_spec j i); destruct (Z.ltb_spec j (i + 1));
        try reflexivity; try lia.
      assert (j = i) as -> by lia. rewrite Hv. reflexivity.
    + pose proof (Hnz i v ltac:(lia) Hv Hv0) as Hpage.
      destruct (load_entry_nonzero r i v s Hwfs ltac:(lia) ltac:(lia) Hv Hv0)
        as (s' & E' & Hwf' & Hpc' & _ & Hs').
      exists tt, s'. split; [exact E'|]. split; [assumption|].
      split; [congruence|]. intros j Hj.
      assert (0 <= j / 512) by (Z.div_mod_to_equations; lia).
      pose proof (Z.mod_pos_bound j 512 ltac:(lia)).
      rewrite Hs' by lia. rewrite Hs by assumption.
      destruct (Z.eqb_spec (j / 512) (i / 512)) as [Hq|Hq];
        destruct (Z.eqb_spec (j mod 512) (i mod 512)) as [Hr|Hr]; cbn [andb].
      * assert (j = i) as -> by (Z.div_mod_to_equations; lia).
        rewrite Hv. destruct (Z.ltb_spec i (i + 1)); [reflexivity | lia].
      * assert (j <> i) by congruence.
        split_ltb.
      * assert (j <> i) by congruence.
        split_ltb.
      * assert (j <> i) by congruence.
        split_ltb.
  - exists (with_max_bit mb s). split.
    { unfold exec, bind. rewrite E0, E. reflexivity. }
    destruct Hwfs as (H1 & H2 & H3 & _ & H5).
    split.
    { unfold wf, is_u32 in *. cbn [pages page_count size max_bit with_max_bit].
      repeat (split; [assumption || lia|]). assumption. }
    split; [reflexivity|]. split; [cbn [page_count with_max_bit]; lia|].
    intros j Hj. change (stored_word (with_max_bit mb s)) with (stored_word s).
    rewrite Hs by assumption.
    destruct (Z.ltb_spec j (0 + Z.of_nat (Z.to_nat N))); [reflexivity|].
    rewrite lookup_ge_None_2 by lia. reflexivity.
Qed.

(** ** The round trip below the top 64 ids *)

(** X18.  For every handle built from a fresh one by 32-bit [set] and
    [unset] calls whose [max_bit] stays below [2^32 - 64], [repr] is
    defined, [load] of its result with the logical size is defined, and the
    loaded handle answers every query as the original does. *)
Theorem roundtrip_below_top os h :
  Forall (fun o => is_u32 (op_id o)) os ->
  run_ops os abitset_expandable_init = Some (tt, h) ->
  max_bit h < 2 ^ 32 - 64 ->
  exists r n h',
    abitset_expandable_repr h = Some (r, h) /\
    abitset_expandable_size h = Some (n, h) /\
    abitset_expandable_load r n = Some h' /\
    forall id, is_u32 id ->
      exists b, abitset_expandable_enabled id h = Some (b, h) /\
                abitset_expandable_enabled id h' = Some (b, h').
Proof.
  intros Hos Hrun Htop.
  pose proof (reach_inv_run_ops os _ h reach_inv_init Hos Hrun) as Hinv.
  pose proof Hinv as (Hwf & Hdir & Halloc).
  pose proof Hwf as (Hpc & Hl & _ & [Hmb0 _] & Hok).
  destruct (repr_spec h Hinv Htop) as (r & Er & Hlen & Hr).
  destruct (repr_copy_arith (max_bit h) 0 ltac:(lia) ltac:(lia) ltac:(lia))
    as (E1 & _).
  destruct (load_spec r (max_bit h) ltac:(lia) Hlen) as (h' & El & Hwf' & Hmb' & Hpc' & Hs').
  { intros j v Hj Hv Hv0.
    destruct (decide (j < (max_bit h + 64) / 64)) as [Hlt|Hge].
    - rewrite Hr in Hv by lia. injection Hv as <-.
      unfold stored_word in Hv0.
      destruct (pages h !! Z.to_nat (j / 512)) as [[pg|]|] eqn:Ep; try congruence.
      apply Halloc in Ep.
      assert (0 <= j / 512) by (Z.div_mod_to_equations; lia). lia.
    - rewrite lookup_ge_None_2 in Hv by lia. discriminate. }
  exists r, (max_bit h + 1), h'. split; [exact Er|]. split.
  { unfold abitset_expandable_size, bind, get, ret. rewrite E1. reflexivity. }
  split; [exact El|].
  intros id Hid. eexists. split; [apply enabled_stored_word; assumption|].
  rewrite enabled_stored_word by assumption. rewrite Hmb'.
  destruct (Z.geb_spec id (max_bit h)) as [Hge|Hlt]; [reflexivity|].
  assert (Hpage : Z.shiftr id 18 <= Z.shiftr (max_bit h) 18)
    by (apply shiftr18_mono; lia).
  destruct (Z.geb_spec (Z.shiftr id 18) (page_count h)); [lia|].
  destruct (Z.geb_spec (Z.shiftr id 18) (page_count h')); [lia|].
  pose proof (offset_bound (Z.shiftr id 6)) as Hoff.
  pose proof (shiftr18_bound id Hid) as Hrp.
  set (p := Z.shiftr id 18) in *.
  set (o := Z.land (Z.shiftr id 6) (PAGE_ENTRIES - 1)) in *.
  assert (Hj : 0 <= 512 * p + o < (max_bit h + 64) / 64).
  { subst p o. change (PAGE_ENTRIES - 1) with (Z.ones 9).
    rewrite Z.land_ones by lia. rewrite !Z.shiftr_div_pow2 by lia.
    destruct Hid as [Hid0 _]. Z.div_mod_to_equations. lia. }
  assert (Hq : (512 * p + o) / 512 = p) by (Z.div_mod_to_equations; lia).
  assert (Hm : (512 * p + o) mod 512 = o) by (Z.div_mod_to_equations; lia).
  pose proof (Hs' (512 * p + o) ltac:(lia)) as H1.
  pose proof (Hr (512 * p + o) Hj) as H2.
  rewrite Hq, Hm in H1, H2. rewrite H1, H2. reflexivity.
Qed.

Lemma roundtrip_below_top_witness :
  Forall (fun o => is_u32 (op_id o)) [OpSet 70; OpSet 300000; OpUnset 9] /\
  run_ops [OpSet 70; OpSet 300000; OpUnset 9] abitset_expandable_init
    = Some (tt, sample_handle) /\
  max_bit sample_handle < 2 ^ 32 - 64 /\
  exists r n h',
    abitset_expandable_repr sample_handle = Some (r, sample_handle) /\
    abitset_expandable_size sample_handle = Some (n, sample_handle) /\
    abitset_expandable_load r n = Some h' /\
    forall id, is_u32 id ->
      exists b, abitset_expandable_enabled id sample_handle = Some (b, sample_handle) /\
                abitset_expandable_enabled id h' = Some (b, h').
Proof.
  assert (Hos : Forall (fun o => is_u32 (op_id o)) [OpSet 70; OpSet 300000; OpUnset 9])
    by (repeat constructor; vm_compute; congruence).
  assert (Hrun : run_ops [OpSet 70; OpSet 300000; OpUnset 9] abitset_expandable_init
                 = Some (tt, sample_handle)) by (vm_compute; reflexivity).
  assert (Htop : max_bit sample_handle < 2 ^ 32 - 64) by (vm_compute; reflexivity).
  split; [exact Hos|]. split; [exact Hrun|]. split; [exact Htop|].
  exact (roundtrip_below_top _ _ Hos Hrun Htop).
Defined.

(** ** The [size] field below the last page *)

(** X24.  On a well-formed handle, for every 32-bit id whose page index
    [id >> 18] is below 16383, [expand] returns and leaves [size] equal to
    the larger of its old value and the exact product
    [(page_index + 1) * 2^18]. *)
Lemma expand_size_exact h id :
  wf h -> is_u32 id -> Z.shiftr id 18 < 16383 ->
  exists h', abitset_expandable_expand id h = Some (tt, h') /\
             size h' = Z.max (size h) ((Z.shiftr id 18 + 1) * 2 ^ 18).
Proof.
  intros Hwf Hid Hlt.
  destruct (expand_spec h id Hwf Hid) as (h' & E & _ & _ & _ & _ & _ & _ & Hsz).
  exists h'. split; [exact E|]. rewrite Hsz.
  pose proof (shiftr18_bound id Hid) as Hrp.
  unfold u32. rewrite Z.shiftl_mul_pow2 by lia. rewrite Z.mod_small by lia.
  reflexivity.
Qed.

Lemma expand_size_exact_witness :
  wf sample_handle /\ is_u32 5000000 /\ Z.shiftr 5000000 18 < 16383 /\
  exists h', abitset_expandable_expand 5000000 sample_handle = Some (tt, h') /\
             size h' = Z.max (size sample_handle) ((Z.shiftr 5000000 18 + 1) * 2 ^ 18).
Proof.
  assert (Hwf : wf sample_handle) by wf_by_evaluation.
  assert (Hid : is_u32 5000000) by (unfold is_u32; lia).
  assert (Hp : Z.shiftr 5000000 18 < 16383) by (vm_compute; reflexivity).
  split; [exact Hwf|]. split; [exact Hid|]. split; [exact Hp|].
  exact (expand_size_exact sample_handle 5000000 Hwf Hid Hp).
Defined.


(** ** [repr] at the top of the id range *)

Lemma top_handle_built :
  exec (abitset_expandable_set 5 ;;; abitset_expandable_set 4294967295)
       abitset_expandable_init = Some top_handle.
Proof. vm_compute. reflexivity. Qed.

Lemma top_handle_null_entries (k : nat) :
  1 <= Z.of_nat k < 16383 -> pages top_handle !! k = Some None.
Proof.
  intros Hk. destruct k as [|k]; [lia|].
  unfold top_handle. cbn [pages]. rewrite lookup_cons.
  rewrite lookup_app_l by (rewrite length_replicate; lia).
  apply lookup_replicate_2. lia.
Qed.

Lemma repr_top_handle_undefined :
  abitset_expandable_repr top_handle = None.
Proof.
  unfold abitset_expandable_repr, bind, get.
  change (u32 (max_bit top_handle + 1)) with 0.
  change (Z.shiftr (u32 (0 + 63)) 6) with 0.
  change (Z.to_nat (page_count top_handle)) with (Z.to_nat 16383 + 1)%nat.
  change (replicate (Z.to_nat 0) 0) with (@nil Z).
  rewrite for_loop_app.
  destruct (for_loop_invariant
              (fun _ (r : list Z) s => r = [] /\ s = top_handle)
              (repr_copy_page 0) (Z.to_nat 16383) 0 [] top_handle)
    as (r & s & E & -> & ->).
  - split; reflexivity.
  - intros i a s Hi [-> ->]. exists [], top_handle. split; [|split; reflexivity].
    destruct (decide (i = 0)) as [->|Hne]; [vm_compute; reflexivity|].
    unfold repr_copy_page, read_page_ptr, bind, get.
    rewrite top_handle_null_entries by lia. reflexivity.
  - rewrite E. vm_compute. reflexivity.
Qed.

(** * The claims *)

(** C1, first half, at a failing input: on a fresh handle [set(h, 5)]
    followed by [test(h, 5)] answers false, because 5 is now [max_bit] and
    the query rejects every [id >= max_bit]; the same holds for id 0.  The
    bit is stored: once a larger id raises [max_bit] the same query answers
    true. *)
Theorem set_then_enabled_at_max_bit :
  eval (abitset_expandable_set 5 ;;; abitset_expandable_enabled 5)
       abitset_expandable_init = Some false /\
  eval (abitset_expandable_set 0 ;;; abitset_expandable_enabled 0)
       abitset_expandable_init = Some false /\
  eval (abitset_expandable_set 5 ;;; abitset_expandable_set 6 ;;;
        abitset_expandable_enabled 5)
       abitset_expandable_init = Some true.
Proof. repeat split; vm_compute; reflexivity. Qed.

(** C2 at a failing input: with id 40000 set, [test(h, 0)] is false; after
    [set(h, 32768)] it is true, although id 0 was never set.  Ids 0 and
    32768 share page index [id >> 18 = 0], word offset 0 and bit 0. *)
Theorem set_32768_sets_id_0 :
  eval (abitset_expandable_set 40000 ;;;
        before <~ abitset_expandable_enabled 0 ;;
        abitset_expandable_set 32768 ;;;
        after <~ abitset_expandable_enabled 0 ;;
        ret (before, after))
       abitset_expandable_init = Some (false, true).
Proof. vm_compute; reflexivity. Qed.

(** C3 at a failing input: for id 32768 the claimed page index
    [32768 >> 15] is 1, but [set] addresses page [32768 >> 18 = 0]: on a
    fresh handle it leaves directory entry 1 null and stores the bit in
    word 0 of page 0. *)
Theorem set_32768_uses_page_0 :
  Z.shiftr 32768 15 = 1 /\
  eval (abitset_expandable_set 32768 ;;;
        entry1 <~ read_page_ptr 1 ;;
        word <~ read_word 0 0 ;;
        ret (entry1, word))
       abitset_expandable_init = Some (None, 1).
Proof. split; vm_compute; reflexivity. Qed.

(** C4 at a failing input: the handle built by [set(h, 5)] and
    [set(h, 2^32 - 1)] answers true for id 5 and has logical size 0.  Its
    [repr] allocates no words and then copies page 16383 past the end of
    that block, which is undefined; and whatever array stands for the
    result, [load] with bit count 0 reads none of it and returns a handle
    that answers false for id 5. *)
Theorem roundtrip_fails_at_top_id :
  exec (abitset_expandable_set 5 ;;; abitset_expandable_set 4294967295)
       abitset_expandable_init = Some top_handle /\
  eval (abitset_expandable_enabled 5) top_handle = Some true /\
  eval abitset_expandable_size top_handle = Some 0 /\
  abitset_expandable_repr top_handle = None /\
  forall r,
    match abitset_expandable_load r 0 with
    | Some h' => eval (abitset_expandable_enabled 5) h'
    | None => None
    end = Some false.
Proof.
  split; [exact top_handle_built|].
  split; [vm_compute; reflexivity|].
  split; [vm_compute; reflexivity|].
  split; [exact repr_top_handle_undefined|].
  intros r. vm_compute. reflexivity.
Qed.

(** C5 at a failing input: after [set(h, 5)] on a fresh handle [count] is
    1 and the logical size is 6, yet no id in [0, 6) tests true. *)
Theorem count_differs_from_enabled_ids :
  eval (abitset_expandable_set 5 ;;;
        c <~ abitset_expandable_count ;;
        n <~ abitset_expandable_size ;;
        k <~ enabled_below n ;;
        ret (c, n, k))
       abitset_expandable_init = Some (1, 6, 0).
Proof. vm_compute; reflexivity. Qed.

(** C6. On every well-formed handle and every 32-bit id,
    [abitset_expandable_enabled] returns and leaves the handle exactly as it
    found it (no page allocated, no field changed).  Its answer is false
    when [id >= max_bit], when the page index [id >> 18] is at or beyond
    [page_count], and when the directory entry for that page is null; in
    the remaining case the page and the addressed word exist and the answer
    is bit [id & 63] of that word. *)
Theorem enabled_reads_gated_bit h id :
  wf h -> is_u32 id ->
  exists b,
    abitset_expandable_enabled id h = Some (b, h) /\
    (id >= max_bit h -> b = false) /\
    (Z.shiftr id 18 >= page_count h -> b = false) /\
    (pages h !! Z.to_nat (Z.shiftr id 18) = Some None -> b = false) /\
    (id < max_bit h -> Z.shiftr id 18 < page_count h ->
     pages h !! Z.to_nat (Z.shiftr id 18) <> Some None ->
     exists pg w,
       pages h !! Z.to_nat (Z.shiftr id 18) = Some (Some pg) /\
       pg !! Z.to_nat (Z.land (Z.shiftr id 6) (PAGE_ENTRIES - 1)) = Some w /\
       b = Z.testbit w (Z.land id 63)).
Proof.
  intros Hwf Hid. eexists. split; [apply enabled_total; assumption|].
  destruct Hwf as (Hpc & Hlen & _ & _ & Hpg).
  pose proof (shiftr18_bound id Hid) as Hrp.
  split; [|split; [|split]].
  - intros H. destruct (Z.geb_spec id (max_bit h)); [reflexivity | lia].
  - intros H. destruct (id >=? max_bit h); [reflexivity|].
    destruct (Z.geb_spec (Z.shiftr id 18) (page_count h)); [reflexivity | lia].
  - intros H. rewrite H.
    destruct (id >=? max_bit h); [reflexivity|].
    destruct (Z.shiftr id 18 >=? page_count h); reflexivity.
  - intros H1 H2 H3.
    destruct (Z.geb_spec id (max_bit h)); [lia|].
    destruct (Z.geb_spec (Z.shiftr id 18) (page_count h)); [lia|].
    destruct (lookup_lt_is_Some_2 (pages h) (Z.to_nat (Z.shiftr id 18))) as [p Hp]; [lia|].
    destruct p as [pg|]; [|contradiction].
    pose proof (proj1 (pages_ok_lookup _) Hpg _ _ Hp) as Hok. cbn [page_ok] in Hok.
    apply Nat.eqb_eq in Hok.
    pose proof (offset_bound (Z.shiftr id 6)) as Hoff.
    destruct (lookup_lt_is_Some_2 pg (Z.to_nat (Z.land (Z.shiftr id 6) (PAGE_ENTRIES - 1))))
      as [w Hw].
    { rewrite Hok. change (Z.to_nat PAGE_ENTRIES) with (Z.to_nat 512). lia. }
    exists pg, w. rewrite Hp, Hw. repeat split; reflexivity.
Qed.

Lemma enabled_reads_gated_bit_witness :
  wf sample_handle /\ is_u32 70 /\
  exists b, abitset_expandable_enabled 70 sample_handle = Some (b, sample_handle).
Proof.
  assert (Hwf : wf sample_handle).
  { wf_by_evaluation. }
  assert (Hid : is_u32 70) by (unfold is_u32; lia).
  split; [exact Hwf|]. split; [exact Hid|].
  destruct (enabled_reads_gated_bit sample_handle 70 Hwf Hid) as (b & E & _).
  exists b. exact E.
Defined.

(** C7. On a well-formed handle, [expand], [set] and [unset] called with a
    32-bit id all return and leave [max_bit] equal to the maximum of its old
    value and the id; consequently along any sequence of [set] and [unset]
    calls [max_bit] never decreases: the value after a prefix of the
    sequence is at most the value after the whole of it. *)
Theorem max_bit_never_decreases h :
  wf h ->
  (forall id, is_u32 id ->
     exists he hs hu,
       abitset_expandable_expand id h = Some (tt, he) /\
       abitset_expandable_set id h = Some (tt, hs) /\
       abitset_expandable_unset id h = Some (tt, hu) /\
       max_bit he = Z.max (max_bit h) id /\
       max_bit hs = Z.max (max_bit h) id /\
       max_bit hu = Z.max (max_bit h) id) /\
  (forall os1 os2,
     Forall (fun o => is_u32 (op_id o)) (os1 ++ os2) ->
     exists h1 h2,
       run_ops os1 h = Some (tt, h1) /\
       run_ops (os1 ++ os2) h = Some (tt, h2) /\
       max_bit h <= max_bit h1 <= max_bit h2).
Proof.
  intros Hwf. split.
  - intros id Hid.
    destruct (expand_spec h id Hwf Hid) as (he & Ee & _ & Hmb & _).
    destruct (run_op_effect h (OpSet id) Hwf Hid) as (hs & Es & _ & Hs).
    destruct (run_op_effect h (OpUnset id) Hwf Hid) as (hu & Eu & _ & Hu).
    exists he, hs, hu. repeat split; assumption.
  - intros os1 os2 Hos. apply Forall_app in Hos. destruct Hos as [Hos1 Hos2].
    destruct (run_ops_effect os1 h Hwf Hos1) as (h1 & E1 & Hwf1 & Hle1).
    destruct (run_ops_effect os2 h1 Hwf1 Hos2) as (h2 & E2 & _ & Hle2).
    exists h1, h2. rewrite run_ops_app, E1. repeat split; assumption.
Qed.

Lemma max_bit_never_decreases_witness :
  wf sample_handle /\
  exists h1 h2,
    run_ops [OpSet 12; OpUnset 400000] sample_handle = Some (tt, h1) /\
    run_ops ([OpSet 12; OpUnset 400000] ++ [OpSet 3]) sample_handle = Some (tt, h2) /\
    max_bit sample_handle <= max_bit h1 <= max_bit h2.
Proof.
  assert (Hwf : wf sample_handle).
  { wf_by_evaluation. }
  split; [exact Hwf|].
  apply (proj2 (max_bit_never_decreases sample_handle Hwf)).
  repeat constructor; vm_compute; congruence.
Defined.

(** C8 at a failing input: for id [2^32 - 1] the page index is 16383 and
    [(16383 + 1) * 2^18 = 2^32] exceeds the previous size 0, but the 32-bit
    product is 0 and [expand] leaves [size] at 0. *)
Theorem expand_top_page_leaves_size :
  Z.shiftr 4294967295 18 = 16383 /\
  (Z.shiftr 4294967295 18 + 1) * 2 ^ 18 = 2 ^ 32 /\
  eval (abitset_expandable_expand 4294967295 ;;; h <~ get ;; ret (size h))
       abitset_expandable_init = Some 0.
Proof. repeat split; vm_compute; reflexivity. Qed.

(** C9, as the code has it.  On a well-formed handle, [unset] with a
    32-bit id goes through the same expansion as [set]: both results are
    the handle left by [expand] with one word of the target page rewritten.
    Hence after [unset] [max_bit] is the maximum of its old value and the
    id, so at least the id; the directory has more entries than the page
    index and is left at its old length when that was already enough; and
    a target page that was absent is now present and entirely zero, though
    no bit of it was ever set.  The logical size returned afterwards is
    [max_bit + 1], hence at least [id + 1], whenever the new [max_bit] is
    below [2^32 - 1]. *)
Theorem unset_expands_like_set h id :
  wf h -> is_u32 id ->
  exists he hs hu w,
    abitset_expandable_expand id h = Some (tt, he) /\
    abitset_expandable_set id h = Some (tt, hs) /\
    abitset_expandable_unset id h = Some (tt, hu) /\
    page_after h (Z.shiftr id 18)
      !! Z.to_nat (Z.land (Z.shiftr id 6) (PAGE_ENTRIES - 1)) = Some w /\
    hs = with_pages
           (<[Z.to_nat (Z.shiftr id 18) :=
                Some (<[Z.to_nat (Z.land (Z.shiftr id 6) (PAGE_ENTRIES - 1)) :=
                          Z.lor w (Z.shiftl 1 (Z.land id 63))]>
                        (page_after h (Z.shiftr id 18)))]> (pages he)) he /\
    hu = with_pages
           (<[Z.to_nat (Z.shiftr id 18) :=
                Some (<[Z.to_nat (Z.land (Z.shiftr id 6) (PAGE_ENTRIES - 1)) :=
                          Z.land w (u64 (Z.lnot (Z.shiftl 1 (Z.land id 63))))]>
                        (page_after h (Z.shiftr id 18)))]> (pages he)) he /\
    max_bit hu = Z.max (max_bit h) id /\
    id <= max_bit hu /\
    (max_bit hu < 2 ^ 32 - 1 ->
     exists n, abitset_expandable_size hu = Some (n, hu) /\
               n = max_bit hu + 1 /\ id + 1 <= n) /\
    Z.shiftr id 18 < page_count hu /\
    Z.of_nat (length (pages hu)) = page_count hu /\
    (Z.shiftr id 18 < page_count h -> page_count hu = page_count h) /\
    (pages h !! Z.to_nat (Z.shiftr id 18) = None \/
     pages h !! Z.to_nat (Z.shiftr id 18) = Some None ->
     pages hu !! Z.to_nat (Z.shiftr id 18) = Some (Some zalloc_page)).
Proof.
  intros Hwf Hid.
  destruct (update_word_effect (fun w => Z.lor w (Z.shiftl 1 (Z.land id 63))) h id Hwf Hid)
    as (he & hs & w & Ee & Es & Hwfe & Hwfs & Hw & Hs & Hmb & Hpc & Hrp & Hsame & Hl).
  destruct (update_word_effect
              (fun w => Z.land w (u64 (Z.lnot (Z.shiftl 1 (Z.land id 63))))) h id Hwf Hid)
    as (he' & hu & w' & Ee' & Eu & _ & Hwfu & Hw' & Hu & _).
  assert (he' = he) as -> by congruence.
  assert (w' = w) as -> by congruence.
  exists he, hs, hu, w.
  rewrite set_is_update, unset_is_update.
  do 6 (split; [assumption|]).
  assert (Hmbu : max_bit hu = Z.max (max_bit h) id) by (rewrite Hu; exact Hmb).
  assert (Hpcu : page_count hu = page_count he) by (rewrite Hu; reflexivity).
  split; [exact Hmbu|]. split; [lia|]. split; [|split; [|split; [|split]]].
  - intros Hlt. destruct Hwfu as (_ & _ & _ & [Hlo _] & _).
    eexists. split; [reflexivity|]. unfold u32.
    rewrite Z.mod_small by lia. lia.
  - lia.
  - destruct Hwfu as (_ & Hlen & _). exact Hlen.
  - intros Hlt. rewrite Hpcu. apply Hsame, Hlt.
  - intros Habs. apply lookup_lt_Some in Hl.
    rewrite Hu. cbn [pages with_pages].
    rewrite list_lookup_insert_eq by assumption.
    assert (Hz : page_after h (Z.shiftr id 18) = zalloc_page).
    { unfold page_after. destruct Habs as [-> | ->]; reflexivity. }
    rewrite Hz in Hw |- *. apply lookup_replicate in Hw. destruct Hw as [-> _].
    rewrite zero_page_clear_bit. reflexivity.
Qed.

Lemma unset_expands_like_set_witness :
  wf sample_handle /\ is_u32 70000000 /\
  exists hu, abitset_expandable_unset 70000000 sample_handle = Some (tt, hu) /\
             70000000 <= max_bit hu /\
             pages hu !! Z.to_nat (Z.shiftr 70000000 18) = Some (Some zalloc_page).
Proof.
  assert (Hwf : wf sample_handle).
  { wf_by_evaluation. }
  assert (Hid : is_u32 70000000) by (unfold is_u32; lia).
  split; [exact Hwf|]. split; [exact Hid|].
  destruct (unset_expands_like_set sample_handle 70000000 Hwf Hid)
    as (he & hs & hu & w & _ & _ & Eu & _ & _ & _ & _ & Hle & _ & _ & _ & _ & Hz).
  exists hu. split; [exact Eu|]. split; [exact Hle|].
  apply Hz. right. vm_compute. reflexivity.
Defined.

(** C9 as stated fails at the top id: after [unset(h, 2^32 - 1)] on a fresh
    handle the logical size is 0, not at least [id + 1 = 2^32]. *)
Lemma unset_top_id_logical_size_is_zero :
  eval (abitset_expandable_unset 4294967295 ;;; abitset_expandable_size)
       abitset_expandable_init = Some 0 /\
  ~ (exists n,
       eval (abitset_expandable_unset 4294967295 ;;; abitset_expandable_size)
            abitset_expandable_init = Some n /\
       4294967295 + 1 <= n).
Proof.
  assert (E : eval (abitset_expandable_unset 4294967295 ;;; abitset_expandable_size)
                   abitset_expandable_init = Some 0) by (vm_compute; reflexivity).
  split; [exact E|]. intros (n & En & Hn). rewrite E in En.
  injection En as <-. lia.
Qed.

(** C10. [abitset_expandable_load] with a declared bit count of 0, whatever
    array it is given: [size - 1] wraps to [2^32 - 1]; the call returns a
    handle whose [max_bit] is [2^32 - 1], whose logical size [max_bit + 1]
    wraps to 0, whose directory has grown to 16384 entries, and whose only
    allocated page is the zero page at index 16383. *)
Theorem load_zero_bits_underflows (repr : list Z) :
  u32 (0 - 1) = 2 ^ 32 - 1 /\
  exists h,
    abitset_expandable_load repr 0 = Some h /\
    max_bit h = 2 ^ 32 - 1 /\
    abitset_expandable_size h = Some (0, h) /\
    page_count h = 16384 /\
    Z.of_nat (length (pages h)) = 16384 /\
    pages h = replicate (Z.to_nat 16383) None ++ [Some zalloc_page].
Proof.
  split; [reflexivity|].
  eexists. split; [vm_compute; reflexivity|].
  repeat split; vm_compute; reflexivity.
Qed.

(** * Further properties of the code *)

(** ** How one mutation changes the stored words *)

Lemma stored_word_beyond h p o :
  (length (pages h) <= Z.to_nat p)%nat -> stored_word h p o = 0.
Proof.
  intros H. apply stored_word_null. right. apply lookup_ge_None_2. exact H.
Qed.

Lemma update_word_stored_word f h id h' :
  wf h -> is_u32 id -> update_word f id h = Some (tt, h') ->
  forall p o, 0 <= p -> 0 <= o ->
    stored_word h' p o =
      if (p =? Z.shiftr id 18) && (o =? Z.land (Z.shiftr id 6) (PAGE_ENTRIES - 1))
      then f (stored_word h p o) else stored_word h p o.
Proof.
  intros Hwf Hid E p o Hp Ho.
  destruct (update_word_effect f h id Hwf Hid)
    as (he & h2 & w & Ee & E2 & Hwfe & Hwf2 & Hw & Hh2 & _ & _ & _ & _ & Hl).
  rewrite E2 in E. apply Some_inj, pair_equal_spec in E. destruct E as [_ <-].
  destruct (expand_spec h id Hwf Hid)
    as (he' & Ee' & _ & _ & _ & _ & _ & Hpages & _).
  assert (he' = he) as -> by congruence.
  pose proof (shiftr18_bound id Hid) as Hrp.
  pose proof (offset_bound (Z.shiftr id 6)) as Hoff.
  set (rp := Z.shiftr id 18) in *.
  set (off := Z.land (Z.shiftr id 6) (PAGE_ENTRIES - 1)) in *.
  assert (Hws : stored_word h rp off = w).
  { rewrite <- stored_word_page_after, Hw. reflexivity. }
  unfold stored_word at 1. rewrite Hh2. cbn [pages with_pages].
  pose proof (lookup_lt_Some _ _ _ Hl) as Hlt.
  destruct (Z.eqb_spec p rp) as [->|Hne]; cbn [andb].
  - rewrite list_lookup_insert_eq by assumption.
    pose proof (lookup_lt_Some _ _ _ Hw) as Hlo.
    destruct (Z.eqb_spec o off) as [->|Hne'].
    + rewrite list_lookup_insert_eq by assumption. cbn [default].
      rewrite Hws. reflexivity.
    + rewrite list_lookup_insert_ne by lia. apply stored_word_page_after.
  - rewrite list_lookup_insert_ne by lia. rewrite Hpages.
    rewrite list_lookup_insert_ne by lia.
    destruct (decide (Z.to_nat p < length (pages h))%nat).
    + rewrite lookup_app_l by assumption. reflexivity.
    + rewrite stored_word_beyond by lia. rewrite lookup_app_r by lia.
      destruct (replicate _ _ !! _) as [q|] eqn:Eq; [|reflexivity].
      apply lookup_replicate in Eq. destruct Eq as [-> _]. reflexivity.
Qed.

(** Below [max_bit] a query is the stored bit, whether or not the directory
    reaches the page. *)
Lemma enabled_below_max_bit h a :
  wf h -> is_u32 a -> a < max_bit h ->
  abitset_expandable_enabled a h =
    Some (Z.testbit (stored_word h (Z.shiftr a 18)
                                   (Z.land (Z.shiftr a 6) (PAGE_ENTRIES - 1)))
                    (Z.land a 63), h).
Proof.
  intros Hwf Ha Hlt. rewrite enabled_stored_word by assumption.
  destruct (Z.geb_spec a (max_bit h)); [lia|].
  destruct (Z.geb_spec (Z.shiftr a 18) (page_count h)); [|reflexivity].
  rewrite stored_word_beyond; [rewrite Z.bits_0; reflexivity|].
  destruct Hwf as (_ & Hl & _). pose proof (shiftr18_bound a Ha). lia.
Qed.

Lemma enabled_after_update_other f h a b :
  wf h -> is_u32 a -> is_u32 b -> a < max_bit h ->
  eval (update_word f b ;;; abitset_expandable_enabled a) h =
    Some (Z.testbit
            (if (Z.shiftr a 18 =? Z.shiftr b 18) &&
                (Z.land (Z.shiftr a 6) (PAGE_ENTRIES - 1)
                 =? Z.land (Z.shiftr b 6) (PAGE_ENTRIES - 1))
             then f (stored_word h (Z.shiftr a 18)
                                   (Z.land (Z.shiftr a 6) (PAGE_ENTRIES - 1)))
             else stored_word h (Z.shiftr a 18)
                               (Z.land (Z.shiftr a 6) (PAGE_ENTRIES - 1)))
            (Z.land a 63)).
Proof.
  intros Hwf Ha Hb Hlt.
  destruct (update_word_effect f h b Hwf Hb)
    as (he & h' & w & _ & E & _ & Hwf' & _ & Hh' & Hmb & _).
  assert (Hmb' : max_bit h' = Z.max (max_bit h) b) by (rewrite Hh'; exact Hmb).
  unfold eval, bind. rewrite E.
  rewrite enabled_below_max_bit by (try assumption; lia).
  pose proof (shiftr18_bound a Ha). pose proof (offset_bound (Z.shiftr a 6)).
  rewrite (update_word_stored_word f h b h' Hwf Hb E) by lia.
  reflexivity.
Qed.

Lemma lor_bit_testbit_any w b c :
  0 <= b -> 0 <= c ->
  Z.testbit (Z.lor w (Z.shiftl 1 b)) c = Z.testbit w c || (c =? b).
Proof.
  intros Hb Hc. rewrite Z.lor_spec, Z.shiftl_1_l. f_equal.
  destruct (Z.eqb_spec c b) as [->|Hne].
  - apply Z.pow2_bits_true. assumption.
  - apply Z.pow2_bits_false. congruence.
Qed.

Lemma land_not_bit_testbit_any w b c :
  0 <= b -> 0 <= c < 64 ->
  Z.testbit (Z.land w (u64 (Z.lnot (Z.shiftl 1 b)))) c
  = Z.testbit w c && negb (c =? b).
Proof.
  intros Hb Hc. rewrite Z.land_spec. unfold u64.
  rewrite Z.mod_pow2_bits_low by lia.
  rewrite Z.lnot_spec, Z.shiftl_1_l by lia. do 2 f_equal.
  destruct (Z.eqb_spec c b) as [->|Hne].
  - apply Z.pow2_bits_true. assumption.
  - apply Z.pow2_bits_false. congruence.
Qed.

(** ** Queries after a mutation *)

(** X1.  On a fresh handle every query answers false, for any id, and
    leaves the handle as it was. *)
Theorem fresh_handle_tests_false (id : Z) :
  abitset_expandable_enabled id abitset_expandable_init
  = Some (false, abitset_expandable_init).
Proof.
  unfold abitset_expandable_enabled, bind at 1, get at 1.
  change (max_bit abitset_expandable_init) with 0.
  destruct (Z.geb_spec id 0) as [Hge|Hlt]; [reflexivity|].
  change (page_count abitset_expandable_init) with 2048.
  assert (Hs : Z.shiftr id 18 < 0) by (apply Z.shiftr_neg; lia).
  destruct (Z.geb_spec (Z.shiftr id 18) 2048); [lia|].
  unfold bind, read_page_ptr, get.
  replace (Z.to_nat (Z.shiftr id 18)) with 0%nat by lia.
  reflexivity.
Qed.

Lemma enabled_after_set_witness :
  wf sample_handle /\ is_u32 70 /\
  eval (abitset_expandable_set 70 ;;; abitset_expandable_enabled 70) sample_handle =
    Some (70 <? max_bit sample_handle).
Proof.
  assert (Hwf : wf sample_handle) by wf_by_evaluation.
  assert (Hid : is_u32 70) by (unfold is_u32; lia).
  split; [exact Hwf|]. split; [exact Hid|].
  exact (enabled_after_set sample_handle 70 Hwf Hid).
Defined.

Lemma enabled_after_unset_witness :
  wf sample_handle /\ is_u32 70 /\
  eval (abitset_expandable_unset 70 ;;; abitset_expandable_enabled 70) sample_handle =
    Some false.
Proof.
  assert (Hwf : wf sample_handle) by wf_by_evaluation.
  assert (Hid : is_u32 70) by (unfold is_u32; lia).
  split; [exact Hwf|]. split; [exact Hid|].
  exact (enabled_after_unset sample_handle 70 Hwf Hid).
Defined.

(** X4.  On a well-formed handle and for an id [a] below [max_bit],
    [set(h, b)] changes the answer of the query for [a] in one way only:
    it becomes true when [a] and [b] address the same stored bit.  The
    answer afterwards is the answer before, or-ed with [same_bit a b]. *)
Theorem set_disturbs_only_same_bit h a b :
  wf h -> is_u32 a -> is_u32 b -> a < max_bit h ->
  exists before,
    eval (abitset_expandable_enabled a) h = Some before /\
    eval (abitset_expandable_set b ;;; abitset_expandable_enabled a) h =
      Some (before || same_bit a b).
Proof.
  intros Hwf Ha Hb Hlt. eexists. split.
  { unfold eval. rewrite enabled_below_max_bit by assumption. reflexivity. }
  rewrite set_is_update, enabled_after_update_other by assumption.
  unfold same_bit.
  destruct ((Z.shiftr a 18 =? Z.shiftr b 18) && _); cbn [andb].
  - rewrite lor_bit_testbit_any by apply bit_bound. reflexivity.
  - rewrite orb_false_r. reflexivity.
Qed.

Lemma set_disturbs_only_same_bit_witness :
  wf sample_handle /\ is_u32 70 /\ is_u32 32838 /\ 70 < max_bit sample_handle /\
  exists before,
    eval (abitset_expandable_enabled 70) sample_handle = Some before /\
    eval (abitset_expandable_set 32838 ;;; abitset_expandable_enabled 70) sample_handle =
      Some (before || same_bit 70 32838).
Proof.
  assert (Hwf : wf sample_handle) by wf_by_evaluation.
  assert (Ha : is_u32 70) by (unfold is_u32; lia).
  assert (Hb : is_u32 32838) by (unfold is_u32; lia).
  assert (Hlt : 70 < max_bit sample_handle) by (vm_compute; reflexivity).
  repeat (split; [assumption|]).
  exact (set_disturbs_only_same_bit sample_handle 70 32838 Hwf Ha Hb Hlt).
Defined.

(** X5.  On a well-formed handle and for an id [a] below [max_bit],
    [unset(h, b)] changes the answer of the query for [a] in one way only:
    it becomes false when [a] and [b] address the same stored bit. *)
Theorem unset_disturbs_only_same_bit h a b :
  wf h -> is_u32 a -> is_u32 b -> a < max_bit h ->
  exists before,
    eval (abitset_expandable_enabled a) h = Some before /\
    eval (abitset_expandable_unset b ;;; abitset_expandable_enabled a) h =
      Some (before && negb (same_bit a b)).
Proof.
  intros Hwf Ha Hb Hlt. eexists. split.
  { unfold eval. rewrite enabled_below_max_bit by assumption. reflexivity. }
  rewrite unset_is_update, enabled_after_update_other by assumption.
  unfold same_bit.
  destruct ((Z.shiftr a 18 =? Z.shiftr b 18) && _); cbn [andb].
  - rewrite land_not_bit_testbit_any by apply bit_bound. reflexivity.
  - rewrite andb_true_r. reflexivity.
Qed.

Lemma unset_disturbs_only_same_bit_witness :
  wf sample_handle /\ is_u32 70 /\ is_u32 32838 /\ 70 < max_bit sample_handle /\
  exists before,
    eval (abitset_expandable_enabled 70) sample_handle = Some before /\
    eval (abitset_expandable_unset 32838 ;;; abitset_expandable_enabled 70) sample_handle =
      Some (before && negb (same_bit 70 32838)).
Proof.
  assert (Hwf : wf sample_handle) by wf_by_evaluation.
  assert (Ha : is_u32 70) by (unfold is_u32; lia).
  assert (Hb : is_u32 32838) by (unfold is_u32; lia).
  assert (Hlt : 70 < max_bit sample_handle) by (vm_compute; reflexivity).
  repeat (split; [assumption|]).
  exact (unset_disturbs_only_same_bit sample_handle 70 32838 Hwf Ha Hb Hlt).
Defined.

(** X6.  Two ids address the same stored bit exactly when they lie in the
    same block of [2^18] ids and are congruent modulo [2^15 = 64 * 512]:
    within a block, ids [32768] apart share their bit, while distinct ids
    of one aligned run of [32768] never do. *)
Theorem same_bit_iff (a b : Z) :
  same_bit a b = true <->
  Z.shiftr a 18 = Z.shiftr b 18 /\ a mod 32768 = b mod 32768.
Proof.
  unfold same_bit. change (PAGE_ENTRIES - 1) with (Z.ones 9).
  change 63 with (Z.ones 6). rewrite !Z.land_ones by lia.
  rewrite !(Z.shiftr_div_pow2 _ 6) by lia.
  change (2 ^ 6) with 64. change (2 ^ 9) with 512.
  rewrite !andb_true_iff, !Z.eqb_eq.
  assert (Ha : a mod 32768 = 64 * ((a / 64) mod 512) + a mod 64)
    by (Z.div_mod_to_equations; lia).
  assert (Hb : b mod 32768 = 64 * ((b / 64) mod 512) + b mod 64)
    by (Z.div_mod_to_equations; lia).
  pose proof (Z.mod_pos_bound a 64 ltac:(lia)).
  pose proof (Z.mod_pos_bound b 64 ltac:(lia)).
  split.
  - intros [[H1 H2] H3]. split; [exact H1 | lia].
  - intros [H1 H2]. repeat split; try exact H1; lia.
Qed.

(** ** Growth along sequences of mutations *)

Lemma run_op_update o : exists f, run_op o = update_word f (op_id o).
Proof.
  destruct o; eexists; cbn [run_op op_id];
    [apply set_is_update | apply unset_is_update].
Qed.

Lemma run_op_grows h o h' :
  wf h -> is_u32 (op_id o) -> run_op o h = Some (tt, h') ->
  page_count h <= page_count h' /\
  size h' = Z.max (size h) (u32 (Z.shiftl (Z.shiftr (op_id o) 18 + 1) 18)) /\
  max_bit h' = Z.max (max_bit h) (op_id o) /\
  page_allocated h' (Z.to_nat (Z.shiftr (op_id o) 18)) /\
  (forall k, page_allocated h k -> page_allocated h' k).
Proof.
  intros Hwf Hid E. destruct (run_op_update o) as [f Ef]. rewrite Ef in E.
  destruct (update_word_effect f h (op_id o) Hwf Hid)
    as (he & h2 & w & Ee & E2 & Hwfe & Hwf2 & Hw & Hh2 & Hmb & Hpc & Hrp & _ & Hl).
  rewrite E2 in E. apply Some_inj, pair_equal_spec in E. destruct E as [_ <-].
  destruct (expand_spec h (op_id o) Hwf Hid)
    as (he' & Ee' & _ & _ & _ & _ & _ & Hpages & Hsz).
  assert (he' = he) as -> by congruence.
  set (id := op_id o) in *.
  pose proof (lookup_lt_Some _ _ _ Hl) as Hlt.
  rewrite Hh2. cbn [page_count size max_bit with_pages].
  split; [exact Hpc|]. split; [exact Hsz|]. split; [exact Hmb|]. split.
  - eexists. cbn [pages with_pages]. apply list_lookup_insert_eq. exact Hlt.
  - intros k [pg Hk]. unfold page_allocated. cbn [pages with_pages].
    destruct (decide (k = Z.to_nat (Z.shiftr id 18))) as [->|Hne].
    + rewrite list_lookup_insert_eq by exact Hlt. eauto.
    + rewrite list_lookup_insert_ne by congruence. rewrite Hpages.
      rewrite list_lookup_insert_ne by congruence.
      exists pg. apply lookup_app_l_Some. exact Hk.
Qed.

(** X7.  Starting from any well-formed handle, every finite sequence of
    [set] and [unset] calls with 32-bit ids runs to completion without
    leaving an allocated block, and leaves a well-formed handle.  Nothing
    ever shrinks: [page_count], [size] and [max_bit] are at least what they
    were, and every directory entry that held a page still holds one. *)
Theorem mutations_never_shrink h os :
  wf h -> Forall (fun o => is_u32 (op_id o)) os ->
  exists h',
    run_ops os h = Some (tt, h') /\ wf h' /\
    page_count h <= page_count h' /\
    size h <= size h' /\
    max_bit h <= max_bit h' /\
    (forall k, page_allocated h k -> page_allocated h' k).
Proof.
  intros Hwf Hos. revert h Hwf.
  induction Hos as [|o os Ho Hos IH]; intros h Hwf; cbn [run_ops].
  - exists h. split; [reflexivity|]. split; [assumption|].
    split; [lia|]. split; [lia|]. split; [lia|]. auto.
  - destruct (run_op_effect h o Hwf Ho) as (h1 & E1 & Hwf1 & _).
    destruct (run_op_grows h o h1 Hwf Ho E1) as (Hpc & Hsz & Hmb & _ & Hal).
    destruct (IH h1 Hwf1) as (h' & E' & Hwf' & Hpc' & Hsz' & Hmb' & Hal').
    exists h'. unfold bind. rewrite E1.
    split; [exact E'|]. split; [assumption|].
    split; [lia|]. split; [lia|]. split; [lia|]. auto.
Qed.

Lemma mutations_never_shrink_witness :
  wf sample_handle /\
  Forall (fun o => is_u32 (op_id o)) [OpUnset 5000000; OpSet 3] /\
  exists h',
    run_ops [OpUnset 5000000; OpSet 3] sample_handle = Some (tt, h') /\ wf h' /\
    page_count sample_handle <= page_count h' /\
    size sample_handle <= size h' /\
    max_bit sample_handle <= max_bit h' /\
    (forall k, page_allocated sample_handle k -> page_allocated h' k).
Proof.
  assert (Hwf : wf sample_handle) by wf_by_evaluation.
  assert (Hos : Forall (fun o => is_u32 (op_id o)) [OpUnset 5000000; OpSet 3])
    by (repeat constructor; vm_compute; congruence).
  split; [exact Hwf|]. split; [exact Hos|].
  exact (mutations_never_shrink sample_handle _ Hwf Hos).
Defined.

(** ** The directory capacity *)

Lemma grow_page_count_pow2 fuel rp n n' :
  0 < n -> 0 <= rp < 2 ^ 14 ->
  grow_page_count fuel rp n = Some n' ->
  exists k, 0 <= k /\ n' = n * 2 ^ k /\ rp < n' /\ (n' = n \/ n' <= 2 * rp).
Proof.
  revert n. induction fuel as [|fuel IH]; intros n Hn Hrp E;
    cbn [grow_page_count] in E; [discriminate|].
  destruct (Z.geb_spec rp n) as [Hge|Hlt].
  - assert (Hu : u32 (Z.shiftl n 1) = 2 * n).
    { unfold u32. rewrite Z.shiftl_mul_pow2 by lia. rewrite Z.mod_small; lia. }
    rewrite Hu in E. destruct (IH (2 * n) ltac:(lia) Hrp E) as (k & Hk & -> & Hlt & Hor).
    exists (k + 1). rewrite Z.pow_add_r by lia.
    split; [lia|]. split; [lia|]. split; [lia|]. right. lia.
  - injection E as <-. exists 0. rewrite Z.pow_0_r. lia.
Qed.

Lemma expand_page_count h id he :
  wf h -> is_u32 id ->
  abitset_expandable_expand id h = Some (tt, he) ->
  page_count he = page_count h \/
  (page_count h <= Z.shiftr id 18 /\
   exists k, 0 <= k /\ page_count he = page_count h * 2 ^ k /\
             page_count he <= 2 * Z.shiftr id 18).
Proof.
  intros Hwf Hid E. pose proof Hwf as (Hpc & _).
  pose proof (shiftr18_bound id Hid) as Hrp.
  destruct (expand_spec h id Hwf Hid) as (he' & E' & _ & _ & _ & _ & Hsame & _).
  assert (he' = he) as -> by congruence.
  destruct (Z.lt_ge_cases (Z.shiftr id 18) (page_count h)) as [Hlt|Hge];
    [left; auto|]. right. split; [exact Hge|].
  unfold abitset_expandable_expand, bind at 1, get at 1, bind at 1 in E.
  set (h1 := with_max_bit (Z.max (max_bit h) id) h).
  assert (E1 : (if id >? max_bit h then put (with_max_bit id h) else ret tt) h
               = Some (tt, h1)).
  { subst h1. destruct (Z.gtb_spec id (max_bit h)).
    - rewrite Z.max_r by lia. reflexivity.
    - rewrite Z.max_l by lia. unfold ret, with_max_bit. rewrite handle_eta.
      reflexivity. }
  rewrite E1 in E. unfold bind at 1, grow_directory at 1, bind at 1, get at 1 in E.
  change (page_count h1) with (page_count h) in E.
  destruct (Z.geb_spec (Z.shiftr id 18) (page_count h)); [|lia].
  unfold bind at 1 in E.
  destruct (grow_page_count 33 (Z.shiftr id 18) (page_count h)) as [n'|] eqn:Eg;
    cbn [lift] in E; [|discriminate].
  destruct (grow_page_count_pow2 33 (Z.shiftr id 18) (page_count h) n'
              ltac:(lia) Hrp Eg) as (k & Hk & Hn' & _ & Hor).
  unfold bind at 1 in E.
  match type of E with
  | context [memcpy ?d ?p ?s ?n] => destruct (memcpy d p s n) as [np|]
  end; cbn [lift] in E; [|discriminate].
  unfold put at 1 in E.
  set (h2 := with_page_count n' (with_pages np h1)) in E.
  unfold bind at 1 in E.
  destruct (alloc_page_if_null (Z.shiftr id 18) h2) as [[[] h3]|] eqn:Ea;
    [|discriminate].
  assert (Hpc3 : page_count h3 = n').
  { unfold alloc_page_if_null, read_page_ptr, bind, get in Ea.
    destruct (pages h2 !! Z.to_nat (Z.shiftr id 18)) as [[pg|]|];
      cbn [lift] in Ea; try discriminate.
    - unfold ret in Ea. apply Some_inj, pair_equal_spec in Ea.
      destruct Ea as [_ <-]. reflexivity.
    - unfold write_page_ptr, bind, get in Ea.
      destruct (Z.to_nat (Z.shiftr id 18) <? length (pages h2))%nat;
        [|discriminate].
      unfold put in Ea. apply Some_inj, pair_equal_spec in Ea.
      destruct Ea as [_ <-]. reflexivity. }
  unfold bind, get in E.
  assert (Hpce : page_count he = n').
  { destruct (_ >? size h3); unfold put, ret in E; injection E as <-;
      exact Hpc3. }
  exists k. rewrite Hpce. split; [exact Hk|]. split; [exact Hn'|]. lia.
Qed.

Lemma capacity_inv_run_op h o h' :
  wf h -> capacity_inv h -> is_u32 (op_id o) ->
  run_op o h = Some (tt, h') -> capacity_inv h'.
Proof.
  intros Hwf [(e & He & Hpc) Hmin] Hid E.
  destruct (run_op_grows h o h' Hwf Hid E) as (_ & _ & Hmb & _).
  destruct (run_op_update o) as [f Ef]. rewrite Ef in E.
  destruct (update_word_effect f h (op_id o) Hwf Hid)
    as (he & h2 & w & Ee & E2 & _ & _ & _ & Hh2 & _).
  rewrite E2 in E. apply Some_inj, pair_equal_spec in E. destruct E as [_ <-].
  assert (Hpc2 : page_count h2 = page_count he) by (rewrite Hh2; reflexivity).
  pose proof (shiftr18_bound _ Hid) as Hrp.
  assert (Hm1 : Z.shiftr (max_bit h) 18 <= Z.shiftr (max_bit h2) 18)
    by (apply shiftr18_mono; lia).
  assert (Hm2 : Z.shiftr (op_id o) 18 <= Z.shiftr (max_bit h2) 18)
    by (apply shiftr18_mono; lia).
  destruct (expand_page_count h _ he Hwf Hid Ee) as [Hsame|(Hge & k & Hk & Hpk & Hle)].
  - unfold capacity_inv. rewrite Hpc2, Hsame. split; [eauto|lia].
  - unfold capacity_inv. rewrite Hpc2. split; [|right; lia].
    exists (e + k). rewrite Hpk, Hpc, Z.pow_add_r by lia.
    split; [|lia]. split; [lia|].
    assert (Hlt : 2 ^ (e + k) < 2 ^ 4).
    { rewrite Z.pow_add_r by lia. rewrite Hpk, Hpc in Hle. lia. }
    apply Z.pow_lt_mono_r_iff in Hlt; lia.
Qed.

Lemma capacity_inv_run_ops os h :
  Forall (fun o => is_u32 (op_id o)) os ->
  run_ops os abitset_expandable_init = Some (tt, h) -> capacity_inv h.
Proof.
  intros Hos. generalize wf_init.
  assert (H0 : capacity_inv abitset_expandable_init).
  { split; [exists 0; split; [lia | reflexivity] | left; reflexivity]. }
  revert H0. generalize abitset_expandable_init as h0.
  induction Hos as [|o os Ho Hos IH]; intros h0 H0 Hwf0 Hrun;
    cbn [run_ops] in Hrun.
  - unfold ret in Hrun. apply Some_inj, pair_equal_spec in Hrun.
    destruct Hrun as [_ <-]. exact H0.
  - unfold bind in Hrun.
    destruct (run_op o h0) as [[[] h1]|] eqn:E1; [|discriminate].
    destruct (run_op_effect h0 o Hwf0 Ho) as (h1' & E1' & Hwf1 & _).
    assert (h1' = h1) as -> by congruence.
    apply (IH h1); try assumption.
    apply (capacity_inv_run_op h0 o); assumption.
Qed.

(** X8.  In every handle built from a fresh one by [set] and [unset] calls
    with 32-bit ids, the directory capacity [page_count] is 2048, 4096,
    8192 or 16384, exceeds the page index of [max_bit], and has been
    doubled only as far as needed: it is 2048 or at most twice the page
    index of [max_bit]. *)
Theorem directory_capacity os h :
  Forall (fun o => is_u32 (op_id o)) os ->
  run_ops os abitset_expandable_init = Some (tt, h) ->
  (page_count h = 2048 \/ page_count h = 4096 \/
   page_count h = 8192 \/ page_count h = 16384) /\
  Z.of_nat (length (pages h)) = page_count h /\
  Z.shiftr (max_bit h) 18 < page_count h /\
  (page_count h = 2048 \/ page_count h <= 2 * Z.shiftr (max_bit h) 18).
Proof.
  intros Hos Hrun.
  pose proof (reach_inv_run_ops os _ h reach_inv_init Hos Hrun)
    as ((_ & Hlen & _) & Hdir & _).
  destruct (capacity_inv_run_ops os h Hos Hrun) as [(e & He & Hpc) Hmin].
  split; [|split; [exact Hlen|split; [exact Hdir|exact Hmin]]].
  assert (e = 0 \/ e = 1 \/ e = 2 \/ e = 3) as [-> | [-> | [-> | ->]]] by lia;
    rewrite Hpc; change (2048 * 2 ^ 0) with 2048; change (2048 * 2 ^ 1) with 4096;
    change (2048 * 2 ^ 2) with 8192; change (2048 * 2 ^ 3) with 16384; auto.
Qed.

Lemma directory_capacity_witness :
  Forall (fun o => is_u32 (op_id o)) [OpSet 70; OpSet 300000; OpUnset 9] /\
  run_ops [OpSet 70; OpSet 300000; OpUnset 9] abitset_expandable_init
    = Some (tt, sample_handle) /\
  Z.shiftr (max_bit sample_handle) 18 < page_count sample_handle.
Proof.
  assert (Hos : Forall (fun o => is_u32 (op_id o)) [OpSet 70; OpSet 300000; OpUnset 9])
    by (repeat constructor; vm_compute; congruence).
  assert (Hrun : run_ops [OpSet 70; OpSet 300000; OpUnset 9] abitset_expandable_init
                 = Some (tt, sample_handle)) by (vm_compute; reflexivity).
  split; [exact Hos|]. split; [exact Hrun|].
  exact (proj1 (proj2 (proj2 (directory_capacity _ _ Hos Hrun)))).
Defined.

(** ** The fields after a sequence of mutations *)

Lemma run_ops_max_bit os h h' :
  wf h -> Forall (fun o => is_u32 (op_id o)) os ->
  run_ops os h = Some (tt, h') ->
  max_bit h' = Z.max (max_bit h) (foldr Z.max 0 (op_id <$> os)).
Proof.
  intros Hwf Hos. revert h Hwf.
  induction Hos as [|o os Ho Hos IH]; intros h Hwf E; cbn [run_ops] in E.
  - unfold ret in E. apply Some_inj, pair_equal_spec in E. destruct E as [_ <-].
    cbn. destruct Hwf as (_ & _ & _ & [H0 _] & _). lia.
  - unfold bind in E. destruct (run_op o h) as [[[] h1]|] eqn:E1; [|discriminate].
    destruct (run_op_effect h o Hwf Ho) as (h1' & E1' & Hwf1 & Hmb).
    assert (h1' = h1) as -> by congruence.
    rewrite (IH h1 Hwf1 E), Hmb. cbn [fmap list_fmap foldr]. lia.
Qed.

(** X9.  In a handle built from a fresh one by [set] and [unset] calls
    with 32-bit ids, [max_bit] is the largest id ever passed, or 0 when
    none was; the logical size returned by [abitset_expandable_size] is
    that value plus one (so 1 for a fresh handle), except that it is 0 when
    the largest id is [2^32 - 1]. *)
Theorem logical_size_is_largest_id_plus_one os h :
  Forall (fun o => is_u32 (op_id o)) os ->
  run_ops os abitset_expandable_init = Some (tt, h) ->
  max_bit h = foldr Z.max 0 (op_id <$> os) /\
  abitset_expandable_size h =
    Some (if foldr Z.max 0 (op_id <$> os) =? 2 ^ 32 - 1 then 0
          else foldr Z.max 0 (op_id <$> os) + 1, h).
Proof.
  intros Hos Hrun.
  pose proof (run_ops_max_bit os _ h wf_init Hos Hrun) as Hmb.
  change (max_bit abitset_expandable_init) with 0 in Hmb.
  destruct (run_ops_effect os _ wf_init Hos) as (h' & E' & Hwf & _).
  assert (h' = h) as -> by congruence.
  destruct Hwf as (_ & _ & _ & [Hlo Hhi] & _).
  assert (Hm0 : 0 <= foldr Z.max 0 (op_id <$> os)).
  { clear. induction (op_id <$> os) as [|x l IH]; cbn [foldr]; lia. }
  set (m := foldr Z.max 0 (op_id <$> os)) in *.
  assert (Hm : max_bit h = m) by lia. split; [exact Hm|].
  unfold abitset_expandable_size, bind, get, ret. rewrite Hm. do 2 f_equal.
  unfold u32. destruct (Z.eqb_spec m (2 ^ 32 - 1)) as [->|Hne]; [reflexivity|].
  apply Z.mod_small. lia.
Qed.

Lemma logical_size_is_largest_id_plus_one_witness :
  Forall (fun o => is_u32 (op_id o)) [OpSet 70; OpSet 300000; OpUnset 9] /\
  run_ops [OpSet 70; OpSet 300000; OpUnset 9] abitset_expandable_init
    = Some (tt, sample_handle) /\
  max_bit sample_handle = 300000.
Proof.
  assert (Hos : Forall (fun o => is_u32 (op_id o)) [OpSet 70; OpSet 300000; OpUnset 9])
    by (repeat constructor; vm_compute; congruence).
  assert (Hrun : run_ops [OpSet 70; OpSet 300000; OpUnset 9] abitset_expandable_init
                 = Some (tt, sample_handle)) by (vm_compute; reflexivity).
  split; [exact Hos|]. split; [exact Hrun|].
  exact (proj1 (logical_size_is_largest_id_plus_one _ _ Hos Hrun)).
Defined.

Lemma size_field_step h o h' :
  wf h -> is_u32 (op_id o) -> op_id o < 2 ^ 32 - 2 ^ 18 ->
  (size h = 0 /\ max_bit h = 0) \/ size h = (Z.shiftr (max_bit h) 18 + 1) * 2 ^ 18 ->
  run_op o h = Some (tt, h') ->
  size h' = (Z.shiftr (max_bit h') 18 + 1) * 2 ^ 18.
Proof.
  intros Hwf Hid Hlt Hinv E.
  destruct (run_op_grows h o h' Hwf Hid E) as (_ & Hsz & Hmb & _).
  pose proof (shiftr18_bound _ Hid) as Hrp.
  assert (Hp : Z.shiftr (op_id o) 18 < 16383).
  { rewrite Z.shiftr_div_pow2 by lia. destruct Hid. Z.div_mod_to_equations. lia. }
  assert (Hu : u32 (Z.shiftl (Z.shiftr (op_id o) 18 + 1) 18)
               = (Z.shiftr (op_id o) 18 + 1) * 2 ^ 18).
  { unfold u32. rewrite Z.shiftl_mul_pow2 by lia. apply Z.mod_small. lia. }
  rewrite Hsz, Hmb, Hu.
  destruct Hwf as (_ & _ & _ & [Hmb0 _] & _). destruct Hid as [Hid0 _].
  destruct (Z.le_gt_cases (max_bit h) (op_id o)) as [Hle|Hgt].
  - rewrite (Z.max_r (max_bit h)) by lia.
    pose proof (shiftr18_mono _ _ Hle).
    destruct Hinv as [[-> _]| ->]; lia.
  - rewrite (Z.max_l (max_bit h)) by lia.
    pose proof (shiftr18_mono (op_id o) (max_bit h) ltac:(lia)).
    destruct Hinv as [[_ H0]| ->]; lia.
Qed.

(** X10.  In a handle built from a fresh one by a non-empty sequence of
    [set] and [unset] calls whose ids are all below [2^32 - 2^18], the
    [size] field is [(page + 1) * 2^18], where [page] is the page index
    [max_bit >> 18] of the largest id passed. *)
Theorem size_field_tracks_top_page os h :
  Forall (fun o => is_u32 (op_id o) /\ op_id o < 2 ^ 32 - 2 ^ 18) os ->
  os <> [] ->
  run_ops os abitset_expandable_init = Some (tt, h) ->
  size h = (Z.shiftr (max_bit h) 18 + 1) * 2 ^ 18.
Proof.
  intros Hos Hne Hrun.
  assert (Hgen : forall h0,
             wf h0 ->
             (size h0 = 0 /\ max_bit h0 = 0) \/
             size h0 = (Z.shiftr (max_bit h0) 18 + 1) * 2 ^ 18 ->
             run_ops os h0 = Some (tt, h) ->
             os <> [] -> size h = (Z.shiftr (max_bit h) 18 + 1) * 2 ^ 18).
  { clear Hrun Hne. induction Hos as [|o os [Ho Hlt] Hos IH];
      intros h0 Hwf0 Hinv E Hne; [congruence|].
    cbn [run_ops] in E. unfold bind in E.
    destruct (run_op o h0) as [[[] h1]|] eqn:E1; [|discriminate].
    pose proof (size_field_step h0 o h1 Hwf0 Ho Hlt Hinv E1) as Hinv1.
    destruct (run_op_effect h0 o Hwf0 Ho) as (h1' & E1' & Hwf1 & _).
    assert (h1' = h1) as -> by congruence.
    destruct os as [|o' os'].
    - cbn [run_ops] in E. unfold ret in E.
      apply Some_inj, pair_equal_spec in E. destruct E as [_ <-]. exact Hinv1.
    - apply (IH h1); auto; congruence. }
  apply (Hgen abitset_expandable_init wf_init); auto.
Qed.

Lemma size_field_tracks_top_page_witness :
  Forall (fun o => is_u32 (op_id o) /\ op_id o < 2 ^ 32 - 2 ^ 18)
         [OpSet 70; OpSet 300000; OpUnset 9] /\
  [OpSet 70; OpSet 300000; OpUnset 9] <> [] /\
  run_ops [OpSet 70; OpSet 300000; OpUnset 9] abitset_expandable_init
    = Some (tt, sample_handle) /\
  size sample_handle = (Z.shiftr (max_bit sample_handle) 18 + 1) * 2 ^ 18.
Proof.
  assert (Hos : Forall (fun o => is_u32 (op_id o) /\ op_id o < 2 ^ 32 - 2 ^ 18)
                       [OpSet 70; OpSet 300000; OpUnset 9])
    by (repeat constructor; vm_compute; congruence).
  assert (Hne : [OpSet 70; OpSet 300000; OpUnset 9] <> []) by discriminate.
  assert (Hrun : run_ops [OpSet 70; OpSet 300000; OpUnset 9] abitset_expandable_init
                 = Some (tt, sample_handle)) by (vm_compute; reflexivity).
  split; [exact Hos|]. split; [exact Hne|]. split; [exact Hrun|].
  exact (size_field_tracks_top_page _ _ Hos Hne Hrun).
Defined.

(** ** Repeating a mutation *)

Lemma handle_ext h1 h2 :
  pages h1 = pages h2 -> page_count h1 = page_count h2 ->
  size h1 = size h2 -> max_bit h1 = max_bit h2 -> h1 = h2.
Proof. destruct h1, h2. cbn. intros -> -> -> ->. reflexivity. Qed.

Lemma expand_fixpoint h id pg :
  wf h -> is_u32 id ->
  id <= max_bit h -> Z.shiftr id 18 < page_count h ->
  pages h !! Z.to_nat (Z.shiftr id 18) = Some (Some pg) ->
  u32 (Z.shiftl (Z.shiftr id 18 + 1) 18) <= size h ->
  abitset_expandable_expand id h = Some (tt, h).
Proof.
  intros Hwf Hid Hmb Hrp Hpg Hsz.
  destruct (expand_spec h id Hwf Hid)
    as (h' & E & _ & Hmb' & _ & _ & Hsame & Hpages & Hsz').
  rewrite E. do 2 f_equal. apply handle_ext.
  - rewrite Hpages, (Hsame Hrp), Z.sub_diag. cbn [Z.to_nat replicate].
    rewrite app_nil_r. apply list_insert_id.
    unfold page_after. rewrite Hpg. reflexivity.
  - auto.
  - lia.
  - lia.
Qed.

Lemma update_word_twice f h id :
  (forall w, f (f w) = f w) ->
  wf h -> is_u32 id ->
  exec (update_word f id ;;; update_word f id) h = exec (update_word f id) h.
Proof.
  intros Hf Hwf Hid.
  destruct (update_word_effect f h id Hwf Hid)
    as (he & h1 & w & Ee & E1 & Hwfe & Hwf1 & Hw & Hh1 & Hmb & _ & Hrp & _ & Hl).
  destruct (expand_spec h id Hwf Hid) as (he' & Ee' & _ & _ & _ & _ & _ & _ & Hsz).
  assert (he' = he) as -> by congruence.
  set (rp := Z.shiftr id 18) in *.
  set (off := Z.land (Z.shiftr id 6) (PAGE_ENTRIES - 1)) in *.
  set (pg1 := <[Z.to_nat off := f w]> (page_after h rp)) in *.
  pose proof (lookup_lt_Some _ _ _ Hl) as Hlt.
  pose proof (lookup_lt_Some _ _ _ Hw) as Hlo.
  assert (Hl1 : pages h1 !! Z.to_nat rp = Some (Some pg1)).
  { rewrite Hh1. cbn [pages with_pages]. apply list_lookup_insert_eq. exact Hlt. }
  assert (Hfix : abitset_expandable_expand id h1 = Some (tt, h1)).
  { apply (expand_fixpoint h1 id pg1 Hwf1 Hid); try exact Hl1.
    - rewrite Hh1. cbn [max_bit with_pages]. lia.
    - rewrite Hh1. cbn [page_count with_pages]. exact Hrp.
    - rewrite Hh1. cbn [size with_pages]. fold rp. lia. }
  destruct (update_word_spec f h1 id Hwf1 Hid) as (h1e & w1 & E1e & Hw1 & E2).
  assert (h1e = h1) as -> by congruence.
  fold rp off in Hw1, E2.
  assert (Hpa : page_after h1 rp = pg1) by (unfold page_after; rewrite Hl1; reflexivity).
  rewrite Hpa in Hw1, E2.
  assert (Hw1' : w1 = f w).
  { subst pg1. rewrite list_lookup_insert_eq in Hw1 by exact Hlo. congruence. }
  subst w1. rewrite Hf in E2.
  rewrite (list_insert_id pg1) in E2
    by (subst pg1; apply list_lookup_insert_eq; exact Hlo).
  rewrite list_insert_id in E2 by exact Hl1.
  unfold exec, bind. rewrite E1, E2. f_equal.
  unfold with_pages. apply handle_eta.
Qed.

(** X11.  On a well-formed handle, calling [set] twice with the same id
    leaves exactly the handle that one call leaves, field for field and
    word for word; the same holds for [unset]. *)
Theorem set_and_unset_idempotent h a :
  wf h -> is_u32 a ->
  exec (abitset_expandable_set a ;;; abitset_expandable_set a) h
    = exec (abitset_expandable_set a) h /\
  exec (abitset_expandable_unset a ;;; abitset_expandable_unset a) h
    = exec (abitset_expandable_unset a) h.
Proof.
  intros Hwf Ha. rewrite !set_is_update, !unset_is_update. split.
  - apply update_word_twice; try assumption. intros w.
    rewrite <- Z.lor_assoc, Z.lor_diag. reflexivity.
  - apply update_word_twice; try assumption. intros w.
    rewrite <- Z.land_assoc, Z.land_diag. reflexivity.
Qed.

Lemma set_and_unset_idempotent_witness :
  wf sample_handle /\ is_u32 123456 /\
  exec (abitset_expandable_set 123456 ;;; abitset_expandable_set 123456) sample_handle
    = exec (abitset_expandable_set 123456) sample_handle.
Proof.
  assert (Hwf : wf sample_handle) by wf_by_evaluation.
  assert (Hid : is_u32 123456) by (unfold is_u32; lia).
  split; [exact Hwf|]. split; [exact Hid|].
  exact (proj1 (set_and_unset_idempotent sample_handle 123456 Hwf Hid)).
Defined.

(** ** Where [repr] and [load] leave their blocks *)

Lemma for_loop_fails {A} (I : A -> abitset_expandable_s -> Prop)
      (body : Z -> A -> M A) n i0 k acc h :
  I acc h ->
  (forall i a s a' s', i0 <= i < k -> I a s -> body i a s = Some (a', s') -> I a' s') ->
  (forall a s, I a s -> body k a s = None) ->
  i0 <= k < i0 + Z.of_nat n ->
  for_loop n i0 body acc h = None.
Proof.
  revert i0 acc h. induction n as [|n IH]; intros i0 acc h HI Hstep Hfail Hk; [lia|].
  cbn [for_loop]. unfold bind.
  destruct (Z.eq_dec i0 k) as [->|Hne]; [rewrite (Hfail _ _ HI); reflexivity|].
  destruct (body i0 acc h) as [[a1 s1]|] eqn:E1; [|reflexivity].
  apply IH; try assumption; try lia.
  - apply (Hstep i0 acc h); [lia | assumption | assumption].
  - intros i a s a' s' Hi. apply Hstep. lia.
Qed.

Lemma memcpy_into_empty {A} (src : list A) pos n r :
  memcpy [] pos src n = Some r -> r = [].
Proof.
  unfold memcpy. cbn [length].
  destruct (Nat.leb_spec (pos + n) 0) as [Hle|]; cbn [andb]; [|discriminate].
  destruct (n <=? length src)%nat; [|discriminate].
  intros H. injection H as <-.
  assert (pos = 0%nat) as -> by lia. assert (n = 0%nat) as -> by lia.
  reflexivity.
Qed.

Lemma top_page_allocated os h h' :
  wf h -> Forall (fun o => is_u32 (op_id o)) os ->
  max_bit h = 0 \/ page_allocated h (Z.to_nat (Z.shiftr (max_bit h) 18)) ->
  run_ops os h = Some (tt, h') ->
  max_bit h' = 0 \/ page_allocated h' (Z.to_nat (Z.shiftr (max_bit h') 18)).
Proof.
  intros Hwf Hos. revert h Hwf.
  induction Hos as [|o os Ho Hos IH]; intros h Hwf Hinv E; cbn [run_ops] in E.
  - unfold ret in E. apply Some_inj, pair_equal_spec in E. destruct E as [_ <-].
    exact Hinv.
  - unfold bind in E. destruct (run_op o h) as [[[] h1]|] eqn:E1; [|discriminate].
    destruct (run_op_effect h o Hwf Ho) as (h1' & E1' & Hwf1 & _).
    assert (h1' = h1) as -> by congruence.
    apply (IH h1 Hwf1); [|exact E].
    destruct (run_op_grows h o h1 Hwf Ho E1) as (_ & _ & Hmb & Hnew & Hkeep).
    destruct Ho as [Ho0 _]. destruct Hwf as (_ & _ & _ & [Hmb0 _] & _).
    destruct (Z.le_gt_cases (max_bit h) (op_id o)) as [Hle|Hgt].
    + right. rewrite Hmb, Z.max_r by lia. exact Hnew.
    + right. rewrite Hmb, Z.max_l by lia. apply Hkeep.
      destruct Hinv as [H0|Hal]; [lia | exact Hal].
Qed.

(** X12.  For every handle built from a fresh one by [set] and [unset]
    calls with 32-bit ids whose [max_bit] is [2^32 - 64] or more,
    [abitset_expandable_repr] is undefined: the output block is allocated
    with zero words (the 32-bit sum [size + 63] wraps) and the copy of
    page 16383 writes outside it. *)
Theorem repr_undefined_at_top os h :
  Forall (fun o => is_u32 (op_id o)) os ->
  run_ops os abitset_expandable_init = Some (tt, h) ->
  2 ^ 32 - 64 <= max_bit h ->
  abitset_expandable_repr h = None.
Proof.
  intros Hos Hrun Htop.
  pose proof (reach_inv_run_ops os _ h reach_inv_init Hos Hrun)
    as (Hwf & Hdir & _).
  pose proof Hwf as (Hpc & Hlen & _ & [_ Hmb] & _).
  assert (Hpage : Z.shiftr (max_bit h) 18 = 16383).
  { rewrite Z.shiftr_div_pow2 by lia. Z.div_mod_to_equations. lia. }
  destruct (top_page_allocated os _ h wf_init Hos (or_introl eq_refl) Hrun)
    as [H0|[pg Hpg]]; [lia|].
  rewrite Hpage in Hpg, Hdir.
  unfold abitset_expandable_repr, bind, get.
  set (sz := u32 (max_bit h + 1)).
  assert (Hsz : sz = 0 \/ 2 ^ 32 - 63 <= sz < 2 ^ 32).
  { subst sz. unfold u32. Z.div_mod_to_equations. lia. }
  assert (HN : Z.shiftr (u32 (sz + 63)) 6 = 0).
  { unfold u32. rewrite Z.shiftr_div_pow2 by lia. Z.div_mod_to_equations. lia. }
  rewrite HN. change (replicate (Z.to_nat 0) 0) with (@nil Z).
  apply (for_loop_fails (fun r s => r = [] /\ s = h) _ _ _ 16383).
  - split; reflexivity.
  - intros i a s a' s' _ [-> ->] E.
    unfold repr_copy_page, read_page_ptr, bind, get in E.
    destruct (pages h !! Z.to_nat i) as [[pgi|]|]; cbn [lift] in E;
      try discriminate.
    + match type of E with
      | context [memcpy ?d ?p ?s ?n] =>
          destruct (memcpy d p s n) as [r'|] eqn:Em
      end; cbn [lift] in E; [|discriminate].
      apply memcpy_into_empty in Em. subst r'.
      injection E as <- <-. split; reflexivity.
    + unfold ret in E. injection E as <- <-. split; reflexivity.
  - intros a s [-> ->].
    unfold repr_copy_page, read_page_ptr, bind, get. rewrite Hpg. cbn [lift].
    change (u32 (Z.shiftl (u32 (Z.shiftl 16383 9)) 6)) with 536838144.
    change (Z.shiftl PAGE_ENTRIES 6) with 32768.
    assert (Hbr : (u32 (sz - 536838144) >=? 32768) = true).
    { apply Z.geb_le. unfold u32. Z.div_mod_to_equations. lia. }
    rewrite Hbr. reflexivity.
  - lia.
Qed.

Lemma repr_undefined_at_top_witness :
  Forall (fun o => is_u32 (op_id o)) [OpSet 5; OpSet 4294967295] /\
  run_ops [OpSet 5; OpSet 4294967295] abitset_expandable_init = Some (tt, top_handle) /\
  2 ^ 32 - 64 <= max_bit top_handle /\
  abitset_expandable_repr top_handle = None.
Proof.
  assert (Hos : Forall (fun o => is_u32 (op_id o)) [OpSet 5; OpSet 4294967295])
    by (repeat constructor; vm_compute; congruence).
  assert (Hrun : run_ops [OpSet 5; OpSet 4294967295] abitset_expandable_init
                 = Some (tt, top_handle)) by (vm_compute; reflexivity).
  assert (Htop : 2 ^ 32 - 64 <= max_bit top_handle) by (vm_compute; congruence).
  split; [exact Hos|]. split; [exact Hrun|]. split; [exact Htop|].
  exact (repr_undefined_at_top _ _ Hos Hrun Htop).
Defined.

Lemma load_entry_directory_length r i s s' :
  load_entry r i s = Some (tt, s') -> length (pages s') = length (pages s).
Proof.
  unfold load_entry, bind at 1. destruct (r !! Z.to_nat i) as [v|]; cbn [lift];
    [|discriminate].
  destruct (v =? 0).
  { unfold ret. intros H. injection H as <-. reflexivity. }
  unfold bind at 1, alloc_page_if_null, read_page_ptr, bind at 1, bind at 1, get at 1.
  destruct (pages s !! Z.to_nat (Z.shiftr i 9)) as [[pg|]|] eqn:Ep; cbn [lift];
    try discriminate.
  - unfold ret at 1. unfold write_word, read_page_ptr, bind, get. rewrite Ep.
    cbn [lift]. destruct (_ <? length pg)%nat; [|discriminate].
    unfold write_page_ptr, bind, get. destruct (_ <? length (pages s))%nat;
      [|discriminate].
    unfold put. intros H. injection H as <-. cbn [pages with_pages].
    apply length_insert.
  - unfold write_page_ptr at 1, bind at 1, get at 1.
    destruct (Z.to_nat (Z.shiftr i 9) <? length (pages s))%nat eqn:El;
      [|discriminate].
    unfold put at 1.
    set (s1 := with_pages (<[Z.to_nat (Z.shiftr i 9) := Some zalloc_page]> (pages s)) s).
    unfold write_word, read_page_ptr, bind, get.
    destruct (pages s1 !! Z.to_nat (Z.shiftr i 9)) as [[pg|]|]; cbn [lift];
      try discriminate.
    destruct (_ <? length pg)%nat; [|discriminate].
    unfold write_page_ptr, bind, get. destruct (_ <? length (pages s1))%nat;
      [|discriminate].
    unfold put. intros H. injection H as <-. cbn [pages with_pages].
    rewrite length_insert. subst s1. cbn [pages with_pages]. apply length_insert.
Qed.

(** X13.  [abitset_expandable_load] does not check the array against the
    declared bit count: when the array has fewer words than
    [(size + 63) >> 6], the word loop reads past its end and the call is
    undefined, whatever the words are. *)
Theorem load_short_array_undefined (r : list Z) (sz : Z) :
  Z.of_nat (length r) < Z.shiftr (u32 (sz + 63)) 6 ->
  abitset_expandable_load r sz = None.
Proof.
  intros Hlen. unfold abitset_expandable_load, exec, bind at 1.
  destruct (abitset_expandable_expand (u32 (sz - 1)) abitset_expandable_init)
    as [[[] h0]|]; [|reflexivity].
  unfold bind at 1.
  rewrite (for_loop_fails (fun _ _ => True) (fun i _ => load_entry r i) _ 0
                          (Z.of_nat (length r)) tt h0); auto; try lia.
  intros a s _. unfold load_entry, bind.
  rewrite Nat2Z.id, lookup_ge_None_2 by lia. reflexivity.
Qed.

Lemma load_short_array_undefined_witness :
  Z.of_nat (length [5; 0]) < Z.shiftr (u32 (130 + 63)) 6 /\
  abitset_expandable_load [5; 0] 130 = None.
Proof.
  assert (H : Z.of_nat (length [5; 0]) < Z.shiftr (u32 (130 + 63)) 6)
    by (vm_compute; reflexivity).
  split; [exact H|]. exact (load_short_array_undefined [5; 0] 130 H).
Defined.

(** X14.  [abitset_expandable_load] sizes the directory for page
    [(size - 1) >> 18] but stores input word [i] in page [i >> 9].  For a
    declared bit count of at most [2^29] the directory keeps its 2048
    entries, so a non-zero input word at an index of [2^20] or more makes
    the call read the directory past its end: the call is undefined. *)
Theorem load_word_beyond_directory (r : list Z) (sz k v : Z) :
  1 <= sz <= 2 ^ 29 ->
  2 ^ 20 <= k < Z.shiftr (u32 (sz + 63)) 6 ->
  r !! Z.to_nat k = Some v -> v <> 0 ->
  abitset_expandable_load r sz = None.
Proof.
  intros Hsz Hk Hv Hv0.
  assert (Hid : is_u32 (u32 (sz - 1))) by apply u32_range.
  assert (Hu : u32 (sz - 1) = sz - 1) by (unfold u32; apply Z.mod_small; lia).
  destruct (expand_spec _ _ wf_init Hid)
    as (h0 & E0 & Hwf0 & _ & _ & _ & Hsame & _).
  assert (Hpc0 : page_count h0 = 2048).
  { apply Hsame. rewrite Hu, Z.shiftr_div_pow2 by lia.
    change (page_count abitset_expandable_init) with 2048.
    Z.div_mod_to_equations. lia. }
  destruct Hwf0 as (_ & Hlen0 & _).
  unfold abitset_expandable_load, exec, bind at 1. rewrite E0.
  unfold bind at 1.
  rewrite (for_loop_fails
             (fun _ s => length (pages s) = length (pages h0))
             (fun i _ => load_entry r i) _ 0 k tt h0); auto; try lia.
  - intros i [] s [] s' _ Hs E. rewrite <- Hs.
    apply (load_entry_directory_length r i). exact E.
  - intros a s Hs. unfold load_entry, bind at 1. rewrite Hv. cbn [lift].
    rewrite (proj2 (Z.eqb_neq v 0) Hv0).
    unfold bind at 1, alloc_page_if_null, read_page_ptr, bind at 1, bind at 1, get at 1.
    rewrite lookup_ge_None_2; [reflexivity|].
    rewrite Hs. rewrite Z.shiftr_div_pow2 by lia.
    assert (2048 <= k / 2 ^ 9) by (Z.div_mod_to_equations; lia). lia.
Qed.

Lemma load_word_beyond_directory_witness :
  1 <= 67108928 <= 2 ^ 29 /\
  2 ^ 20 <= 1048576 < Z.shiftr (u32 (67108928 + 63)) 6 /\
  (replicate (Z.to_nat 1048576) 0 ++ [1]) !! Z.to_nat 1048576 = Some 1 /\
  1 <> 0 /\
  abitset_expandable_load (replicate (Z.to_nat 1048576) 0 ++ [1]) 67108928 = None.
Proof.
  assert (H1 : 1 <= 67108928 <= 2 ^ 29) by lia.
  assert (H2 : 2 ^ 20 <= 1048576 < Z.shiftr (u32 (67108928 + 63)) 6)
    by (split; vm_compute; congruence).
  assert (H3 : (replicate (Z.to_nat 1048576) 0 ++ [1]) !! Z.to_nat 1048576 = Some 1).
  { rewrite lookup_app_r by (rewrite length_replicate; lia).
    rewrite length_replicate, Nat.sub_diag. reflexivity. }
  assert (H4 : 1 <> 0) by lia.
  split; [exact H1|]. split; [exact H2|]. split; [exact H3|]. split; [exact H4|].
  exact (load_word_beyond_directory _ 67108928 1048576 1 H1 H2 H3 H4).
Defined.

(** ** Counting bits and summing over lists *)

Lemma bits_set_bounds n w : 0 <= bits_set n w <= Z.of_nat n.
Proof.
  revert w. induction n as [|n IH]; intros w; cbn [bits_set]; [lia|].
  specialize (IH (Z.div2 w)). destruct (Z.odd w); cbn [Z.b2z]; lia.
Qed.

Lemma bits_set_0 n : bits_set n 0 = 0.
Proof. induction n as [|n IH]; cbn [bits_set]; [reflexivity|]. exact IH. Qed.

Lemma odd_land a b : Z.odd (Z.land a b) = Z.odd a && Z.odd b.
Proof. rewrite <- !Z.bit0_odd. apply Z.land_spec. Qed.

Lemma div2_land a b : Z.div2 (Z.land a b) = Z.land (Z.div2 a) (Z.div2 b).
Proof. rewrite !Z.div2_spec. apply Z.shiftr_land. Qed.

Lemma bits_set_clear_lowest n w :
  0 < w < 2 ^ Z.of_nat n ->
  bits_set n (Z.land w (w - 1)) = bits_set n w - 1.
Proof.
  revert w. induction n as [|n IH]; intros w Hw.
  - change (2 ^ Z.of_nat 0) with 1 in Hw. lia.
  - cbn [bits_set]. rewrite odd_land, div2_land.
    rewrite Nat2Z.inj_succ, Z.pow_succ_r in Hw by lia.
    destruct (Z.odd w) eqn:Eo.
    + apply Z.odd_spec in Eo. destruct Eo as [q ->].
      replace (2 * q + 1 - 1) with (2 * q) by lia.
      rewrite Z.odd_mul. cbn [Z.odd andb Z.b2z].
      rewrite Z.div2_div, Z.div2_div.
      replace ((2 * q + 1) / 2) with q by (Z.div_mod_to_equations; lia).
      replace (2 * q / 2) with q by (Z.div_mod_to_equations; lia).
      rewrite Z.land_diag. lia.
    + cbn [andb Z.b2z].
      assert (Ee : Z.even w = true) by (rewrite <- Z.negb_odd, Eo; reflexivity).
      apply Z.even_spec in Ee. destruct Ee as [q ->].
      rewrite !Z.div2_div.
      replace (2 * q / 2) with q by (Z.div_mod_to_equations; lia).
      replace ((2 * q - 1) / 2) with (q - 1) by (Z.div_mod_to_equations; lia).
      rewrite IH by lia. lia.
Qed.

Lemma clear_lowest_bits_counts fuel w c :
  0 <= w < 2 ^ 64 -> bits_set 64 w <= Z.of_nat fuel -> is_u32 c ->
  clear_lowest_bits fuel w c = u32 (c + bits_set 64 w).
Proof.
  revert w c. induction fuel as [|fuel IH]; intros w c Hw Hf Hc.
  - cbn [clear_lowest_bits]. pose proof (bits_set_bounds 64 w).
    replace (bits_set 64 w) with 0 by lia. rewrite Z.add_0_r.
    unfold u32. symmetry. apply Z.mod_small. exact Hc.
  - cbn [clear_lowest_bits]. destruct (Z.eqb_spec w 0) as [->|Hne].
    + rewrite bits_set_0, Z.add_0_r. unfold u32. symmetry.
      apply Z.mod_small. exact Hc.
    + pose proof (bits_set_clear_lowest 64 w ltac:(change (Z.of_nat 64) with 64; lia))
        as Hk.
      rewrite IH.
      * rewrite Hk. unfold u32. rewrite Z.add_mod_idemp_l by lia. f_equal. lia.
      * apply clear_step_bounds. lia.
      * lia.
      * apply u32_range.
Qed.

Lemma sumZ_app {A} (f : A -> Z) l1 l2 : sumZ f (l1 ++ l2) = sumZ f l1 + sumZ f l2.
Proof.
  unfold sumZ. induction l1 as [|x l1 IH]; cbn [foldr app]; [lia|].
  rewrite IH. lia.
Qed.

Lemma sumZ_take_S {A} (f : A -> Z) l i x :
  l !! i = Some x -> sumZ f (take (S i) l) = sumZ f (take i l) + f x.
Proof.
  intros H. rewrite (take_S_r _ _ _ H), sumZ_app. unfold sumZ. cbn [foldr]. lia.
Qed.

(** ** What [load] builds *)

Lemma sumZ_insert {A} (f : A -> Z) l i x y :
  l !! i = Some x -> sumZ f (<[i := y]> l) = sumZ f l - f x + f y.
Proof.
  intros H. pose proof (lookup_lt_Some _ _ _ H) as Hlt.
  rewrite insert_take_drop by exact Hlt.
  rewrite <- (take_drop_middle l i x H) at 3.
  rewrite !sumZ_app. unfold sumZ. cbn [foldr]. lia.
Qed.

Lemma sumZ_zero {A} (f : A -> Z) l :
  (forall x, x ∈ l -> f x = 0) -> sumZ f l = 0.
Proof.
  induction l as [|x l IH]; intros H; unfold sumZ; cbn [foldr]; [reflexivity|].
  fold (sumZ f l). rewrite IH, (H x); [lia | left |].
  intros z Hz. apply H. right. exact Hz.
Qed.

Lemma zalloc_page_bits : page_bits (Some zalloc_page) = 0.
Proof.
  cbn [page_bits]. apply sumZ_zero. intros x Hx.
  apply elem_of_replicate in Hx. destruct Hx as [-> _]. apply bits_set_0.
Qed.

Lemma page_after_bits s p q :
  pages s !! Z.to_nat p = Some q -> page_bits q = page_bits (Some (page_after s p)).
Proof.
  intros Hq. unfold page_after. rewrite Hq. destruct q; [reflexivity|].
  symmetry. apply zalloc_page_bits.
Qed.

Lemma load_entry_total_bits r i v s s' :
  wf s -> 0 <= i -> i / 512 < page_count s ->
  r !! Z.to_nat i = Some v -> v <> 0 ->
  load_entry r i s = Some (tt, s') ->
  total_bits s' =
    total_bits s - bits_set 64 (stored_word s (i / 512) (i mod 512)) + bits_set 64 v.
Proof.
  intros Hwf Hi Hpage Hv Hnz. pose proof Hwf as (Hpc & Hl & Hsz & Hmb & Hok).
  assert (Hq : 0 <= i / 512) by (Z.div_mod_to_equations; lia).
  pose proof (Z.mod_pos_bound i 512 ltac:(lia)) as Hm.
  unfold load_entry, bind at 1. rewrite Hv. cbn [lift].
  rewrite (proj2 (Z.eqb_neq v 0) Hnz).
  rewrite Z.shiftr_div_pow2 by lia. change (2 ^ 9) with 512.
  change (PAGE_ENTRIES - 1) with (Z.ones 9). rewrite Z.land_ones by lia.
  change (2 ^ 9) with 512.
  unfold bind. rewrite alloc_page_if_null_spec by lia.
  set (pa := page_after s (i / 512)).
  set (s1 := with_pages (<[Z.to_nat (i / 512) := Some pa]> (pages s)) s).
  assert (Hl1 : pages s1 !! Z.to_nat (i / 512) = Some (Some pa)).
  { subst s1. cbn [pages with_pages]. apply list_lookup_insert_eq. lia. }
  pose proof (page_after_length s (i / 512) Hok) as Hlen. fold pa in Hlen.
  rewrite (write_word_spec s1 _ _ _ v Hl1) by lia.
  intros E. apply Some_inj, pair_equal_spec in E. destruct E as [_ <-].
  destruct (lookup_lt_is_Some_2 (pages s) (Z.to_nat (i / 512))) as [q Hq']; [lia|].
  destruct (lookup_lt_is_Some_2 pa (Z.to_nat (i mod 512))) as [x Hx]; [lia|].
  assert (Hsx : stored_word s (i / 512) (i mod 512) = x).
  { rewrite <- stored_word_page_after. fold pa. rewrite Hx. reflexivity. }
  unfold total_bits. cbn [pages with_pages].
  rewrite (sumZ_insert _ _ _ _ _ Hl1). subst s1. cbn [pages with_pages].
  rewrite (sumZ_insert _ _ _ _ _ Hq'). rewrite (page_after_bits s _ _ Hq'). fold pa.
  cbn [page_bits]. rewrite (sumZ_insert _ _ _ _ _ Hx), Hsx. lia.
Qed.

Lemma expand_init_total_bits id h0 :
  is_u32 id ->
  abitset_expandable_expand id abitset_expandable_init = Some (tt, h0) ->
  total_bits h0 = 0.
Proof.
  intros Hid E.
  destruct (expand_spec _ id wf_init Hid) as (h0' & E' & _ & _ & _ & _ & _ & Hpages & _).
  assert (h0' = h0) as -> by congruence.
  unfold total_bits. apply sumZ_zero. intros x Hx.
  apply list_elem_of_lookup in Hx. destruct Hx as [k Hk]. rewrite Hpages in Hk.
  apply list_lookup_insert_Some in Hk.
  destruct Hk as [(_ & <- & _)|(_ & Hk)].
  - unfold page_after, abitset_expandable_init. cbn [pages].
    destruct (replicate _ _ !! _) as [q|] eqn:Eq; [|apply zalloc_page_bits].
    apply lookup_replicate in Eq. destruct Eq as [-> _]. apply zalloc_page_bits.
  - unfold abitset_expandable_init in Hk. cbn [pages] in Hk.
    apply lookup_app_Some in Hk.
    destruct Hk as [Hk|[_ Hk]]; apply lookup_replicate in Hk;
      destruct Hk as [-> _]; reflexivity.
Qed.

Lemma load_words r mb :
  0 <= mb < 2 ^ 32 - 64 ->
  (mb + 64) / 64 <= Z.of_nat (length r) ->
  (forall j v, 0 <= j < (mb + 64) / 64 -> r !! Z.to_nat j = Some v -> v <> 0 ->
               j / 512 < 2048 \/ j / 512 <= Z.shiftr mb 18) ->
  exists h',
    abitset_expandable_load r (mb + 1) = Some h' /\
    wf h' /\ max_bit h' = mb /\ Z.shiftr mb 18 < page_count h' /\
    (forall j, 0 <= j ->
       stored_word h' (j / 512) (j mod 512) =
         if j <? (mb + 64) / 64 then default 0 (r !! Z.to_nat j) else 0) /\
    total_bits h' = sumZ (bits_set 64) (take (Z.to_nat ((mb + 64) / 64)) r).
Proof.
  intros Hmb Hlen Hnz.
  assert (Hid : is_u32 mb) by (unfold is_u32; lia).
  destruct (repr_copy_arith mb 0 ltac:(lia) ltac:(lia) ltac:(lia)) as (E1 & EN & _).
  rewrite E1 in EN.
  unfold abitset_expandable_load. rewrite EN.
  replace (u32 (mb + 1 - 1)) with mb
    by (unfold u32; rewrite Z.mod_small; lia).
  set (N := (mb + 64) / 64) in *.
  assert (HN : 0 <= N) by (subst N; Z.div_mod_to_equations; lia).
  destruct (expand_spec _ mb wf_init Hid)
    as (h0 & E0 & Hwf0 & _ & Hpc0 & Hrp & _ & _ & _).
  change (page_count abitset_expandable_init) with 2048 in Hpc0.
  pose proof (expand_init_stored_word mb h0 Hid E0) as Hzero.
  pose proof (expand_init_total_bits mb h0 Hid E0) as Hzero'.
  destruct (for_loop_invariant
              (fun i (_ : unit) s =>
                 wf s /\ page_count s = page_count h0 /\
                 (forall j, 0 <= j ->
                    stored_word s (j / 512) (j mod 512) =
                      if j <? i then default 0 (r !! Z.to_nat j) else 0) /\
                 total_bits s = sumZ (bits_set 64) (take (Z.to_nat i) r))
              (fun i _ => load_entry r i) (Z.to_nat N) 0 tt h0)
    as ([] & s & E & Hwfs & Hpcs & Hs & Htot).
  - split; [assumption|]. split; [reflexivity|]. split; [|exact Hzero'].
    intros j Hj. rewrite Hzero. destruct (Z.ltb_spec j 0); [lia | reflexivity].
  - intros i [] s Hi (Hwfs & Hpcs & Hs & Htot).
    destruct (lookup_lt_is_Some_2 r (Z.to_nat i)) as [v Hv]; [lia|].
    replace (Z.to_nat (i + 1)) with (S (Z.to_nat i)) by lia.
    rewrite (sumZ_take_S _ _ _ _ Hv).
    destruct (Z.eq_dec v 0) as [->|Hv0].
    + exists tt, s. split; [apply load_entry_zero; assumption|].
      split; [assumption|]. split; [assumption|]. split.
      * intros j Hj. rewrite Hs by assumption.
        destruct (Z.ltb_spec j i); destruct (Z.ltb_spec j (i + 1));
          try reflexivity; try lia.
        assert (j = i) as -> by lia. rewrite Hv. reflexivity.
      * rewrite bits_set_0. lia.
    + pose proof (Hnz i v ltac:(lia) Hv Hv0) as Hpage.
      destruct (load_entry_nonzero r i v s Hwfs ltac:(lia) ltac:(lia) Hv Hv0)
        as (s' & E' & Hwf' & Hpc' & _ & Hs').
      exists tt, s'. split; [exact E'|]. split; [assumption|].
      split; [congruence|]. split.
      * intros j Hj.
        assert (0 <= j / 512) by (Z.div_mod_to_equations; lia).
        pose proof (Z.mod_pos_bound j 512 ltac:(lia)).
        rewrite Hs' by lia. rewrite Hs by assumption.
        destruct (Z.eqb_spec (j / 512) (i / 512)) as [Hq|Hq];
          destruct (Z.eqb_spec (j mod 512) (i mod 512)) as [Hr|Hr]; cbn [andb].
        -- assert (j = i) as -> by (Z.div_mod_to_equations; lia).
           rewrite Hv. destruct (Z.ltb_spec i (i + 1)); [reflexivity | lia].
        -- assert (j <> i) by congruence. split_ltb.
        -- assert (j <> i) by congruence. split_ltb.
        -- assert (j <> i) by congruence. split_ltb.
      * rewrite (load_entry_total_bits r i v s s' Hwfs ltac:(lia) ltac:(lia)
                                       Hv Hv0 E').
        rewrite (Hs i ltac:(lia)).
        destruct (Z.ltb_spec i i); [lia|]. rewrite bits_set_0. lia.
  - exists (with_max_bit mb s). split.
    { unfold exec, bind. rewrite E0, E. reflexivity. }
    destruct Hwfs as (H1 & H2 & H3 & _ & H5).
    split.
    { unfold wf, is_u32 in *. cbn [pages page_count size max_bit with_max_bit].
      repeat (split; [assumption || lia|]). assumption. }
    split; [reflexivity|]. split; [cbn [page_count with_max_bit]; lia|].
    rewrite Z.add_0_l, Z2Nat.id in Hs by lia.
    rewrite Z.add_0_l, Nat2Z.id in Htot.
    split; [|exact Htot].
    intros j Hj. change (stored_word (with_max_bit mb s)) with (stored_word s).
    apply Hs. exact Hj.
Qed.

Lemma word_index_bound mb id :
  0 <= id -> id < mb ->
  0 <= 512 * Z.shiftr id 18 + Z.land (Z.shiftr id 6) (PAGE_ENTRIES - 1)
    < (mb + 64) / 64 /\
  (512 * Z.shiftr id 18 + Z.land (Z.shiftr id 6) (PAGE_ENTRIES - 1)) / 512
    = Z.shiftr id 18 /\
  (512 * Z.shiftr id 18 + Z.land (Z.shiftr id 6) (PAGE_ENTRIES - 1)) mod 512
    = Z.land (Z.shiftr id 6) (PAGE_ENTRIES - 1).
Proof.
  intros H0 Hlt. change (PAGE_ENTRIES - 1) with (Z.ones 9).
  rewrite Z.land_ones by lia. rewrite !Z.shiftr_div_pow2 by lia.
  repeat split; Z.div_mod_to_equations; lia.
Qed.

(** X15.  For a declared bit count [n] between 1 and [2^26] and an array
    of at least [(n + 63) / 64] words, [abitset_expandable_load] returns a
    well-formed handle with [max_bit = n - 1], in which the query for any
    32-bit id answers false when [id >= n - 1] and otherwise answers bit
    [id & 63] of input word [512 * (id >> 18) + ((id >> 6) & 511)]. *)
Theorem load_then_test (r : list Z) (n : Z) :
  1 <= n <= 2 ^ 26 ->
  (n + 63) / 64 <= Z.of_nat (length r) ->
  exists h',
    abitset_expandable_load r n = Some h' /\
    wf h' /\ max_bit h' = n - 1 /\
    forall id, is_u32 id ->
      abitset_expandable_enabled id h' =
        Some ((id <? n - 1) &&
              Z.testbit
                (default 0 (r !! Z.to_nat (512 * Z.shiftr id 18 +
                                           Z.land (Z.shiftr id 6) (PAGE_ENTRIES - 1))))
                (Z.land id 63), h').
Proof.
  intros Hn Hlen.
  destruct (load_words r (n - 1)) as (h' & El & Hwf & Hmb & Hpc & Hs & _).
  - lia.
  - replace (n - 1 + 64) with (n + 63) by lia. exact Hlen.
  - intros j v Hj _ _. left. Z.div_mod_to_equations. lia.
  - replace (n - 1 + 1) with n in El by lia.
    exists h'. split; [exact El|]. split; [exact Hwf|]. split; [exact Hmb|].
    intros id Hid. rewrite enabled_stored_word by assumption. rewrite Hmb.
    destruct (Z.geb_spec id (n - 1)) as [Hge|Hlt];
      destruct (Z.ltb_spec id (n - 1)); try lia; [reflexivity|]. cbn [andb].
    assert (Hp : Z.shiftr id 18 <= Z.shiftr (n - 1) 18) by (apply shiftr18_mono; lia).
    destruct (Z.geb_spec (Z.shiftr id 18) (page_count h')); [lia|].
    destruct Hid as [Hid0 _].
    destruct (word_index_bound (n - 1) id Hid0 Hlt) as (Hj & Hq & Hm).
    pose proof (Hs _ (proj1 Hj)) as Hw. rewrite Hq, Hm in Hw. rewrite Hw.
    destruct (Z.ltb_spec (512 * Z.shiftr id 18 +
                          Z.land (Z.shiftr id 6) (PAGE_ENTRIES - 1))
                         ((n - 1 + 64) / 64)); [reflexivity | lia].
Qed.

Lemma load_then_test_witness :
  1 <= 130 <= 2 ^ 26 /\
  (130 + 63) / 64 <= Z.of_nat (length [5; 0; 3]) /\
  exists h', abitset_expandable_load [5; 0; 3] 130 = Some h' /\ max_bit h' = 129.
Proof.
  assert (H1 : 1 <= 130 <= 2 ^ 26) by lia.
  assert (H2 : (130 + 63) / 64 <= Z.of_nat (length [5; 0; 3]))
    by (vm_compute; congruence).
  split; [exact H1|]. split; [exact H2|].
  destruct (load_then_test [5; 0; 3] 130 H1 H2) as (h' & E & _ & Hmb & _).
  exists h'. split; [exact E | exact Hmb].
Defined.

(** X16.  For a declared bit count [n] between 1 and [32768] the loaded
    handle is the dense array bit for bit, except for its last position:
    the query for a 32-bit id answers bit [id mod 64] of input word
    [id / 64] when [id < n - 1], and false otherwise. *)
Theorem load_small_array_is_dense (r : list Z) (n : Z) :
  1 <= n <= 32768 ->
  (n + 63) / 64 <= Z.of_nat (length r) ->
  exists h',
    abitset_expandable_load r n = Some h' /\
    forall id, is_u32 id ->
      abitset_expandable_enabled id h' =
        Some ((id <? n - 1) &&
              Z.testbit (default 0 (r !! Z.to_nat (id / 64))) (id mod 64), h').
Proof.
  intros Hn Hlen.
  destruct (load_words r (n - 1)) as (h' & El & Hwf & Hmb & Hpc & Hs & _).
  - lia.
  - replace (n - 1 + 64) with (n + 63) by lia. exact Hlen.
  - intros j v Hj _ _. left. Z.div_mod_to_equations. lia.
  - replace (n - 1 + 1) with n in El by lia.
    exists h'. split; [exact El|].
    intros id Hid. rewrite enabled_stored_word by assumption. rewrite Hmb.
    destruct (Z.geb_spec id (n - 1)) as [Hge|Hlt];
      destruct (Z.ltb_spec id (n - 1)); try lia; [reflexivity|]. cbn [andb].
    assert (Hp : Z.shiftr id 18 <= Z.shiftr (n - 1) 18) by (apply shiftr18_mono; lia).
    destruct (Z.geb_spec (Z.shiftr id 18) (page_count h')); [lia|].
    destruct Hid as [Hid0 _].
    assert (Hpage : Z.shiftr id 18 = 0).
    { rewrite Z.shiftr_div_pow2 by lia. Z.div_mod_to_equations. lia. }
    assert (Hoff : Z.land (Z.shiftr id 6) (PAGE_ENTRIES - 1) = id / 64).
    { change (PAGE_ENTRIES - 1) with (Z.ones 9). rewrite Z.land_ones by lia.
      rewrite Z.shiftr_div_pow2 by lia. Z.div_mod_to_equations. lia. }
    assert (Hbit : Z.land id 63 = id mod 64).
    { change 63 with (Z.ones 6). apply Z.land_ones. lia. }
    rewrite Hpage, Hoff, Hbit.
    assert (Hq : 0 <= id / 64 < 512) by (Z.div_mod_to_equations; lia).
    pose proof (Hs (id / 64) (proj1 Hq)) as Hw.
    rewrite Z.div_small, Z.mod_small in Hw by lia. rewrite Hw.
    destruct (Z.ltb_spec (id / 64) ((n - 1 + 64) / 64)); [reflexivity|].
    Z.div_mod_to_equations. lia.
Qed.

Lemma load_small_array_is_dense_witness :
  1 <= 130 <= 32768 /\
  (130 + 63) / 64 <= Z.of_nat (length [5; 0; 3]) /\
  exists h', abitset_expandable_load [5; 0; 3] 130 = Some h' /\
             abitset_expandable_enabled 2 h' = Some (true, h').
Proof.
  assert (H1 : 1 <= 130 <= 32768) by lia.
  assert (H2 : (130 + 63) / 64 <= Z.of_nat (length [5; 0; 3]))
    by (vm_compute; congruence).
  split; [exact H1|]. split; [exact H2|].
  destruct (load_small_array_is_dense [5; 0; 3] 130 H1 H2) as (h' & E & Hen).
  exists h'. split; [exact E|].
  exact (Hen 2 ltac:(unfold is_u32; lia)).
Defined.

(** ** The layout of [repr] *)

(** X17.  For every handle built from a fresh one by [set] and [unset]
    calls with 32-bit ids whose [max_bit] is below [2^32 - 64], [repr]
    returns, leaves the handle unchanged, and yields [(max_bit >> 6) + 1]
    words; the answer of the query for an id below [max_bit] is bit
    [id & 63] of output word [512 * (id >> 18) + ((id >> 6) & 511)].  Page
    [p] of the handle thus lands at word [512 * p], not at the word
    [id / 64] of its first id. *)
Theorem repr_layout os h :
  Forall (fun o => is_u32 (op_id o)) os ->
  run_ops os abitset_expandable_init = Some (tt, h) ->
  max_bit h < 2 ^ 32 - 64 ->
  exists r,
    abitset_expandable_repr h = Some (r, h) /\
    Z.of_nat (length r) = Z.shiftr (max_bit h) 6 + 1 /\
    forall id, 0 <= id < max_bit h ->
      exists w,
        r !! Z.to_nat (512 * Z.shiftr id 18 + Z.land (Z.shiftr id 6) (PAGE_ENTRIES - 1))
          = Some w /\
        abitset_expandable_enabled id h = Some (Z.testbit w (Z.land id 63), h).
Proof.
  intros Hos Hrun Htop.
  pose proof (reach_inv_run_ops os _ h reach_inv_init Hos Hrun) as Hinv.
  pose proof Hinv as (Hwf & _). pose proof Hwf as (_ & _ & _ & [Hmb0 Hmb1] & _).
  destruct (repr_spec h Hinv Htop) as (r & Er & Hlen & Hr).
  exists r. split; [exact Er|]. split.
  { rewrite Hlen, Z.shiftr_div_pow2 by lia. Z.div_mod_to_equations. lia. }
  intros id [Hid0 Hlt].
  destruct (word_index_bound (max_bit h) id Hid0 Hlt) as (Hj & Hq & Hm).
  pose proof (Hr _ Hj) as Hw. rewrite Hq, Hm in Hw.
  eexists. split; [exact Hw|].
  apply enabled_below_max_bit; [exact Hwf | unfold is_u32; lia | exact Hlt].
Qed.

Lemma repr_layout_witness :
  Forall (fun o => is_u32 (op_id o)) [OpSet 70; OpSet 300000; OpUnset 9] /\
  run_ops [OpSet 70; OpSet 300000; OpUnset 9] abitset_expandable_init
    = Some (tt, sample_handle) /\
  max_bit sample_handle < 2 ^ 32 - 64 /\
  exists r,
    abitset_expandable_repr sample_handle = Some (r, sample_handle) /\
    Z.of_nat (length r) = Z.shiftr (max_bit sample_handle) 6 + 1.
Proof.
  assert (Hos : Forall (fun o => is_u32 (op_id o)) [OpSet 70; OpSet 300000; OpUnset 9])
    by (repeat constructor; vm_compute; congruence).
  assert (Hrun : run_ops [OpSet 70; OpSet 300000; OpUnset 9] abitset_expandable_init
                 = Some (tt, sample_handle)) by (vm_compute; reflexivity).
  assert (Htop : max_bit sample_handle < 2 ^ 32 - 64) by (vm_compute; reflexivity).
  split; [exact Hos|]. split; [exact Hrun|]. split; [exact Htop|].
  destruct (repr_layout _ _ Hos Hrun Htop) as (r & E & Hlen & _).
  exists r. split; [exact E | exact Hlen].
Defined.

(** ** [count] *)

(** The word loop of [count] over one allocated page. *)
Lemma count_page_loop h i pg c :
  pages h !! Z.to_nat i = Some (Some pg) ->
  length pg = Z.to_nat PAGE_ENTRIES ->
  (forall j w, pg !! j = Some w -> 0 <= w < 2 ^ 64) ->
  is_u32 c ->
  for_loop (Z.to_nat PAGE_ENTRIES) 0
           (fun j count => val <~ read_word i j ;;
                           ret (clear_lowest_bits 64 val count)) c h
  = Some (u32 (c + sumZ (bits_set 64) pg), h).
Proof.
  intros Hp Hlen Hrange Hc.
  destruct (for_loop_invariant
              (fun j c' s => s = h /\
                             c' = u32 (c + sumZ (bits_set 64) (take (Z.to_nat j) pg)))
              (fun j count => val <~ read_word i j ;;
                              ret (clear_lowest_bits 64 val count))
              (Z.to_nat PAGE_ENTRIES) 0 c h)
    as (c' & s & E & -> & ->).
  - split; [reflexivity|]. cbn [Z.to_nat take]. unfold sumZ. cbn [foldr].
    rewrite Z.add_0_r. unfold u32. symmetry. apply Z.mod_small. exact Hc.
  - intros j a s Hj [-> ->].
    destruct (lookup_lt_is_Some_2 pg (Z.to_nat j)) as [w Hw]; [lia|].
    eexists _, h. unfold bind. rewrite (read_word_spec h i j pg w Hp Hw).
    split; [reflexivity|]. split; [reflexivity|].
    rewrite clear_lowest_bits_counts.
    + replace (Z.to_nat (j + 1)) with (S (Z.to_nat j)) by lia.
      rewrite (sumZ_take_S _ _ _ _ Hw). unfold u32.
      rewrite Z.add_mod_idemp_l by lia. f_equal. lia.
    + apply (Hrange _ _ Hw).
    + pose proof (bits_set_bounds 64 w). lia.
    + apply u32_range.
  - rewrite E. do 2 f_equal. rewrite Z.add_0_l, Nat2Z.id, <- Hlen, firstn_all.
    reflexivity.
Qed.

(** The two loops of [count] on a well-formed handle whose stored words
    are 64-bit values: the 32-bit counter ends at the number of stored 1
    bits modulo [2^32]. *)
Lemma count_spec h :
  wf h -> words_in_range h ->
  abitset_expandable_count h = Some (u32 (total_bits h), h).
Proof.
  intros (Hpc & Hlen & _ & _ & Hok) Hrange.
  unfold abitset_expandable_count, bind at 1, get at 1.
  destruct (for_loop_invariant
              (fun i c s => s = h /\
                            c = u32 (sumZ page_bits (take (Z.to_nat i) (pages h))))
              (fun i count =>
                 p <~ read_page_ptr i ;;
                 match p with
                 | None => ret count
                 | Some _ =>
                     for_loop (Z.to_nat PAGE_ENTRIES) 0
                              (fun j count => val <~ read_word i j ;;
                                              ret (clear_lowest_bits 64 val count))
                              count
                 end)
              (Z.to_nat (page_count h)) 0 0 h)
    as (c & s & E & -> & ->).
  - split; reflexivity.
  - intros i a s Hi [-> ->].
    destruct (lookup_lt_is_Some_2 (pages h) (Z.to_nat i)) as [p Hp]; [lia|].
    unfold bind at 1, read_page_ptr, bind at 1, get. rewrite Hp. cbn [lift].
    replace (Z.to_nat (i + 1)) with (S (Z.to_nat i)) by lia.
    rewrite (sumZ_take_S _ _ _ _ Hp).
    destruct p as [pg|].
    + pose proof (proj1 (pages_ok_lookup _) Hok _ _ Hp) as Hl. cbn [page_ok] in Hl.
      apply Nat.eqb_eq in Hl.
      eexists _, h. split.
      { apply (count_page_loop h i pg); try assumption.
        - intros j w. apply (Hrange _ _ _ _ Hp).
        - apply u32_range. }
      split; [reflexivity|]. cbn [page_bits]. unfold u32.
      rewrite Z.add_mod_idemp_l by lia. reflexivity.
    + exists (u32 (sumZ page_bits (take (Z.to_nat i) (pages h)))), h.
      split; [reflexivity|]. split; [reflexivity|]. cbn [page_bits].
      rewrite Z.add_0_r. reflexivity.
  - rewrite E. do 2 f_equal. unfold total_bits.
    rewrite Z.add_0_l, Nat2Z.id.
    replace (Z.to_nat (page_count h)) with (length (pages h)) by lia.
    rewrite firstn_all. reflexivity.
Qed.

Lemma testbit_div2 x i : 0 <= i -> Z.testbit (Z.div2 x) i = Z.testbit x (i + 1).
Proof. intros Hi. rewrite Z.div2_spec. apply Z.shiftr_spec. exact Hi. Qed.

Lemma bits_set_ext n x y :
  (forall i, 0 <= i < Z.of_nat n -> Z.testbit x i = Z.testbit y i) ->
  bits_set n x = bits_set n y.
Proof.
  revert x y. induction n as [|n IH]; intros x y H; cbn [bits_set]; [reflexivity|].
  rewrite <- !Z.bit0_odd, (H 0) by lia. f_equal.
  apply IH. intros i Hi. rewrite !testbit_div2 by lia. apply H. lia.
Qed.

Lemma bits_set_update_bit n x y b :
  0 <= b < Z.of_nat n ->
  (forall i, 0 <= i < Z.of_nat n -> i <> b -> Z.testbit x i = Z.testbit y i) ->
  bits_set n y = bits_set n x - Z.b2z (Z.testbit x b) + Z.b2z (Z.testbit y b).
Proof.
  revert x y b. induction n as [|n IH]; intros x y b Hb H; [lia|].
  cbn [bits_set]. rewrite <- !Z.bit0_odd.
  destruct (Z.eq_dec b 0) as [->|Hne].
  - rewrite (bits_set_ext n (Z.div2 y) (Z.div2 x)); [lia|].
    intros i Hi. rewrite !testbit_div2 by lia. symmetry. apply H; lia.
  - rewrite (H 0) by lia.
    rewrite (IH (Z.div2 x) (Z.div2 y) (b - 1)).
    + rewrite !testbit_div2 by lia. replace (b - 1 + 1) with b by lia. lia.
    + lia.
    + intros i Hi Hib. rewrite !testbit_div2 by lia. apply H; lia.
Qed.

Lemma bits_set_lor_bit w b :
  0 <= b < 64 ->
  bits_set 64 (Z.lor w (Z.shiftl 1 b)) = bits_set 64 w + Z.b2z (negb (Z.testbit w b)).
Proof.
  intros Hb.
  rewrite (bits_set_update_bit 64 w (Z.lor w (Z.shiftl 1 b)) b).
  - rewrite lor_bit_testbit by lia. destruct (Z.testbit w b); cbn; lia.
  - change (Z.of_nat 64) with 64. exact Hb.
  - intros i Hi Hne. rewrite lor_bit_testbit_any by lia.
    rewrite (proj2 (Z.eqb_neq i b) Hne), orb_false_r. reflexivity.
Qed.

Lemma bits_set_land_not_bit w b :
  0 <= b < 64 ->
  bits_set 64 (Z.land w (u64 (Z.lnot (Z.shiftl 1 b))))
  = bits_set 64 w - Z.b2z (Z.testbit w b).
Proof.
  intros Hb.
  rewrite (bits_set_update_bit 64 w (Z.land w (u64 (Z.lnot (Z.shiftl 1 b)))) b).
  - rewrite land_not_bit_testbit by lia. cbn [Z.b2z]. lia.
  - change (Z.of_nat 64) with 64. exact Hb.
  - intros i Hi Hne. change (Z.of_nat 64) with 64 in Hi.
    rewrite land_not_bit_testbit_any by lia.
    rewrite (proj2 (Z.eqb_neq i b) Hne), andb_true_r. reflexivity.
Qed.

Lemma lor_bit_range w b :
  0 <= w < 2 ^ 64 -> 0 <= b < 64 -> 0 <= Z.lor w (Z.shiftl 1 b) < 2 ^ 64.
Proof.
  intros Hw Hb. rewrite Z.shiftl_1_l.
  assert (Hp : 0 < 2 ^ b) by (apply Z.pow_pos_nonneg; lia).
  assert (H0 : 0 <= Z.lor w (2 ^ b)) by (apply Z.lor_nonneg; lia).
  split; [exact H0|].
  destruct (Z.eq_dec (Z.lor w (2 ^ b)) 0) as [->|Hne]; [lia|].
  apply Z.log2_lt_pow2; [lia|].
  rewrite Z.log2_lor by lia. rewrite Z.log2_pow2 by lia.
  destruct (Z.eq_dec w 0) as [->|Hw0]; [cbn; lia|].
  assert (Z.log2 w < 64) by (apply Z.log2_lt_pow2; lia). lia.
Qed.

Lemma land_range w m :
  0 <= w < 2 ^ 64 -> 0 <= m -> 0 <= Z.land w m < 2 ^ 64.
Proof.
  intros Hw Hm. assert (H0 : 0 <= Z.land w m) by (apply Z.land_nonneg; lia).
  split; [exact H0|].
  destruct (Z.eq_dec (Z.land w m) 0) as [->|Hne]; [lia|].
  apply Z.log2_lt_pow2; [lia|].
  pose proof (Z.log2_land w m ltac:(lia) Hm).
  destruct (Z.eq_dec w 0) as [->|Hw0]; [rewrite Z.land_0_l in Hne; lia|].
  assert (Z.log2 w < 64) by (apply Z.log2_lt_pow2; lia). lia.
Qed.

Lemma words_in_range_init : words_in_range abitset_expandable_init.
Proof.
  intros k pg j w Hk. exfalso. unfold abitset_expandable_init in Hk. cbn [pages] in Hk.
  apply lookup_replicate in Hk. destruct Hk as [Hk _]. discriminate.
Qed.

(** The pages after a word update, entry by entry. *)
Lemma update_word_pages f h id h' :
  wf h -> is_u32 id -> update_word f id h = Some (tt, h') ->
  exists k w,
    page_after h (Z.shiftr id 18)
      !! Z.to_nat (Z.land (Z.shiftr id 6) (PAGE_ENTRIES - 1)) = Some w /\
    w = stored_word h (Z.shiftr id 18) (Z.land (Z.shiftr id 6) (PAGE_ENTRIES - 1)) /\
    (Z.to_nat (Z.shiftr id 18) < length (pages h ++ replicate k None))%nat /\
    pages h' =
      <[Z.to_nat (Z.shiftr id 18) :=
          Some (<[Z.to_nat (Z.land (Z.shiftr id 6) (PAGE_ENTRIES - 1)) := f w]>
                  (page_after h (Z.shiftr id 18)))]>
        (pages h ++ replicate k None).
Proof.
  intros Hwf Hid E.
  destruct (update_word_effect f h id Hwf Hid)
    as (he & h2 & w & Ee & E2 & _ & _ & Hw & Hh2 & _ & _ & _ & _ & Hl).
  rewrite E2 in E. apply Some_inj, pair_equal_spec in E. destruct E as [_ <-].
  destruct (expand_spec h id Hwf Hid)
    as (he' & Ee' & _ & _ & _ & _ & _ & Hpages & _).
  assert (he' = he) as -> by congruence.
  exists (Z.to_nat (page_count he - page_count h)), w.
  split; [exact Hw|]. split.
  { rewrite <- stored_word_page_after, Hw. reflexivity. }
  pose proof (lookup_lt_Some _ _ _ Hl) as Hlt.
  rewrite Hpages, length_insert in Hlt. split; [exact Hlt|].
  rewrite Hh2. cbn [pages with_pages]. rewrite Hpages.
  apply list_insert_insert_eq.
Qed.

Lemma grown_directory_lookup h k i q :
  (pages h ++ replicate k None) !! i = Some q ->
  q = None /\ (pages h !! i = Some None \/ pages h !! i = None) \/
  (exists pg, q = Some pg /\ pages h !! i = Some (Some pg)).
Proof.
  intros Hq. apply lookup_app_Some in Hq. destruct Hq as [Hq|[Hlen Hq]].
  - destruct q as [pg|]; [right; eauto | left; auto].
  - apply lookup_replicate in Hq. destruct Hq as [-> _]. left.
    split; [reflexivity|]. right. apply lookup_ge_None_2. exact Hlen.
Qed.

Lemma update_word_total_bits f h id h' :
  wf h -> is_u32 id -> update_word f id h = Some (tt, h') ->
  total_bits h' =
    total_bits h
    - bits_set 64 (stored_word h (Z.shiftr id 18)
                                 (Z.land (Z.shiftr id 6) (PAGE_ENTRIES - 1)))
    + bits_set 64 (f (stored_word h (Z.shiftr id 18)
                                    (Z.land (Z.shiftr id 6) (PAGE_ENTRIES - 1)))).
Proof.
  intros Hwf Hid E.
  destruct (update_word_pages f h id h' Hwf Hid E) as (k & w & Hw & Hws & Hlt & Hp).
  rewrite <- Hws. unfold total_bits. rewrite Hp.
  destruct (lookup_lt_is_Some_2 _ _ Hlt) as [q Hq].
  rewrite (sumZ_insert _ _ _ q _ Hq), sumZ_app.
  rewrite (sumZ_zero page_bits (replicate k None)).
  2:{ intros x Hx. apply elem_of_replicate in Hx. destruct Hx as [-> _]. reflexivity. }
  cbn [page_bits]. rewrite (sumZ_insert _ _ _ w _ Hw).
  assert (Hq' : page_bits q = sumZ (bits_set 64) (page_after h (Z.shiftr id 18))).
  { destruct (grown_directory_lookup _ _ _ _ Hq) as [[-> Hn]|(pg & -> & Hpg)].
    - unfold page_after. destruct Hn as [-> | ->]; symmetry; apply zalloc_page_bits.
    - unfold page_after. rewrite Hpg. reflexivity. }
  lia.
Qed.

Lemma update_word_words_in_range f h id h' :
  (forall w, 0 <= w < 2 ^ 64 -> 0 <= f w < 2 ^ 64) ->
  wf h -> words_in_range h -> is_u32 id ->
  update_word f id h = Some (tt, h') -> words_in_range h'.
Proof.
  intros Hf Hwf Hrange Hid E.
  destruct (update_word_pages f h id h' Hwf Hid E) as (k & w & Hw & _ & Hlt & Hp).
  assert (Hpa : forall j x, page_after h (Z.shiftr id 18) !! j = Some x ->
                            0 <= x < 2 ^ 64).
  { intros j x. unfold page_after.
    destruct (pages h !! Z.to_nat (Z.shiftr id 18)) as [[pg|]|] eqn:Ep.
    - apply (Hrange _ _ _ _ Ep).
    - intros Hx. apply lookup_replicate in Hx. destruct Hx as [-> _]. lia.
    - intros Hx. apply lookup_replicate in Hx. destruct Hx as [-> _]. lia. }
  intros i pg j x Hi Hj. rewrite Hp in Hi.
  destruct (decide (i = Z.to_nat (Z.shiftr id 18))) as [->|Hne].
  - rewrite list_lookup_insert_eq in Hi by exact Hlt.
    injection Hi as <-.
    apply list_lookup_insert_Some in Hj.
    destruct Hj as [(_ & <- & _)|(_ & Hj)].
    + apply Hf. apply (Hpa _ _ Hw).
    + apply (Hpa _ _ Hj).
  - rewrite list_lookup_insert_ne in Hi by congruence.
    destruct (grown_directory_lookup _ _ _ _ Hi) as [[Hc _]|(pg' & Hc & Hpg)];
      [discriminate|].
    injection Hc as <-. apply (Hrange _ _ _ _ Hpg Hj).
Qed.

Lemma run_op_words_in_range h o h' :
  wf h -> words_in_range h -> is_u32 (op_id o) ->
  run_op o h = Some (tt, h') -> words_in_range h'.
Proof.
  intros Hwf Hrange Hid E. destruct o as [id|id]; cbn [run_op op_id] in *.
  - rewrite set_is_update in E.
    eapply update_word_words_in_range;
      [| exact Hwf | exact Hrange | exact Hid | exact E].
    intros w Hw. apply lor_bit_range; [exact Hw | apply bit_bound].
  - rewrite unset_is_update in E.
    eapply update_word_words_in_range;
      [| exact Hwf | exact Hrange | exact Hid | exact E].
    intros w Hw. apply land_range; [exact Hw|].
    unfold u64. apply Z.mod_pos_bound. lia.
Qed.

Lemma run_ops_words_in_range os h h' :
  wf h -> words_in_range h -> Forall (fun o => is_u32 (op_id o)) os ->
  run_ops os h = Some (tt, h') -> words_in_range h'.
Proof.
  intros Hwf Hrange Hos. revert h Hwf Hrange.
  induction Hos as [|o os Ho Hos IH]; intros h Hwf Hrange E; cbn [run_ops] in E.
  - unfold ret in E. apply Some_inj, pair_equal_spec in E. destruct E as [_ <-].
    exact Hrange.
  - unfold bind in E. destruct (run_op o h) as [[[] h1]|] eqn:E1; [|discriminate].
    destruct (run_op_effect h o Hwf Ho) as (h1' & E1' & Hwf1 & _).
    assert (h1' = h1) as -> by congruence.
    apply (IH h1 Hwf1); [|exact E].
    apply (run_op_words_in_range h o); assumption.
Qed.

Lemma words_in_range_sample : words_in_range sample_handle.
Proof.
  apply (run_ops_words_in_range [OpSet 70; OpSet 300000; OpUnset 9]
                                abitset_expandable_init).
  - exact wf_init.
  - exact words_in_range_init.
  - repeat constructor; vm_compute; congruence.
  - vm_compute. reflexivity.
Qed.

Lemma page_bits_bound p : page_ok p = true -> 0 <= page_bits p <= 32768.
Proof.
  destruct p as [pg|]; cbn [page_ok page_bits]; [|lia].
  intros Hl. apply Nat.eqb_eq in Hl.
  assert (H : 0 <= sumZ (bits_set 64) pg <= 64 * Z.of_nat (length pg)).
  { clear Hl. unfold sumZ. induction pg as [|w pg IH]; cbn [foldr length]; [lia|].
    pose proof (bits_set_bounds 64 w). lia. }
  rewrite Hl in H. change (Z.to_nat PAGE_ENTRIES) with (Z.to_nat 512) in H. lia.
Qed.

Lemma total_bits_bound h :
  wf h -> 0 <= total_bits h <= 32768 * page_count h.
Proof.
  intros (_ & Hlen & _ & _ & Hok). rewrite <- Hlen. unfold total_bits.
  revert Hok. generalize (pages h) as l.
  induction l as [|p l IH]; cbn [forallb length]; intros Hok.
  - unfold sumZ. cbn [foldr]. lia.
  - apply andb_prop in Hok. destruct Hok as [Hp Hl].
    pose proof (page_bits_bound p Hp). specialize (IH Hl).
    unfold sumZ in *. cbn [foldr]. lia.
Qed.

(** X19.  For every handle built from a fresh one by [set] and [unset]
    calls with 32-bit ids, [abitset_expandable_count] returns, leaves the
    handle unchanged, and yields exactly the number of 1 bits stored in
    the allocated pages: that number is at most [2^29], so the 32-bit
    counter never wraps. *)
Theorem count_is_stored_bits os h :
  Forall (fun o => is_u32 (op_id o)) os ->
  run_ops os abitset_expandable_init = Some (tt, h) ->
  abitset_expandable_count h = Some (total_bits h, h) /\
  0 <= total_bits h <= 2 ^ 29.
Proof.
  intros Hos Hrun.
  pose proof (reach_inv_run_ops os _ h reach_inv_init Hos Hrun) as (Hwf & _).
  pose proof (run_ops_words_in_range os _ h wf_init words_in_range_init Hos Hrun)
    as Hrange.
  pose proof (capacity_inv_run_ops os h Hos Hrun) as [(e & He & Hpc) _].
  pose proof (total_bits_bound h Hwf) as Hb.
  assert (Hpc' : page_count h <= 16384).
  { rewrite Hpc. assert (2 ^ e <= 2 ^ 3) by (apply Z.pow_le_mono_r; lia). lia. }
  assert (Hb' : 0 <= total_bits h <= 2 ^ 29) by lia.
  split; [|exact Hb'].
  rewrite (count_spec h Hwf Hrange). unfold u32.
  rewrite Z.mod_small by lia. reflexivity.
Qed.

Lemma count_is_stored_bits_witness :
  Forall (fun o => is_u32 (op_id o)) [OpSet 70; OpSet 300000; OpUnset 9] /\
  run_ops [OpSet 70; OpSet 300000; OpUnset 9] abitset_expandable_init
    = Some (tt, sample_handle) /\
  abitset_expandable_count sample_handle
    = Some (total_bits sample_handle, sample_handle).
Proof.
  assert (Hos : Forall (fun o => is_u32 (op_id o)) [OpSet 70; OpSet 300000; OpUnset 9])
    by (repeat constructor; vm_compute; congruence).
  assert (Hrun : run_ops [OpSet 70; OpSet 300000; OpUnset 9] abitset_expandable_init
                 = Some (tt, sample_handle)) by (vm_compute; reflexivity).
  split; [exact Hos|]. split; [exact Hrun|].
  exact (proj1 (count_is_stored_bits _ _ Hos Hrun)).
Defined.

(** X20.  On a well-formed handle whose stored words are 64-bit values,
    [count] right after [set(h, a)] is the stored-bit total plus one when
    the bit addressed by [a] was 0 and the same total when it was 1;
    [count] right after [unset(h, a)] is the total minus one when that bit
    was 1 and the same total when it was 0 (all modulo [2^32]). *)
Theorem count_after_set_and_unset h a :
  wf h -> words_in_range h -> is_u32 a ->
  eval (abitset_expandable_set a ;;; abitset_expandable_count) h =
    Some (u32 (total_bits h +
               Z.b2z (negb (Z.testbit
                              (stored_word h (Z.shiftr a 18)
                                             (Z.land (Z.shiftr a 6) (PAGE_ENTRIES - 1)))
                              (Z.land a 63))))) /\
  eval (abitset_expandable_unset a ;;; abitset_expandable_count) h =
    Some (u32 (total_bits h -
               Z.b2z (Z.testbit
                        (stored_word h (Z.shiftr a 18)
                                       (Z.land (Z.shiftr a 6) (PAGE_ENTRIES - 1)))
                        (Z.land a 63)))).
Proof.
  intros Hwf Hrange Ha. split.
  - destruct (run_op_effect h (OpSet a) Hwf Ha) as (h' & E & Hwf' & _).
    cbn [run_op] in E.
    pose proof (run_op_words_in_range h (OpSet a) h' Hwf Hrange Ha E) as Hrange'.
    unfold eval, bind. rewrite E, (count_spec h' Hwf' Hrange').
    rewrite set_is_update in E.
    rewrite (update_word_total_bits _ h a h' Hwf Ha E).
    rewrite bits_set_lor_bit by apply bit_bound. do 2 f_equal. lia.
  - destruct (run_op_effect h (OpUnset a) Hwf Ha) as (h' & E & Hwf' & _).
    cbn [run_op] in E.
    pose proof (run_op_words_in_range h (OpUnset a) h' Hwf Hrange Ha E) as Hrange'.
    unfold eval, bind. rewrite E, (count_spec h' Hwf' Hrange').
    rewrite unset_is_update in E.
    rewrite (update_word_total_bits _ h a h' Hwf Ha E).
    rewrite bits_set_land_not_bit by apply bit_bound. do 2 f_equal. lia.
Qed.

Lemma count_after_set_and_unset_witness :
  wf sample_handle /\ words_in_range sample_handle /\ is_u32 70 /\
  eval (abitset_expandable_unset 70 ;;; abitset_expandable_count) sample_handle =
    Some (u32 (total_bits sample_handle -
               Z.b2z (Z.testbit
                        (stored_word sample_handle (Z.shiftr 70 18)
                                     (Z.land (Z.shiftr 70 6) (PAGE_ENTRIES - 1)))
                        (Z.land 70 63)))).
Proof.
  assert (Hwf : wf sample_handle) by wf_by_evaluation.
  assert (Hid : is_u32 70) by (unfold is_u32; lia).
  split; [exact Hwf|]. split; [exact words_in_range_sample|]. split; [exact Hid|].
  exact (proj2 (count_after_set_and_unset sample_handle 70 Hwf
                                          words_in_range_sample Hid)).
Defined.

(** X21.  For a declared bit count [n] between 1 and [2^26] and an array
    of at least [(n + 63) / 64] 64-bit words, [count] on the loaded handle
    is the number of 1 bits in the first [(n + 63) / 64] input words
    (modulo [2^32]): whole words are stored, so bits of the last word at
    positions [n] and beyond are counted too. *)
Theorem count_after_load (r : list Z) (n : Z) :
  1 <= n <= 2 ^ 26 ->
  (n + 63) / 64 <= Z.of_nat (length r) ->
  (forall j w, r !! j = Some w -> 0 <= w < 2 ^ 64) ->
  exists h',
    abitset_expandable_load r n = Some h' /\
    abitset_expandable_count h' =
      Some (u32 (sumZ (bits_set 64) (take (Z.to_nat ((n + 63) / 64)) r)), h').
Proof.
  intros Hn Hlen Hrange.
  destruct (load_words r (n - 1)) as (h' & El & Hwf & Hmb & Hpc & Hs & Htot).
  - lia.
  - replace (n - 1 + 64) with (n + 63) by lia. exact Hlen.
  - intros j v Hj _ _. left. Z.div_mod_to_equations. lia.
  - replace (n - 1 + 1) with n in El by lia.
    replace (n - 1 + 64) with (n + 63) in * by lia.
    exists h'. split; [exact El|]. rewrite <- Htot.
    apply count_spec; [exact Hwf|].
    intros k pg o x Hk Ho.
    pose proof Hwf as (_ & _ & _ & _ & Hok).
    pose proof (proj1 (pages_ok_lookup _) Hok _ _ Hk) as Hl. cbn [page_ok] in Hl.
    apply Nat.eqb_eq in Hl. change (Z.to_nat PAGE_ENTRIES) with (Z.to_nat 512) in Hl.
    pose proof (lookup_lt_Some _ _ _ Ho) as Hlt.
    set (j := 512 * Z.of_nat k + Z.of_nat o).
    assert (Hq : j / 512 = Z.of_nat k) by (subst j; Z.div_mod_to_equations; lia).
    assert (Hm : j mod 512 = Z.of_nat o) by (subst j; Z.div_mod_to_equations; lia).
    pose proof (Hs j ltac:(lia)) as Hw. rewrite Hq, Hm in Hw.
    unfold stored_word in Hw. rewrite !Nat2Z.id, Hk, Ho in Hw.
    cbn [default from_option id] in Hw.
    rewrite Hw. destruct (j <? (n + 63) / 64); [|lia].
    destruct (r !! Z.to_nat j) as [y|] eqn:Ey; cbn [default]; [|lia].
    apply (Hrange _ _ Ey).
Qed.

Lemma count_after_load_witness :
  1 <= 130 <= 2 ^ 26 /\
  (130 + 63) / 64 <= Z.of_nat (length [5; 0; 3]) /\
  (forall j w, [5; 0; 3] !! j = Some w -> 0 <= w < 2 ^ 64) /\
  exists h', abitset_expandable_load [5; 0; 3] 130 = Some h' /\
             abitset_expandable_count h' = Some (4, h').
Proof.
  assert (H1 : 1 <= 130 <= 2 ^ 26) by lia.
  assert (H2 : (130 + 63) / 64 <= Z.of_nat (length [5; 0; 3]))
    by (vm_compute; congruence).
  assert (H3 : forall j w, [5; 0; 3] !! j = Some w -> 0 <= w < 2 ^ 64).
  { intros [|[|[|j]]] w Hw; cbn in Hw; try discriminate; injection Hw as <-; lia. }
  split; [exact H1|]. split; [exact H2|]. split; [exact H3|].
  exact (count_after_load [5; 0; 3] 130 H1 H2 H3).
Defined.

(** ** One mutation after another on the same id *)

Lemma update_word_compose f g k h id :
  g (f (stored_word h (Z.shiftr id 18) (Z.land (Z.shiftr id 6) (PAGE_ENTRIES - 1))))
  = k (stored_word h (Z.shiftr id 18) (Z.land (Z.shiftr id 6) (PAGE_ENTRIES - 1))) ->
  wf h -> is_u32 id ->
  exec (update_word f id ;;; update_word g id) h = exec (update_word k id) h.
Proof.
  intros Hk Hwf Hid.
  rewrite <- !stored_word_page_after in Hk.
  destruct (update_word_effect f h id Hwf Hid)
    as (he & h1 & w & Ee & E1 & Hwfe & Hwf1 & Hw & Hh1 & Hmb & _ & Hrp & _ & Hl).
  destruct (update_word_effect k h id Hwf Hid)
    as (he' & hk & w' & Ee' & Ek & _ & _ & Hw' & Hhk & _).
  assert (he' = he) as -> by congruence.
  assert (w' = w) as -> by congruence.
  destruct (expand_spec h id Hwf Hid) as (he' & Ee'' & _ & _ & _ & _ & _ & _ & Hsz).
  assert (he' = he) as -> by congruence.
  set (rp := Z.shiftr id 18) in *.
  set (off := Z.land (Z.shiftr id 6) (PAGE_ENTRIES - 1)) in *.
  set (pg1 := <[Z.to_nat off := f w]> (page_after h rp)) in *.
  pose proof (lookup_lt_Some _ _ _ Hl) as Hlt.
  pose proof (lookup_lt_Some _ _ _ Hw) as Hlo.
  assert (Hl1 : pages h1 !! Z.to_nat rp = Some (Some pg1)).
  { rewrite Hh1. cbn [pages with_pages]. apply list_lookup_insert_eq. exact Hlt. }
  assert (Hfix : abitset_expandable_expand id h1 = Some (tt, h1)).
  { apply (expand_fixpoint h1 id pg1 Hwf1 Hid); try exact Hl1.
    - rewrite Hh1. cbn [max_bit with_pages]. lia.
    - rewrite Hh1. cbn [page_count with_pages]. exact Hrp.
    - rewrite Hh1. cbn [size with_pages]. fold rp. lia. }
  destruct (update_word_spec g h1 id Hwf1 Hid) as (h1e & w1 & E1e & Hw1 & E2).
  assert (h1e = h1) as -> by congruence.
  fold rp off in Hw1, E2.
  assert (Hpa : page_after h1 rp = pg1) by (unfold page_after; rewrite Hl1; reflexivity).
  rewrite Hpa in Hw1, E2.
  assert (Hw1' : w1 = f w).
  { subst pg1. rewrite list_lookup_insert_eq in Hw1 by exact Hlo. congruence. }
  subst w1. fold rp off in Hk. rewrite Hw in Hk.
  change (default 0 (Some w)) with w in Hk.
  rewrite Hk in E2.
  unfold exec, bind. rewrite E1, E2, Ek. f_equal.
  rewrite Hhk, Hh1. unfold with_pages. cbn [pages page_count size max_bit].
  fold pg1. subst pg1.
  rewrite list_insert_insert_eq, list_insert_insert_eq. reflexivity.
Qed.

Lemma clear_after_set_bit w b :
  0 <= b < 64 ->
  Z.land (Z.lor w (Z.shiftl 1 b)) (u64 (Z.lnot (Z.shiftl 1 b)))
  = Z.land w (u64 (Z.lnot (Z.shiftl 1 b))).
Proof.
  intros Hb. apply Z.bits_inj'. intros i Hi.
  rewrite !Z.land_spec, Z.lor_spec, Z.shiftl_1_l.
  destruct (Z.eq_dec i b) as [->|Hne].
  - unfold u64. rewrite Z.mod_pow2_bits_low by lia.
    rewrite Z.lnot_spec, Z.pow2_bits_true by lia. cbn [negb].
    rewrite !andb_false_r. reflexivity.
  - rewrite (Z.pow2_bits_false b i) by congruence. rewrite orb_false_r.
    reflexivity.
Qed.

Lemma set_after_clear_bit w b :
  0 <= w < 2 ^ 64 -> 0 <= b < 64 ->
  Z.lor (Z.land w (u64 (Z.lnot (Z.shiftl 1 b)))) (Z.shiftl 1 b)
  = Z.lor w (Z.shiftl 1 b).
Proof.
  intros Hw Hb. apply Z.bits_inj'. intros i Hi.
  rewrite !Z.lor_spec, Z.land_spec, Z.shiftl_1_l.
  destruct (Z.eq_dec i b) as [->|Hne].
  - rewrite Z.pow2_bits_true by lia. rewrite !orb_true_r. reflexivity.
  - rewrite (Z.pow2_bits_false b i) by congruence. rewrite !orb_false_r.
    destruct (Z.lt_ge_cases i 64).
    + unfold u64. rewrite Z.mod_pow2_bits_low by lia.
      rewrite Z.lnot_spec, Z.pow2_bits_false by lia. cbn [negb].
      apply andb_true_r.
    + assert (Hz : Z.testbit w i = false).
      { destruct (Z.eq_dec w 0) as [->|Hw0]; [apply Z.bits_0|].
        apply Z.bits_above_log2; [lia|].
        assert (Z.log2 w < 64) by (apply Z.log2_lt_pow2; lia). lia. }
      rewrite Hz. reflexivity.
Qed.

Lemma stored_word_in_range h p o :
  words_in_range h -> 0 <= stored_word h p o < 2 ^ 64.
Proof.
  intros Hrange. unfold stored_word.
  destruct (pages h !! Z.to_nat p) as [[pg|]|] eqn:Ep; try lia.
  destruct (pg !! Z.to_nat o) as [w|] eqn:Eo; cbn [default from_option id]; [|lia].
  apply (Hrange _ _ _ _ Ep Eo).
Qed.

(** X22.  On a well-formed handle, [unset(h, a)] right after [set(h, a)]
    leaves exactly the handle that [unset(h, a)] alone leaves; and when the
    stored words are 64-bit values, [set(h, a)] right after [unset(h, a)]
    leaves exactly the handle that [set(h, a)] alone leaves.  A later
    mutation of the same id overrides the earlier one; the growth caused by
    the first call is the growth the second would cause anyway. *)
Theorem last_mutation_wins h a :
  wf h -> is_u32 a ->
  exec (abitset_expandable_set a ;;; abitset_expandable_unset a) h
    = exec (abitset_expandable_unset a) h /\
  (words_in_range h ->
   exec (abitset_expandable_unset a ;;; abitset_expandable_set a) h
     = exec (abitset_expandable_set a) h).
Proof.
  intros Hwf Ha. rewrite !set_is_update, !unset_is_update. split.
  - apply update_word_compose; try assumption.
    apply clear_after_set_bit, bit_bound.
  - intros Hrange. apply update_word_compose; try assumption.
    apply set_after_clear_bit; [apply stored_word_in_range; exact Hrange|].
    apply bit_bound.
Qed.

Lemma last_mutation_wins_witness :
  wf sample_handle /\ is_u32 70 /\
  exec (abitset_expandable_set 70 ;;; abitset_expandable_unset 70) sample_handle
    = exec (abitset_expandable_unset 70) sample_handle.
Proof.
  assert (Hwf : wf sample_handle) by wf_by_evaluation.
  assert (Hid : is_u32 70) by (unfold is_u32; lia).
  split; [exact Hwf|]. split; [exact Hid|].
  exact (proj1 (last_mutation_wins sample_handle 70 Hwf Hid)).
Defined.

(** ** Two mutations in either order *)

Lemma enabled_as_stored_bit h c :
  wf h -> is_u32 c ->
  abitset_expandable_enabled c h = Some ((c <? max_bit h) && stored_bit h c, h).
Proof.
  intros Hwf Hc. destruct (Z.ltb_spec c (max_bit h)) as [Hlt|Hge]; cbn [andb].
  - apply enabled_below_max_bit; assumption.
  - rewrite enabled_stored_word by assumption.
    destruct (Z.geb_spec c (max_bit h)); [reflexivity | lia].
Qed.

Lemma stored_bit_after_op h o h' c :
  wf h -> is_u32 (op_id o) -> is_u32 c ->
  run_op o h = Some (tt, h') ->
  stored_bit h' c = op_bit o c (stored_bit h c).
Proof.
  intros Hwf Hid Hc E.
  pose proof (shiftr18_bound c Hc). pose proof (offset_bound (Z.shiftr c 6)).
  pose proof (bit_bound c) as Hbc.
  unfold stored_bit, op_bit, same_bit.
  destruct o as [id|id]; cbn [run_op op_id op_sets] in *.
  - rewrite set_is_update in E.
    rewrite (update_word_stored_word _ h id h' Hwf Hid E) by lia.
    destruct ((Z.shiftr c 18 =? Z.shiftr id 18) && _); cbn [andb]; [|reflexivity].
    rewrite lor_bit_testbit_any by (try apply bit_bound; lia).
    destruct (Z.land c 63 =? Z.land id 63); [apply orb_true_r | apply orb_false_r].
  - rewrite unset_is_update in E.
    rewrite (update_word_stored_word _ h id h' Hwf Hid E) by lia.
    destruct ((Z.shiftr c 18 =? Z.shiftr id 18) && _); cbn [andb]; [|reflexivity].
    rewrite land_not_bit_testbit_any by (try apply bit_bound; lia).
    destruct (Z.land c 63 =? Z.land id 63); cbn [negb];
      [apply andb_false_r | apply andb_true_r].
Qed.

Lemma test_after_two_ops h o1 o2 c :
  wf h -> is_u32 (op_id o1) -> is_u32 (op_id o2) -> is_u32 c ->
  eval (run_op o1 ;;; run_op o2 ;;; abitset_expandable_enabled c) h =
    Some ((c <? Z.max (Z.max (max_bit h) (op_id o1)) (op_id o2)) &&
          op_bit o2 c (op_bit o1 c (stored_bit h c))).
Proof.
  intros Hwf H1 H2 Hc.
  destruct (run_op_effect h o1 Hwf H1) as (h1 & E1 & Hwf1 & Hmb1).
  destruct (run_op_effect h1 o2 Hwf1 H2) as (h2 & E2 & Hwf2 & Hmb2).
  unfold eval, bind. rewrite E1, E2, (enabled_as_stored_bit h2 c Hwf2 Hc).
  rewrite Hmb2, Hmb1.
  rewrite (stored_bit_after_op h1 o2 h2 c Hwf1 H2 Hc E2).
  rewrite (stored_bit_after_op h o1 h1 c Hwf H1 Hc E1). reflexivity.
Qed.

Lemma same_bit_trans a b c :
  same_bit c a = true -> same_bit c b = true -> same_bit a b = true.
Proof.
  unfold same_bit. rewrite !andb_true_iff, !Z.eqb_eq.
  intros [[H1 H2] H3] [[H4 H5] H6]. repeat split; congruence.
Qed.

(** X23.  On a well-formed handle, two mutations (each a [set] or an
    [unset] with a 32-bit id) can be swapped without changing the answer
    of any later query, provided they are of the same kind or address
    different stored bits. *)
Theorem mutations_commute_for_queries h o1 o2 c :
  wf h -> is_u32 (op_id o1) -> is_u32 (op_id o2) -> is_u32 c ->
  same_bit (op_id o1) (op_id o2) = false \/ op_sets o1 = op_sets o2 ->
  eval (run_op o1 ;;; run_op o2 ;;; abitset_expandable_enabled c) h =
  eval (run_op o2 ;;; run_op o1 ;;; abitset_expandable_enabled c) h.
Proof.
  intros Hwf H1 H2 Hc Hcond.
  rewrite !test_after_two_ops by assumption.
  replace (Z.max (Z.max (max_bit h) (op_id o2)) (op_id o1))
    with (Z.max (Z.max (max_bit h) (op_id o1)) (op_id o2)) by lia.
  do 2 f_equal. unfold op_bit.
  destruct (same_bit c (op_id o1)) eqn:Ea; destruct (same_bit c (op_id o2)) eqn:Eb;
    try reflexivity.
  destruct Hcond as [Hne|Hk]; [|exact (eq_sym Hk)].
  rewrite (same_bit_trans _ _ _ Ea Eb) in Hne. discriminate.
Qed.

Lemma mutations_commute_for_queries_witness :
  wf sample_handle /\ is_u32 (op_id (OpSet 4)) /\ is_u32 (op_id (OpUnset 32773)) /\
  is_u32 4 /\
  (same_bit (op_id (OpSet 4)) (op_id (OpUnset 32773)) = false \/
   op_sets (OpSet 4) = op_sets (OpUnset 32773)) /\
  eval (run_op (OpSet 4) ;;; run_op (OpUnset 32773) ;;; abitset_expandable_enabled 4)
       sample_handle =
  eval (run_op (OpUnset 32773) ;;; run_op (OpSet 4) ;;; abitset_expandable_enabled 4)
       sample_handle.
Proof.
  assert (Hwf : wf sample_handle) by wf_by_evaluation.
  assert (H1 : is_u32 (op_id (OpSet 4))) by (vm_compute; split; congruence).
  assert (H2 : is_u32 (op_id (OpUnset 32773))) by (vm_compute; split; congruence).
  assert (Hc : is_u32 4) by (unfold is_u32; lia).
  assert (Hcond : same_bit (op_id (OpSet 4)) (op_id (OpUnset 32773)) = false \/
                  op_sets (OpSet 4) = op_sets (OpUnset 32773))
    by (left; vm_compute; reflexivity).
  repeat (split; [assumption|]).
  exact (mutations_commute_for_queries sample_handle (OpSet 4) (OpUnset 32773) 4
                                       Hwf H1 H2 Hc Hcond).
Defined.
